(** * CPU scheduling simulator: FCFS, SJF (non-preemptive) and SRTF

    A shallow embedding of the computational core of [app.py]:
    [parse_df_to_processes], [fcfs_scheduler],
    [sjf_nonpreemptive_scheduler], [srtf_scheduler] (with its Gantt
    segment merging) and [results_table_with_metrics].

    Python integers are [Z]; Python lists are [list]; the dictionaries of
    [srtf_scheduler] are [gmap string Z]; [while] loops take a fuel
    argument and return [None] when it runs out.  A float64 is the
    rational number it denotes, and the operations that round are written
    with [round64]; the input table carries the dtypes pandas gives its
    columns, since they decide what the row loop reads. *)

From Stdlib Require Import ZArith QArith Qround Qabs Qpower Lia Lqa.
From stdpp Require Import base tactics option list sorting gmap strings pretty.

Local Open Scope Z_scope.

(** ** Data model *)

(** [@dataclass class Process]. *)
Record Process := mkProcess {
  pid : string;
  arrival : Z;
  burst : Z;
  priority : Z
}.

(** A Gantt entry [{"pid": .., "start": .., "finish": ..}]. *)
Record Segment := mkSegment {
  g_pid : string;
  g_start : Z;
  g_finish : Z
}.

(** A result row [{"pid", "AT", "BT", "CT", "TAT", "WT"}]. *)
Record Row := mkRow {
  r_pid : string;
  AT : Z;
  BT : Z;
  CT : Z;
  TAT : Z;
  WT : Z
}.

(** A timeline entry [{"time": .., "running": ..}]. *)
Record TimelineUnit := mkUnit {
  time : Z;
  running : string
}.

Global Instance Process_eq_dec : EqDecision Process.
Proof. solve_decision. Defined.
Global Instance Segment_eq_dec : EqDecision Segment.
Proof. solve_decision. Defined.
Global Instance Row_eq_dec : EqDecision Row.
Proof. solve_decision. Defined.
Global Instance TimelineUnit_eq_dec : EqDecision TimelineUnit.
Proof. solve_decision. Defined.

(** The occupant recorded for a unit in which no process runs. *)
Definition IDLE : string := "IDLE".

(** The three values every scheduler returns: Gantt list, result rows
    (the rows of the returned DataFrame) and per-unit timeline. *)
Definition Schedule : Type := list Segment * list Row * list TimelineUnit.

Definition sched_gantt (s : Schedule) : list Segment := s.1.1.
Definition sched_rows (s : Schedule) : list Row := s.1.2.
Definition sched_timeline (s : Schedule) : list TimelineUnit := s.2.

(** [range(a, b)] *)
Definition range (a b : Z) : list Z :=
  (λ i : nat, a + Z.of_nat i) <$> seq 0 (Z.to_nat (b - a)).

(** The timeline entries appended by [for t in range(a, b): timeline.append(..)]. *)
Definition units (who : string) (a b : Z) : list TimelineUnit :=
  (λ t, mkUnit t who) <$> range a b.

(** The row appended to [results] for process [p] finishing at [ct]. *)
Definition result_row (p : Process) (ct : Z) : Row :=
  let tat := ct - arrival p in
  let wt := tat - burst p in
  mkRow (pid p) (arrival p) (burst p) ct tat wt.

(** ** Python's stable sort

    [sorted(l, key=f)] and [l.sort(key=f)] are stable: elements with equal
    keys keep their relative order.  Keys are compared through an order
    class; integers and tuples (lexicographic) are the instances used. *)

Class KeyOrder (K : Type) := {
  kle : K → K → bool;
  kle_total k1 k2 : kle k1 k2 = true ∨ kle k2 k1 = true;
  kle_trans k1 k2 k3 : kle k1 k2 = true → kle k2 k3 = true → kle k1 k3 = true;
  kle_antisym k1 k2 : kle k1 k2 = true → kle k2 k1 = true → k1 = k2
}.

#[global, refine] Instance Z_KeyOrder : KeyOrder Z := {| kle := Z.leb |}.
Proof.
  - intros k1 k2. rewrite !Z.leb_le. lia.
  - intros k1 k2 k3. rewrite !Z.leb_le. lia.
  - intros k1 k2. rewrite !Z.leb_le. lia.
Defined.

(** Tuple comparison: the first components decide unless they are equal. *)
Definition lex_le {K1 K2} `{KeyOrder K1, KeyOrder K2} (a b : K1 * K2) : bool :=
  if kle a.1 b.1 then (if kle b.1 a.1 then kle a.2 b.2 else true) else false.

#[global, refine] Instance pair_KeyOrder {K1 K2} `{KeyOrder K1, KeyOrder K2} :
  KeyOrder (K1 * K2) := {| kle := lex_le |}.
Proof.
  - intros [a1 a2] [b1 b2]. unfold lex_le; simpl.
    destruct (kle a1 b1) eqn:E1, (kle b1 a1) eqn:E2; auto.
    + apply kle_total.
    + destruct (kle_total a1 b1); congruence.
  - intros [a1 a2] [b1 b2] [c1 c2]. unfold lex_le; simpl.
    destruct (kle a1 b1) eqn:E1; [|done].
    destruct (kle b1 c1) eqn:E2; [|by destruct (kle b1 a1)].
    rewrite (kle_trans _ _ _ E1 E2).
    destruct (kle b1 a1) eqn:E3, (kle c1 b1) eqn:E4, (kle c1 a1) eqn:E5;
      try done.
    + apply kle_trans.
    + rewrite <- (kle_antisym _ _ E1 E3) in E4. congruence.
    + rewrite (kle_antisym _ _ E2 E4) in E3. congruence.
    + rewrite (kle_trans _ _ _ E5 E1) in E4. done.
  - intros [a1 a2] [b1 b2]. unfold lex_le; simpl.
    destruct (kle a1 b1) eqn:E1; [|done].
    destruct (kle b1 a1) eqn:E2; [|done].
    intros. f_equal; by apply kle_antisym.
Defined.

Section stable_sort.
Context {A K : Type} `{KeyOrder K} (key : A → K).

(** Insert [x], which came before every element of [l] in the input,
    in front of the first element whose key is not smaller. *)
Fixpoint insert_key (x : A) (l : list A) : list A :=
  match l with
  | [] => [x]
  | y :: l' => if kle (key x) (key y) then x :: l else y :: insert_key x l'
  end.

Definition sorted (l : list A) : list A := foldr insert_key [] l.

(** Ascending by key. *)
Definition key_le (x y : A) : Prop := kle (key x) (key y) = true.
Definition key_sorted (l : list A) : Prop := StronglySorted key_le l.

(** The first element of minimal key among those satisfying [elig],
    together with the list without it (order kept). *)
Fixpoint select (elig : A → bool) (l : list A) : option (A * list A) :=
  match l with
  | [] => None
  | x :: l' =>
      match select elig l' with
      | None => if elig x then Some (x, l') else None
      | Some (m, r) =>
          if elig x && kle (key x) (key m) then Some (x, l')
          else Some (m, x :: r)
      end
  end.
End stable_sort.

(** ** FCFS *)

Record FcfsState := mkFcfs {
  f_time : Z;
  f_gantt : list Segment;
  f_results : list Row;
  f_timeline : list TimelineUnit
}.

(** Body of [for p in procs]. *)
Definition fcfs_step (st : FcfsState) (p : Process) : FcfsState :=
  let start := Z.max (f_time st) (arrival p) in
  let timeline1 :=
    if bool_decide (start > f_time st)
    then f_timeline st ++ units IDLE (f_time st) start
    else f_timeline st in
  let finish := start + burst p in
  mkFcfs finish
         (f_gantt st ++ [mkSegment (pid p) start finish])
         (f_results st ++ [result_row p finish])
         (timeline1 ++ units (pid p) start finish).

Definition fcfs_scheduler (proc_list : list Process) : Schedule :=
  match proc_list with
  | [] => ([], [], [])
  | _ =>
      let procs := sorted arrival proc_list in
      let st := foldl fcfs_step (mkFcfs 0 [] [] []) procs in
      (f_gantt st, f_results st, f_timeline st)
  end.

Definition example_procs : list Process :=
  [mkProcess "P1" 0 5 0; mkProcess "P2" 1 3 0;
   mkProcess "P3" 2 8 0; mkProcess "P4" 3 6 0].

(** Two processes entered under the same pid. *)
Definition repeated_pid_procs : list Process :=
  [mkProcess "A" 0 2 0; mkProcess "A" 5 1 0].

(** ** SJF, non-preemptive *)

Record SjfState := mkSjf {
  j_time : Z;
  j_gantt : list Segment;
  j_results : list Row;
  j_timeline : list TimelineUnit;
  j_ready : list Process;
  j_remaining : list Process
}.

(** [while remaining and remaining[0].arrival <= time:
       ready.append(remaining.pop(0))] *)
Fixpoint move_arrived (tm : Z) (ready remaining : list Process)
  : list Process * list Process :=
  match remaining with
  | p :: remaining' =>
      if bool_decide (arrival p ≤ tm)
      then move_arrived tm (ready ++ [p]) remaining'
      else (ready, remaining)
  | [] => (ready, remaining)
  end.

(** One iteration of [while remaining or ready]. *)
Definition sjf_body (st : SjfState) : SjfState :=
  let '(ready, remaining) :=
    move_arrived (j_time st) (j_ready st) (j_remaining st) in
  match ready with
  | [] =>
      (* idle until next arrival, then [continue] *)
      match remaining with
      | r0 :: _ =>
          mkSjf (arrival r0) (j_gantt st) (j_results st)
                (j_timeline st ++ units IDLE (j_time st) (arrival r0))
                ready remaining
      | [] =>
          mkSjf (j_time st) (j_gantt st) (j_results st) (j_timeline st)
                ready remaining
      end
  | _ =>
      (* [ready.sort(key=lambda p: p.burst); p = ready.pop(0)] *)
      match sorted burst ready with
      | p :: ready' =>
          let start := j_time st in
          let finish := start + burst p in
          mkSjf finish
                (j_gantt st ++ [mkSegment (pid p) start finish])
                (j_results st ++ [result_row p finish])
                (j_timeline st ++ units (pid p) start finish)
                ready' remaining
      | [] =>
          mkSjf (j_time st) (j_gantt st) (j_results st) (j_timeline st)
                [] remaining
      end
  end.

Fixpoint sjf_loop (fuel : nat) (st : SjfState) : option SjfState :=
  match j_remaining st, j_ready st with
  | [], [] => Some st
  | _, _ =>
      match fuel with
      | O => None
      | S fuel' => sjf_loop fuel' (sjf_body st)
      end
  end.

Definition sjf_init (proc_list : list Process) : SjfState :=
  let procs := sorted (λ p, (arrival p, burst p)) proc_list in
  mkSjf 0 [] [] [] [] procs.

Definition sjf_nonpreemptive_scheduler (fuel : nat) (proc_list : list Process)
  : option Schedule :=
  match proc_list with
  | [] => Some ([], [], [])
  | _ =>
      st ← sjf_loop fuel (sjf_init proc_list);
      Some (j_gantt st, j_results st, j_timeline st)
  end.

(** ** SRTF, preemptive *)

Record SrtfState := mkSrtf {
  s_remaining_burst : gmap string Z;
  s_completed : gmap string Z;
  s_timeline : list TimelineUnit;
  s_time : Z
}.

(** [{p.pid: f(p) for p in procs}]: a later process overwrites an earlier
    one with the same pid. *)
Definition dict_of (f : Process → Z) (procs : list Process) : gmap string Z :=
  foldl (λ m p, <[pid p := f p]> m) ∅ procs.

(** [[p for p in procs if arrival_map[p.pid] <= time and p.pid not in completed]] *)
Definition srtf_available (procs : list Process) (arrival_map : gmap string Z)
    (st : SrtfState) : list Process :=
  filter (λ p, arrival_map !!! pid p ≤ s_time st ∧ s_completed st !! pid p = None)
         procs.

(** One iteration of [while len(completed) < n]. *)
Definition srtf_body (procs : list Process) (arrival_map : gmap string Z)
    (st : SrtfState) : SrtfState :=
  match srtf_available procs arrival_map st with
  | [] =>
      mkSrtf (s_remaining_burst st) (s_completed st)
             (s_timeline st ++ [mkUnit (s_time st) IDLE])
             (s_time st + 1)
  | available =>
      match sorted (λ p, s_remaining_burst st !!! pid p) available with
      | cur :: _ =>
          let remaining_burst :=
            <[pid cur := s_remaining_burst st !!! pid cur - 1]>
              (s_remaining_burst st) in
          let tm := s_time st + 1 in
          mkSrtf remaining_burst
                 (if bool_decide (remaining_burst !!! pid cur = 0)
                  then <[pid cur := tm]> (s_completed st)
                  else s_completed st)
                 (s_timeline st ++ [mkUnit (s_time st) (pid cur)])
                 tm
      | [] => st
      end
  end.

Fixpoint srtf_loop (fuel : nat) (procs : list Process) (n : nat)
    (arrival_map : gmap string Z) (st : SrtfState) : option SrtfState :=
  if bool_decide (size (s_completed st) < n)%nat then
    match fuel with
    | O => None
    | S fuel' => srtf_loop fuel' procs n arrival_map (srtf_body procs arrival_map st)
    end
  else Some st.

(** Merging of contiguous same-pid timeline entries into Gantt segments
    (the block after the main loop of [srtf_scheduler]). *)
Record MergeState := mkMerge {
  m_cur_pid : string;
  m_seg_start : Z;
  m_segments : list Segment
}.

(** [gantt_segments.append(..)] guarded by [if cur_pid != "IDLE"]. *)
Definition append_cpu_segment (st : MergeState) (seg_end : Z) : list Segment :=
  if bool_decide (m_cur_pid st ≠ IDLE)
  then m_segments st ++ [mkSegment (m_cur_pid st) (m_seg_start st) seg_end]
  else m_segments st.

(** Body of [for entry in timeline[1:]]. *)
Definition merge_step (st : MergeState) (entry : TimelineUnit) : MergeState :=
  if bool_decide (running entry ≠ m_cur_pid st)
  then mkMerge (running entry) (time entry) (append_cpu_segment st (time entry))
  else st.

Definition gantt_segments_of (timeline : list TimelineUnit) : list Segment :=
  match timeline with
  | [] => []
  | e0 :: rest =>
      let st := foldl merge_step (mkMerge (running e0) (time e0) []) rest in
      let seg_end := time (default e0 (last timeline)) + 1 in
      append_cpu_segment st seg_end
  end.

Definition srtf_init (procs : list Process) : SrtfState :=
  mkSrtf (dict_of burst procs) ∅ [] 0.

Definition srtf_scheduler (fuel : nat) (proc_list : list Process)
  : option Schedule :=
  match proc_list with
  | [] => Some ([], [], [])
  | _ =>
      let procs := sorted arrival proc_list in
      let n := length procs in
      let arrival_map := dict_of arrival procs in
      st ← srtf_loop fuel procs n arrival_map (srtf_init procs);
      let results :=
        (λ p, result_row p (s_completed st !!! pid p)) <$> procs in
      Some (gantt_segments_of (s_timeline st), results, s_timeline st)
  end.

(** ** Metrics *)

#[global, refine] Instance string_KeyOrder : KeyOrder string :=
  {| kle := String.leb |}.
Proof.
  - apply String.leb_total.
  - intros k1 k2 k3 H1 H2. apply Is_true_true.
    apply Is_true_true in H1, H2.
    exact (PreOrder_Transitive (R:=String.le) k1 k2 k3 H1 H2).
  - apply String.leb_antisym.
Defined.

(** *** float64

    A finite float64 is held as the rational number it denotes.
    [round64 q] is the number of the form [m * 2^e] with
    [2^52 <= |m| <= 2^53] nearest to [q], ties going to the even [m]:
    the result IEEE 754 prescribes for the conversion of an integer and
    for a division.  The exponent range is not modelled, so overflow to
    infinity and subnormal numbers are left out. *)
Definition pow2 (e : Z) : Q := Qpower 2 e.

(** Rounding to the nearest integer, ties to even. *)
Definition round_half_even (x : Q) : Z :=
  let f := Qfloor x in
  match Qcompare (x - inject_Z f)%Q (1 # 2)%Q with
  | Lt => f
  | Gt => f + 1
  | Eq => if Z.even f then f else f + 1
  end.

(** The exponent [e] with [2^(e+52) <= x < 2^(e+53)], for [0 < x]. *)
Definition binade (x : Q) : Z :=
  let L0 := Z.log2 (Qnum x) - Z.log2 (Zpos (Qden x)) in
  (if Qle_bool (pow2 L0) x then L0 else L0 - 1) - 52.

Definition round64 (q : Q) : Q :=
  let a := Qabs q in
  let e := binade a in
  Qred (inject_Z (Z.sgn (Qnum q) * round_half_even (a / pow2 e)%Q) * pow2 e)%Q.

(** The numbers with a significand of at most 53 bits. *)
Definition representable64 (y : Q) : Prop :=
  ∃ m e : Z, Z.abs m ≤ 2 ^ 53 ∧ Qeq y (inject_Z m * pow2 e).

(** [Series.mean()] of an integer column: pandas' [nanmean] returns
    [values.sum(dtype=float64) / count], both operands and the quotient
    being float64.  While the absolute values of the column add up to at
    most [2^53] every partial sum is an integer that a float64 holds, so
    the sum is the exact one whatever the order of the additions; the
    model takes the float64 of the exact sum throughout.  [None] stands
    for the NaN that pandas gives for a column without entries. *)
Definition series_mean (col : list Z) : option Q :=
  match col with
  | [] => None
  | _ => Some (round64 (round64 (inject_Z (foldr Z.add 0 col))
                        / round64 (inject_Z (Z.of_nat (length col)))))
  end.

(** The table is a list of rows, so the columns ['TAT'] and ['WT'] always
    exist and the [except] branches are not reachable.
    [sort_values('pid')] is taken to keep rows of equal pid in order,
    which pandas' default sort does not promise. *)
Definition results_table_with_metrics (df_results : list Row)
  : list Row * option Q * option Q :=
  match df_results with
  | [] => (df_results, Some 0%Q, Some 0%Q)
  | _ =>
      let avg_tat := series_mean (TAT <$> df_results) in
      let avg_wt := series_mean (WT <$> df_results) in
      let df_sorted := sorted r_pid df_results in
      (df_sorted, avg_tat, avg_wt)
  end.

(** ** Input validation

    A [DataFrame] is a list of column names and one record per row; a
    missing entry of a record is the NaN pandas puts there.  Cells hold
    integers, finite floats (as exact rationals), infinite floats, text,
    or NaN. *)

Inductive Cell :=
  | CInt (z : Z)
  | CFloat (q : Q)
  | CInf (negative : bool)
  | CStr (s : string)
  | CNaN.

Record DataFrame := mkDataFrame {
  columns : list string;
  rows : list (gmap string Cell)
}.

(** The dtypes a column of such cells can have. *)
Inductive DType := Int64 | Float64 | Object.

Global Instance DType_eq_dec : EqDecision DType.
Proof. solve_decision. Defined.

(** The rule a rejected row violates. [NotAnInteger c] is the [ValueError]
    of [int(c)]. *)
Inductive Rule :=
  | NegativeArrival
  | NonPositiveBurst
  | NotAnInteger (c : Cell).

(** The exceptions leaving [parse_df_to_processes]: the two [ValueError]s
    it raises itself and the [OverflowError] of [int(inf)], which its
    [except (ValueError, TypeError)] does not catch. *)
Inductive ParseError :=
  | MissingColumns (cols : list string)
  | InvalidData (who : string) (why : Rule)
  | Overflow.

Inductive IntResult :=
  | IntOk (z : Z)
  | IntValueError
  | IntOverflowError.

(** [df.empty]: no rows or no columns. *)
Definition df_empty (df : DataFrame) : bool :=
  match columns df, rows df with
  | [], _ | _, [] => true
  | _, _ => false
  end.

Definition is_text (c : Cell) : bool :=
  match c with CStr _ => true | _ => false end.

Definition is_integer (c : Cell) : bool :=
  match c with CInt _ => true | _ => false end.

(** The dtype pandas gives a column built from these cells: [object] when
    a cell holds text, [int64] when every cell holds an integer, and
    [float64] otherwise (some cell is a float or is missing). *)
Definition column_dtype (df : DataFrame) (col : string) : DType :=
  let cells := (λ r, default CNaN (r !! col)) <$> rows df in
  if existsb is_text cells then Object
  else if forallb is_integer cells then Int64
  else Float64.

(** A number as a float64 array holds it: an integer is converted. *)
Definition as_float (c : Cell) : Cell :=
  match c with
  | CInt z => CFloat (round64 (inject_Z z))
  | _ => c
  end.

(** [fillna(0)] on one cell of a column of dtype [dt]: a missing value
    becomes 0.0 in a float64 column and the integer 0 in an object
    column; an int64 column has no missing value. *)
Definition fillna0 (dt : DType) (c : Cell) : Cell :=
  match c with
  | CNaN => match dt with Float64 => CFloat 0 | _ => CInt 0 end
  | _ => c
  end.

(** The entry of row [r] under [col] with a blank read as the integer 0
    and nothing converted: the entry as an object column holds it. *)
Definition cell (r : gmap string Cell) (col : string) : Cell :=
  fillna0 Object (default CNaN (r !! col)).

(** The entry of row [r] under [col] is missing. *)
Definition missing (r : gmap string Cell) (col : string) : Prop :=
  r !! col = None ∨ r !! col = Some CNaN.

(** The value of [df2 = df.copy().fillna(0)] at row [r], column [col]. *)
Definition frame_value (df : DataFrame) (r : gmap string Cell) (col : string)
  : Cell :=
  match column_dtype df col with
  | Float64 => fillna0 Float64 (as_float (default CNaN (r !! col)))
  | dt => fillna0 dt (default CNaN (r !! col))
  end.

(** The columns of [df2[['pid','arrival','burst','priority']]], or of
    [df2[['pid','arrival','burst']]] without a priority column. *)
Definition selected_columns (df : DataFrame) : list string :=
  if bool_decide ("priority" ∈ columns df)
  then ["pid"; "arrival"; "burst"; "priority"]
  else ["pid"; "arrival"; "burst"].

(** The dtype of a selected column; an inserted ['pid'] column holds the
    strings [P1], [P2], .. *)
Definition selected_dtype (df : DataFrame) (col : string) : DType :=
  if bool_decide (col = "pid" ∧ "pid" ∉ columns df) then Object
  else column_dtype df col.

(** The dtype of the rows [iterrows()] yields: each row is a Series of
    the frame's common dtype, [object] when a column is, else [float64]
    when a column is, else [int64]. *)
Definition row_dtype (df : DataFrame) : DType :=
  let dts := selected_dtype df <$> selected_columns df in
  if bool_decide (Object ∈ dts) then Object
  else if bool_decide (Float64 ∈ dts) then Float64
  else Int64.

(** [r[col]] for a row [r] of [df2.iterrows()]: in a float64 row the
    integers of int64 columns have become floats. *)
Definition row_value (df : DataFrame) (r : gmap string Cell) (col : string)
  : Cell :=
  match row_dtype df with
  | Float64 => as_float (frame_value df r col)
  | _ => frame_value df r col
  end.

(** [int(float)] truncates toward zero. *)
Definition trunc (q : Q) : Z := Z.quot (Qnum q) (Zpos (Qden q)).

Section python_builtins.
(** [int(s)] on text ([None]: [ValueError]) and [str(x)] on a finite
    float belong to the Python runtime and are taken as given. *)
Variable int_of_text : string → option Z.
Variable str_of_float : Q → string.

Definition py_int (c : Cell) : IntResult :=
  match c with
  | CInt z => IntOk z
  | CFloat q => IntOk (trunc q)
  | CInf _ => IntOverflowError
  | CStr s => match int_of_text s with Some z => IntOk z | None => IntValueError end
  | CNaN => IntValueError
  end.

Definition py_str (c : Cell) : string :=
  match c with
  | CInt z => pretty z
  | CFloat q => str_of_float q
  | CInf negative => if negative then "-inf" else "inf"
  | CStr s => s
  | CNaN => "nan"
  end.

(** [int(r[col])] inside the [try] of the row loop. *)
Definition int_field (who : string) (df : DataFrame) (r : gmap string Cell)
    (col : string) : ParseError + Z :=
  match py_int (row_value df r col) with
  | IntOk z => inr z
  | IntValueError => inl (InvalidData who (NotAnInteger (row_value df r col)))
  | IntOverflowError => inl Overflow
  end.

(** [str(r['pid'])], which is also how [r.get('pid', 'unknown')] prints
    in the error message; without a pid column the row holds the
    inserted [P{i+1}]. *)
Definition row_pid (df : DataFrame) (i : nat) (r : gmap string Cell) : string :=
  if bool_decide ("pid" ∈ columns df) then py_str (row_value df r "pid")
  else "P" +:+ pretty (S i).

(** Body of [for _, r in df2.iterrows()] for the row [r] at position [i]
    of the frame [df]. *)
Definition parse_row (df : DataFrame) (i : nat) (r : gmap string Cell)
  : ParseError + Process :=
  let who := row_pid df i r in
  match int_field who df r "arrival" with
  | inl e => inl e
  | inr arrival =>
      match int_field who df r "burst" with
      | inl e => inl e
      | inr burst =>
          match (if bool_decide ("priority" ∈ columns df)
                 then int_field who df r "priority" else inr 0) with
          | inl e => inl e
          | inr priority =>
              if bool_decide (arrival < 0)
              then inl (InvalidData who NegativeArrival)
              else if bool_decide (burst ≤ 0)
              then inl (InvalidData who NonPositiveBurst)
              else inr (mkProcess who arrival burst priority)
          end
      end
  end.

(** The row loop over the rows [rs] of [df] from position [i] on. *)
Fixpoint parse_rows (df : DataFrame) (i : nat)
    (rs : list (gmap string Cell)) (procs : list Process)
  : ParseError + list Process :=
  match rs with
  | [] => inr procs
  | r :: rs' =>
      match parse_row df i r with
      | inl e => inl e
      | inr p => parse_rows df (S i) rs' (procs ++ [p])
      end
  end.

Definition required_cols : list string := ["arrival"; "burst"].

Definition parse_df_to_processes (df : DataFrame) : ParseError + list Process :=
  if df_empty df then inr []
  else
    let missing_cols := filter (λ col, col ∉ columns df) required_cols in
    match missing_cols with
    | _ :: _ => inl (MissingColumns missing_cols)
    | [] => parse_rows df 0 (rows df) []
    end.
End python_builtins.

Definition row_of (cells : list (string * Cell)) : gmap string Cell :=
  list_to_map cells.

(** ** Charts

    Of a plotly figure only what the code computes is kept: the title and,
    per trace, the arguments given to [go.Bar]. *)

Record Bar := mkBar {
  bar_name : string;
  bar_x : Z;            (* [x=[duration]] *)
  bar_y : string;       (* [y=[pid]] *)
  bar_base : Z;
  bar_marker_color : string;
  bar_hovertemplate : string
}.

Record Figure := mkFigure {
  fig_title : string;
  fig_traces : list Bar
}.

Definition colors : list string :=
  ["#1f77b4"; "#ff7f0e"; "#2ca02c"; "#d62728"; "#9467bd";
   "#8c564b"; "#e377c2"; "#7f7f7f"; "#bcbd22"; "#17becf"].

(** The [go.Bar] of the [i]-th Gantt item; [None] is the [IndexError] of
    [colors[i % len(colors)]]. *)
Definition gantt_bar (i : nat) (gantt_item : Segment) : option Bar :=
  let duration := g_finish gantt_item - g_start gantt_item in
  color ← colors !! (i mod length colors)%nat;
  Some (mkBar (g_pid gantt_item) duration (g_pid gantt_item)
              (g_start gantt_item) color
              ("<b>" +:+ g_pid gantt_item +:+ "</b><br>" +:+
               "Start: " +:+ pretty (g_start gantt_item) +:+ "<br>" +:+
               "Finish: " +:+ pretty (g_finish gantt_item) +:+ "<br>" +:+
               "Duration: " +:+ pretty duration +:+ "<br>" +:+
               "<extra></extra>")).

(** [for i, gantt_item in enumerate(gantt_list): fig.add_trace(..)] *)
Fixpoint add_traces (i : nat) (gantt_list : list Segment) (traces : list Bar)
  : option (list Bar) :=
  match gantt_list with
  | [] => Some traces
  | gantt_item :: rest =>
      bar ← gantt_bar i gantt_item;
      add_traces (S i) rest (traces ++ [bar])
  end.

(** An exception inside the [try] gives the empty figure titled
    ["<title> (Error)"]. *)
Definition make_gantt_figure (gantt_list : list Segment) (title : string)
  : Figure :=
  match gantt_list with
  | [] => mkFigure title []
  | _ =>
      match add_traces 0 gantt_list [] with
      | Some traces => mkFigure title traces
      | None => mkFigure (title +:+ " (Error)") []
      end
  end.

Global Instance Q_eq_dec : EqDecision Q.
Proof. solve_decision. Defined.

(** A row of the frame [df_sorted] that [make_animation_figure] hands to
    [px.bar]; the value is one of the literals 0.8 and 0.2, kept as
    written (no arithmetic is done on it). *)
Record AnimRow := mkAnimRow {
  a_time : Z;
  a_running : string;
  a_proc_label : string;
  a_value : Q
}.

Definition anim_row (u : TimelineUnit) : AnimRow :=
  mkAnimRow (time u) (running u) (running u)
            (if bool_decide (running u ≠ IDLE) then 0.8%Q else 0.2%Q).

(** [df.sort_values('time')] with the two added columns.  The sort is
    taken to keep entries of equal time in order, which pandas' default
    sort does not promise; the timelines the schedulers return hold each
    time once, and there the order is determined. *)
Definition animation_frame_rows (timeline : list TimelineUnit) : list AnimRow :=
  anim_row <$> sorted time timeline.

(** ** The page

    The script below the function definitions: parse the input table, stop
    on an error or on an empty list, else run the three schedulers and
    build for each its figure, table and averages. *)

Record AlgoSection := mkSection {
  sec_gantt : Figure;
  sec_animation : list AnimRow;
  sec_table : list Row;
  sec_avg_tat : option Q;        (* comparison chart *)
  sec_avg_wt : option Q;
  sec_shown_avg_tat : option Q;  (* [results_df['TAT'].mean()] in the section *)
  sec_shown_avg_wt : option Q
}.

Definition algorithm_section (gantt_title : string) (res : Schedule)
  : AlgoSection :=
  let '(table, avg_tat, avg_wt) := results_table_with_metrics (sched_rows res) in
  mkSection (make_gantt_figure (sched_gantt res) gantt_title)
            (animation_frame_rows (sched_timeline res))
            table avg_tat avg_wt
            (series_mean (TAT <$> table)) (series_mean (WT <$> table)).

Inductive PageOutcome :=
  | ParseFailed (e : ParseError)   (* "Error parsing processes: .." *)
  | NoProcesses                    (* "No processes provided." *)
  | Page (fcfs sjf srtf : AlgoSection).

Definition run_page (int_of_text : string → option Z)
    (str_of_float : Q → string) (fuel : nat) (df_input : DataFrame)
  : option PageOutcome :=
  match parse_df_to_processes int_of_text str_of_float df_input with
  | inl e => Some (ParseFailed e)
  | inr [] => Some NoProcesses
  | inr procs =>
      let fcfs := fcfs_scheduler procs in
      sjf ← sjf_nonpreemptive_scheduler fuel procs;
      srtf ← srtf_scheduler fuel procs;
      Some (Page (algorithm_section "FCFS - Gantt Chart" fcfs)
                 (algorithm_section "SJF (Non-preemptive) - Gantt Chart" sjf)
                 (algorithm_section "SRTF (Preemptive) - Gantt Chart" srtf))
  end.

(** The identity of a process in a result row, and of a process. *)
Definition row_ident (r : Row) : string * Z * Z := (r_pid r, AT r, BT r).
Definition proc_ident (p : Process) : string * Z * Z :=
  (pid p, arrival p, burst p).

(** Segments in order, none starting before the one before it ends. *)
Definition segments_disjoint (gantt : list Segment) : Prop :=
  StronglySorted (λ a b, g_finish a ≤ g_start b) gantt.

(** Every unit of a segment is in the timeline, held by the segment's pid. *)
Definition segment_in_timeline (tl : list TimelineUnit) (g : Segment) : Prop :=
  ∀ t, g_start g ≤ t < g_finish g →
       tl !! Z.to_nat t = Some (mkUnit t (g_pid g)).

(** The Gantt chart and the timeline show the same schedule: the segments
    are in order and do not overlap, each has a positive length and lies
    within the timeline, which gives its pid to each of its units, and
    every unit that is not idle is inside a segment of its occupant. *)
Definition chart_agrees (gantt : list Segment) (tl : list TimelineUnit) : Prop :=
  segments_disjoint gantt ∧
  Forall (λ g, 0 ≤ g_start g < g_finish g ∧
               g_finish g ≤ Z.of_nat (length tl) ∧
               segment_in_timeline tl g) gantt ∧
  ∀ (i : nat) u, tl !! i = Some u → running u ≠ IDLE →
    ∃ g, g ∈ gantt ∧ g_pid g = running u ∧ g_start g ≤ Z.of_nat i < g_finish g.

(** ** Reference definitions written from the specification

    These follow the wording of the specification, not the code; the
    theorems below compare them with the code. *)

(** "arrived ([arrivalTime ≤ time])" *)
Definition arrived (tm : Z) (p : Process) : bool := bool_decide (arrival p ≤ tm).

(** FCFS: the processes taken in the given order, each with its start
    time, "starting at max(current time, its arrival)". *)
Fixpoint run_in_order (tm : Z) (procs : list Process) : list (Process * Z) :=
  match procs with
  | [] => []
  | p :: ps =>
      let start := Z.max tm (arrival p) in
      (p, start) :: run_in_order (start + burst p) ps
  end.

(** The units of that run: the idle gap before each process, if any, then
    its whole burst. *)
Fixpoint units_in_order (tm : Z) (procs : list Process) : list TimelineUnit :=
  match procs with
  | [] => []
  | p :: ps =>
      let start := Z.max tm (arrival p) in
      units IDLE tm start ++ units (pid p) start (start + burst p)
        ++ units_in_order (start + burst p) ps
  end.

Definition segment_at (ps : Process * Z) : Segment :=
  mkSegment (pid ps.1) ps.2 (ps.2 + burst ps.1).

Definition row_at (ps : Process * Z) : Row :=
  result_row ps.1 (ps.2 + burst ps.1).

(** The timeline is exactly the units [0 .. T-1], one entry each. *)
Definition timeline_upto (T : Z) (tl : list TimelineUnit) : Prop :=
  Z.of_nat (length tl) = T ∧
  ∀ (i : nat) u, tl !! i = Some u → time u = Z.of_nat i.

(** The largest completion time of a result table. *)
Definition last_completion (rs : list Row) : Z := foldr Z.max 0 (CT <$> rs).

(** SJF: "minimum [burstTime], breaking ties by earliest arrival"; further
    ties go to the earlier process of the list, which is what [select]
    does. *)
Definition sjf_key (p : Process) : Z * Z := (burst p, arrival p).

(** The earliest arrival among the processes still pending. *)
Definition next_arrival (pending : list Process) : Z :=
  match pending with
  | [] => 0
  | p :: ps => foldr (λ q m, Z.min (arrival q) m) (arrival p) ps
  end.

Record SjfSpecState := mkSjfSpec {
  sp_time : Z;
  sp_gantt : list Segment;
  sp_results : list Row;
  sp_timeline : list TimelineUnit;
  sp_pending : list Process  (* not yet run, in input order *)
}.

(** One decision point: run the selected ready process to completion, or
    idle up to the next arrival when nothing is ready. *)
Definition sjf_spec_step (st : SjfSpecState) : SjfSpecState :=
  match select sjf_key (arrived (sp_time st)) (sp_pending st) with
  | Some (p, rest) =>
      let finish := sp_time st + burst p in
      mkSjfSpec finish
                (sp_gantt st ++ [mkSegment (pid p) (sp_time st) finish])
                (sp_results st ++ [result_row p finish])
                (sp_timeline st ++ units (pid p) (sp_time st) finish)
                rest
  | None =>
      let nxt := next_arrival (sp_pending st) in
      mkSjfSpec nxt (sp_gantt st) (sp_results st)
                (sp_timeline st ++ units IDLE (sp_time st) nxt)
                (sp_pending st)
  end.

Fixpoint sjf_spec_loop (fuel : nat) (st : SjfSpecState) : option SjfSpecState :=
  match sp_pending st with
  | [] => Some st
  | _ =>
      match fuel with
      | O => None
      | S fuel' => sjf_spec_loop fuel' (sjf_spec_step st)
      end
  end.

Definition sjf_spec (fuel : nat) (proc_list : list Process) : option Schedule :=
  match proc_list with
  | [] => Some ([], [], [])
  | _ =>
      st ← sjf_spec_loop fuel (mkSjfSpec 0 [] [] [] proc_list);
      Some (sp_gantt st, sp_results st, sp_timeline st)
  end.

(** SRTF: the number of units [who] occupies in a timeline, and the
    remaining burst of a process after a timeline prefix. *)
Definition executed (who : string) (tl : list TimelineUnit) : Z :=
  Z.of_nat (length (filter (λ u, running u = who) tl)).

Definition remaining_after (past : list TimelineUnit) (p : Process) : Z :=
  burst p - executed (pid p) past.

(** "arrived and not yet fully served" at the unit following [past]. *)
Definition srtf_eligible (past : list TimelineUnit) (p : Process) : bool :=
  bool_decide (arrival p ≤ Z.of_nat (length past) ∧ 0 < remaining_after past p).

(** "minimum [remainingBurst]; ties broken by earliest arrival, then by
    original input order". *)
Definition srtf_key (past : list TimelineUnit) (p : Process) : Z * Z :=
  (remaining_after past p, arrival p).

Definition srtf_choice (proc_list : list Process) (past : list TimelineUnit)
  : option Process :=
  fst <$> select (srtf_key past) (srtf_eligible past) proc_list.

(** The occupant the specification prescribes for the unit after [past]. *)
Definition srtf_occupant (proc_list : list Process) (past : list TimelineUnit)
  : string :=
  match srtf_choice proc_list past with
  | Some p => pid p
  | None => IDLE
  end.

(** One SRTF time unit as the specification words it, on the state of the
    loop: among the processes of the input list that have arrived and
    still have remaining burst, take the least remaining burst, ties by
    earliest arrival, then by input order; run it for one unit and record
    its completion when nothing remains; idle when there is none. *)
Definition srtf_pick (proc_list : list Process) (st : SrtfState)
  : option Process :=
  fst <$> select (λ p, (s_remaining_burst st !!! pid p, arrival p))
                 (λ p, bool_decide (arrival p ≤ s_time st ∧
                                    0 < s_remaining_burst st !!! pid p))
                 proc_list.

Definition srtf_spec_step (proc_list : list Process) (st : SrtfState)
  : SrtfState :=
  match srtf_pick proc_list st with
  | None =>
      mkSrtf (s_remaining_burst st) (s_completed st)
             (s_timeline st ++ [mkUnit (s_time st) IDLE]) (s_time st + 1)
  | Some cur =>
      let r := s_remaining_burst st !!! pid cur - 1 in
      mkSrtf (<[pid cur := r]> (s_remaining_burst st))
             (if bool_decide (r = 0)
              then <[pid cur := s_time st + 1]> (s_completed st)
              else s_completed st)
             (s_timeline st ++ [mkUnit (s_time st) (pid cur)])
             (s_time st + 1)
  end.

(** The states the loop of [srtf_scheduler] goes through. *)
Inductive srtf_reachable (proc_list : list Process) : SrtfState → Prop :=
  | srtf_reach_init :
      srtf_reachable proc_list (srtf_init (sorted arrival proc_list))
  | srtf_reach_step st :
      srtf_reachable proc_list st →
      (size (s_completed st) < length (sorted arrival proc_list))%nat →
      srtf_reachable proc_list
        (srtf_body (sorted arrival proc_list)
                   (dict_of arrival (sorted arrival proc_list)) st).

(** "the arithmetic mean" of a column, and what it is for a float64 to be
    nearest to a number. *)
Definition exact_mean (col : list Z) : Q :=
  inject_Z (foldr Z.add 0 col) / inject_Z (Z.of_nat (length col)).

Definition nearest64 (a x : Q) : Prop :=
  representable64 a ∧
  ∀ y, representable64 y → (Qabs (a - x) <= Qabs (y - x))%Q.

(** Sums over the process list. *)
Definition total_burst (l : list Process) : Z :=
  foldr (λ p acc, burst p + acc) 0 l.

Definition total_remaining (rb : gmap string Z) (l : list Process) : Z :=
  foldr (λ p acc, rb !!! pid p + acc) 0 l.

Definition max_arrival (l : list Process) : Z :=
  foldr (λ p acc, Z.max (arrival p) acc) 0 l.

(** The number of timeline units whose occupant is not the idle sentinel. *)
Definition busy_units (tl : list TimelineUnit) : Z :=
  Z.of_nat (length (filter (λ u, running u ≠ IDLE) tl)).

(** Segment merging: the timeline cut into maximal runs of one occupant. *)
Fixpoint group_runs (tl : list TimelineUnit) : list (list TimelineUnit) :=
  match tl with
  | [] => []
  | u :: tl' =>
      match group_runs tl' with
      | (v :: g) :: gs =>
          if decide (running u = running v) then (u :: v :: g) :: gs
          else [u] :: (v :: g) :: gs
      | _ => [[u]]
      end
  end.

(** The segment of a run: from its first unit to just after its last. *)
Definition segment_of_run (g : list TimelineUnit) : option Segment :=
  match g with
  | [] => None
  | u :: _ =>
      if decide (running u = IDLE) then None
      else Some (mkSegment (running u) (time u) (time (default u (last g)) + 1))
  end.

Definition segments_spec (tl : list TimelineUnit) : list Segment :=
  omap segment_of_run (group_runs tl).

(** Times are consecutive integers starting at [t0]. *)
Definition contiguous_from (t0 : Z) (tl : list TimelineUnit) : Prop :=
  ∀ (i : nat) u, tl !! i = Some u → time u = t0 + Z.of_nat i.

(** A valid process list: arrivals are non-negative, bursts positive. *)
Definition valid_procs (l : list Process) : Prop :=
  Forall (λ p, 0 ≤ arrival p ∧ 0 < burst p) l.

(** The invariants of a result row. *)
Definition row_ok (r : Row) : Prop :=
  0 ≤ WT r ∧ BT r ≤ TAT r ∧ CT r = AT r + TAT r ∧ WT r = TAT r - BT r.

(** The completion time of each process in a result table. *)
Definition completions (rs : list Row) : list (string * Z) :=
  (λ r, (r_pid r, CT r)) <$> rs.

(** The merging loop read from the left: the segments still to come when
    the current run is [cur_pid] from [seg_start], the timeline ends at
    [seg_end] and [rest] is left to read. *)
Fixpoint merge_rec (cur_pid : string) (seg_start seg_end : Z)
    (rest : list TimelineUnit) : list Segment :=
  match rest with
  | [] => append_cpu_segment (mkMerge cur_pid seg_start []) seg_end
  | entry :: rest' =>
      if bool_decide (running entry ≠ cur_pid)
      then append_cpu_segment (mkMerge cur_pid seg_start []) (time entry)
             ++ merge_rec (running entry) (time entry) seg_end rest'
      else merge_rec cur_pid seg_start seg_end rest'
  end.

(** ** Work conservation *)

(** The work that has arrived by time [t]: the bursts of the processes
    with [arrival ≤ t]. *)
Definition arrived_work (l : list Process) (t : Z) : Z :=
  total_burst (filter (λ p, arrival p ≤ t) l).

(** The CPU runs whenever arrived work is left, and only then: the busy
    units before unit [i] never exceed the work arrived by [i], and the
    unit is idle exactly when they equal it. *)
Definition work_conserving (l : list Process) (tl : list TimelineUnit) : Prop :=
  ∀ (i : nat) u, tl !! i = Some u →
    busy_units (take i tl) ≤ arrived_work l (Z.of_nat i) ∧
    (running u = IDLE ↔ busy_units (take i tl) = arrived_work l (Z.of_nat i)).

(** The last unit of a timeline, if any, is not idle. *)
Definition last_busy (tl : list TimelineUnit) : Prop :=
  ∀ u, last tl = Some u → running u ≠ IDLE.

(** A scheduler that runs whole bursts, between two decisions: [done] have
    run, [pending] have not. *)
Definition batch_inv (l done pending : list Process) (tl : list TimelineUnit)
  : Prop :=
  l ≡ₚ done ++ pending ∧
  Forall (λ p, arrival p ≤ Z.of_nat (length tl)) done ∧
  busy_units tl = total_burst done ∧
  work_conserving l tl ∧
  (pending = [] → last_busy tl).

(** Every process of [l] occupies exactly its burst in the timeline and
    no unit before its arrival; nothing else occupies the CPU. *)
Definition serves_exactly (l : list Process) (tl : list TimelineUnit) : Prop :=
  (∀ p, p ∈ l → executed (pid p) tl = burst p) ∧
  (∀ (i : nat) u, tl !! i = Some u →
     running u = IDLE ∨
     ∃ p, p ∈ l ∧ running u = pid p ∧ arrival p ≤ Z.of_nat i).

(** ** Relations used in the proofs *)

(** The code state of SJF against the reference state: same outputs, and
    [ready] and [remaining] are the pending processes arrived by the time
    [t0] of the last move, sorted as by the code. *)
Definition sjf_rel (st : SjfState) (sp : SjfSpecState) : Prop :=
  j_time st = sp_time sp ∧ j_gantt st = sp_gantt sp ∧
  j_results st = sp_results sp ∧ j_timeline st = sp_timeline sp ∧
  Forall (λ p, 0 ≤ burst p) (sp_pending sp) ∧
  ∃ t0, t0 ≤ j_time st ∧
    j_ready st =
      sorted sjf_key (filter (λ p, arrived t0 p = true) (sp_pending sp)) ∧
    j_remaining st =
      sorted (λ p, (arrival p, burst p))
             (filter (λ p, arrived t0 p ≠ true) (sp_pending sp)).

(** The SJF state with every queued process replaced by its image. *)
Definition sjf_relabel (g : Process → Process) (st : SjfState) : SjfState :=
  mkSjf (j_time st) (j_gantt st) (j_results st) (j_timeline st)
        (g <$> j_ready st) (g <$> j_remaining st).

(** What holds of every state of the SRTF loop, for a list of distinct
    pids. *)
Record srtf_inv (l : list Process) (st : SrtfState) : Prop := {
  inv_time : timeline_upto (s_time st) (s_timeline st);
  inv_rb : ∀ p, p ∈ l →
    ∃ r, s_remaining_burst st !! pid p = Some r ∧ 0 ≤ r ≤ burst p ∧
         (s_completed st !! pid p = None ↔ 0 < r) ∧
         burst p - r ≤ Z.max 0 (s_time st - arrival p);
  inv_rb_dom : ∀ k r, s_remaining_burst st !! k = Some r → ∃ p, p ∈ l ∧ pid p = k;
  inv_dom : ∀ k ct, s_completed st !! k = Some ct → ∃ p, p ∈ l ∧ pid p = k;
  inv_ct : ∀ p ct, p ∈ l → s_completed st !! pid p = Some ct →
    0 < ct ≤ s_time st ∧ arrival p + burst p ≤ ct ∧
    s_timeline st !! Z.to_nat (ct - 1) = Some (mkUnit (ct - 1) (pid p));
  inv_bound :
    s_time st + total_remaining (s_remaining_burst st) l
      ≤ max_arrival l + total_burst l;
  inv_last : (length l ≤ size (s_completed st))%nat → l ≠ [] →
    ∃ p, p ∈ l ∧ s_completed st !! pid p = Some (s_time st);
  inv_busy : (∀ p, p ∈ l → pid p ≠ IDLE) →
    busy_units (s_timeline st)
      = total_burst l - total_remaining (s_remaining_burst st) l ∧
    (∀ p, p ∈ l →
       s_remaining_burst st !!! pid p = remaining_after (s_timeline st) p) ∧
    (∀ (i : nat) u, s_timeline st !! i = Some u →
       running u = srtf_occupant l (take i (s_timeline st))) ∧
    (∀ p ct (j : nat) u, p ∈ l → s_completed st !! pid p = Some ct →
       s_timeline st !! j = Some u → running u = pid p → Z.of_nat j < ct)
}.

(** What holds of every state of the SJF reference loop on [n] processes. *)
Definition sjf_spec_inv (n : nat) (sp : SjfSpecState) : Prop :=
  timeline_upto (sp_time sp) (sp_timeline sp) ∧
  last_completion (sp_results sp) ≤ sp_time sp ∧
  (sp_pending sp = [] → last_completion (sp_results sp) = sp_time sp) ∧
  Forall row_ok (sp_results sp) ∧
  Forall (λ p, 0 ≤ burst p) (sp_pending sp) ∧
  (length (sp_results sp) + length (sp_pending sp))%nat = n.

(** Iterations the reference loop still needs. *)
Definition sjf_measure (sp : SjfSpecState) : nat :=
  2 * length (sp_pending sp) -
  (if select sjf_key (arrived (sp_time sp)) (sp_pending sp) is Some _ then 1 else 0).

(** * Properties *)

(** ** The stable sort *)

Lemma kle_refl {K} `{KeyOrder K} (k : K) : kle k k = true.
Proof. by destruct (kle_total k k). Qed.

Lemma kle_false_flip {K} `{KeyOrder K} (k1 k2 : K) :
  kle k1 k2 = false → kle k2 k1 = true.
Proof. intros E. destruct (kle_total k1 k2); congruence. Qed.

Lemma StronglySorted_filter {A} (R : relation A) (P : A → Prop)
    `{∀ x, Decision (P x)} (l : list A) :
  StronglySorted R l → StronglySorted R (filter P l).
Proof.
  induction 1 as [|x l Hs IH Hx]; [constructor|].
  rewrite filter_cons. destruct (decide (P x)); [|done].
  constructor; [done|].
  apply Forall_forall. intros y [_ Hy]%list_elem_of_filter.
  by eapply Forall_forall in Hx.
Qed.

Section stable_sort_facts.
Context {A K : Type} `{KeyOrder K} (key : A → K).
Implicit Types (x y : A) (l s : list A).

Lemma insert_key_perm x l : insert_key key x l ≡ₚ x :: l.
Proof.
  induction l as [|y l IH]; simpl; [done|].
  destruct (kle _ _); [done|]. rewrite IH. apply Permutation_swap.
Qed.

Lemma sorted_perm l : sorted key l ≡ₚ l.
Proof.
  induction l as [|x l IH]; simpl; [done|].
  by rewrite insert_key_perm, IH.
Qed.

Lemma sorted_length l : length (sorted key l) = length l.
Proof. by rewrite sorted_perm. Qed.

Lemma sorted_nil_inv l : sorted key l = [] → l = [].
Proof.
  intros E. apply length_zero_iff_nil.
  by rewrite <- sorted_length, E.
Qed.

Lemma insert_key_sorted x l :
  key_sorted key l → key_sorted key (insert_key key x l).
Proof.
  induction l as [|y l IH]; intros Hs; simpl.
  { repeat constructor. }
  apply StronglySorted_cons in Hs as [Hy Hs].
  destruct (kle (key x) (key y)) eqn:E.
  - constructor; [by constructor|].
    constructor; [done|].
    eapply Forall_impl; [exact Hy|].
    intros z Hz. exact (kle_trans _ _ _ E Hz).
  - constructor; [by apply IH|].
    rewrite insert_key_perm. constructor; [|done].
    by apply kle_false_flip.
Qed.

Lemma sorted_sorted l : key_sorted key (sorted key l).
Proof.
  induction l as [|x l IH]; simpl; [constructor|].
  by apply insert_key_sorted.
Qed.

Lemma insert_key_head x l :
  Forall (key_le key x) l → insert_key key x l = x :: l.
Proof.
  destruct l as [|y l]; simpl; [done|].
  intros [Hy _]%Forall_cons. unfold key_le in Hy. by rewrite Hy.
Qed.

Lemma insert_key_filter (P : A → Prop) `{∀ x, Decision (P x)} x s :
  key_sorted key s →
  filter P (insert_key key x s) =
    if decide (P x) then insert_key key x (filter P s) else filter P s.
Proof.
  induction s as [|y s IH]; intros Hs; simpl.
  { rewrite filter_cons, filter_nil. by destruct (decide (P x)). }
  apply StronglySorted_cons in Hs as [Hy Hs].
  destruct (kle (key x) (key y)) eqn:E.
  - rewrite (filter_cons _ x). destruct (decide (P x)); [|done].
    symmetry. apply insert_key_head.
    apply Forall_forall. intros z [_ Hz]%list_elem_of_filter.
    apply elem_of_cons in Hz as [->|Hz]; [done|].
    eapply Forall_forall in Hy; [|done].
    exact (kle_trans _ _ _ E Hy).
  - rewrite !(filter_cons _ y). destruct (decide (P y)).
    + rewrite IH by done. destruct (decide (P x)); [|done].
      simpl. by rewrite E.
    + by apply IH.
Qed.

(** Filtering commutes with sorting. *)
Lemma sorted_filter (P : A → Prop) `{∀ x, Decision (P x)} l :
  filter P (sorted key l) = sorted key (filter P l).
Proof.
  induction l as [|x l IH]; simpl; [done|].
  rewrite insert_key_filter by apply sorted_sorted.
  rewrite filter_cons. destruct (decide (P x)); simpl; by rewrite IH.
Qed.

(** Stability: elements of one key keep their order. *)
Lemma insert_key_class (P : A → Prop) `{∀ x, Decision (P x)} x l :
  (∀ y z, P y → P z → key y = key z) →
  filter P (insert_key key x l) = filter P (x :: l).
Proof.
  intros HP. induction l as [|y l IH]; simpl; [done|].
  destruct (kle (key x) (key y)) eqn:E; [done|].
  rewrite (filter_cons _ y), IH, !(filter_cons _ x), (filter_cons _ y).
  destruct (decide (P x)), (decide (P y)); try done.
  rewrite (HP x y), kle_refl in E by done. done.
Qed.

Lemma sorted_class (P : A → Prop) `{∀ x, Decision (P x)} l :
  (∀ y z, P y → P z → key y = key z) →
  filter P (sorted key l) = filter P l.
Proof.
  intros HP. induction l as [|x l IH]; simpl; [done|].
  rewrite insert_key_class by done.
  rewrite !filter_cons, IH. done.
Qed.

Context `{EqDecision K}.

Lemma sorted_stable k l :
  filter (λ y, key y = k) (sorted key l) = filter (λ y, key y = k) l.
Proof. apply sorted_class. congruence. Qed.

(** A key-sorted list is determined by its classes of equal key. *)
Lemma key_sorted_unique s1 s2 :
  key_sorted key s1 → key_sorted key s2 →
  (∀ k, filter (λ y, key y = k) s1 = filter (λ y, key y = k) s2) →
  s1 = s2.
Proof.
  revert s2. induction s1 as [|x s1 IH]; intros s2 Hs1 Hs2 Hc.
  { destruct s2 as [|y s2]; [done|].
    specialize (Hc (key y)). by rewrite filter_cons_True in Hc. }
  destruct s2 as [|y s2].
  { specialize (Hc (key x)). by rewrite filter_cons_True in Hc. }
  apply StronglySorted_cons in Hs1 as [Hx Hs1].
  apply StronglySorted_cons in Hs2 as [Hy Hs2].
  assert (x = y) as <-.
  { destruct (decide (key x = key y)) as [E|NE].
    - specialize (Hc (key x)).
      rewrite !filter_cons_True in Hc by done. by injection Hc.
    - exfalso. apply NE. apply kle_antisym.
      + pose proof (Hc (key y)) as Hc'.
        rewrite (filter_cons_True _ y), filter_cons_False in Hc' by done.
        assert (y ∈ filter (λ z, key z = key y) s1) as [_ Hin]%list_elem_of_filter
          by (rewrite Hc'; left).
        by eapply Forall_forall in Hx.
      + pose proof (Hc (key x)) as Hc'.
        rewrite (filter_cons_True _ x), filter_cons_False in Hc' by done.
        assert (x ∈ filter (λ z, key z = key x) s2) as [_ Hin]%list_elem_of_filter
          by (rewrite <- Hc'; left).
        by eapply Forall_forall in Hy. }
  f_equal. apply IH; [done..|].
  intros k. specialize (Hc k). rewrite !filter_cons in Hc.
  destruct (decide (key x = k)); [by injection Hc|done].
Qed.

(** [select] returns the head of the stable sort of the eligible
    elements, and leaves the others in place. *)
Lemma select_sorted (elig : A → bool) l :
  match sorted key (filter (λ x, elig x = true) l) with
  | [] => select key elig l = None
  | p :: Y =>
      ∃ r, select key elig l = Some (p, r) ∧
           sorted key (filter (λ x, elig x = true) r) = Y ∧
           filter (λ x, elig x ≠ true) r = filter (λ x, elig x ≠ true) l
  end.
Proof.
  induction l as [|x l IH]; simpl; [done|].
  rewrite filter_cons. destruct (decide (elig x = true)) as [E|E]; simpl.
  - destruct (sorted key (filter _ l)) as [|q Y0] eqn:EY; simpl.
    + rewrite IH, E. exists l. by rewrite filter_cons_False by congruence.
    + destruct IH as (r0 & -> & HY & Hr). rewrite E. simpl.
      destruct (kle (key x) (key q)) eqn:Ek.
      * exists l. by rewrite filter_cons_False by congruence.
      * exists (x :: r0). rewrite filter_cons_True by done. simpl.
        rewrite HY. rewrite !filter_cons_False by congruence. done.
  - apply not_true_is_false in E.
    destruct (sorted key (filter _ l)) as [|q Y0] eqn:EY.
    + by rewrite IH, E.
    + destruct IH as (r0 & -> & HY & Hr). rewrite E. simpl.
      exists (x :: r0). rewrite filter_cons_False by congruence.
      rewrite !filter_cons_True by congruence. by rewrite Hr.
Qed.

(** What [select] means: the chosen element is eligible, strictly
    smaller than every eligible element before it and not larger than
    any eligible element after it. *)
Lemma select_Some_split (elig : A → bool) l p r :
  select key elig l = Some (p, r) →
  ∃ l1 l2, l = l1 ++ p :: l2 ∧ r = l1 ++ l2 ∧ elig p = true ∧
    Forall (λ q, elig q = true → kle (key q) (key p) = false) l1 ∧
    Forall (λ q, elig q = true → kle (key p) (key q) = true) l2.
Proof.
  revert p r. induction l as [|x l IH]; intros p r; simpl; [done|].
  destruct (select key elig l) as [[m r0]|] eqn:Es.
  - destruct (IH m r0 eq_refl) as (l1 & l2 & -> & -> & Hm & H1 & H2).
    destruct (elig x && kle (key x) (key m)) eqn:E; intros [= <- <-].
    + apply andb_true_iff in E as [Ex Ek].
      exists [], (l1 ++ m :: l2). repeat split; [done|constructor|].
      apply Forall_app. split.
      * eapply Forall_impl; [exact H1|]. simpl. intros q Hq Eq.
        apply kle_false_flip in Hq; [|done].
        exact (kle_trans _ _ _ Ek Hq).
      * constructor; [done|].
        eapply Forall_impl; [exact H2|]. simpl. intros q Hq Eq.
        exact (kle_trans _ _ _ Ek (Hq Eq)).
    + exists (x :: l1), l2. repeat split; [done| |done].
      constructor; [|done]. intros Ex. rewrite Ex in E. done.
  - destruct (elig x) eqn:Ex; intros [= <- <-].
    exists [], l. repeat split; [done|constructor|].
    clear IH. induction l as [|y l IH]; [constructor|].
    simpl in Es. destruct (select key elig l) as [[m r0]|].
    { by destruct (elig y && kle (key y) (key m)). }
    destruct (elig y) eqn:Ey; [done|].
    constructor; [congruence|by apply IH].
Qed.

Lemma select_None (elig : A → bool) l :
  select key elig l = None ↔ Forall (λ q, elig q = false) l.
Proof.
  induction l as [|x l IH]; simpl; [by split; [constructor|]|].
  rewrite Forall_cons. destruct (select key elig l) as [[m r0]|].
  - split; [by destruct (elig x && kle (key x) (key m))|].
    intros [_ Hl]. by apply IH in Hl.
  - destruct (elig x); split; try done; [by intros [? ?]|].
    intros _. split; [done|by apply IH].
Qed.

(** Conversely, an eligible element that beats the eligible ones before
    it and is not beaten by those after it is the one selected. *)
Lemma select_intro (elig : A → bool) l1 p l2 :
  elig p = true →
  Forall (λ q, elig q = true → kle (key q) (key p) = false) l1 →
  Forall (λ q, elig q = true → kle (key p) (key q) = true) l2 →
  select key elig (l1 ++ p :: l2) = Some (p, l1 ++ l2).
Proof.
  intros Hp H1 H2. induction H1 as [|x l1 Hx H1 IH]; simpl.
  - destruct (select key elig l2) as [[m r]|] eqn:Es; [|by rewrite Hp].
    apply select_Some_split in Es as (k1 & k2 & E & _ & Hm & _).
    assert (m ∈ l2) as Hin by (rewrite E; apply elem_of_app; right; left).
    eapply Forall_forall in H2; [|exact Hin].
    by rewrite Hp, (H2 Hm).
  - rewrite IH. destruct (elig x) eqn:Ex; [|done].
    by rewrite (Hx eq_refl).
Qed.
End stable_sort_facts.

(** Sorting by one key a list already sorted by another gives the
    lexicographic order. *)
Section lexicographic.
Context {A K1 K2 : Type} `{KeyOrder K1, KeyOrder K2}
        `{EqDecision K1, EqDecision K2}.
Context (k1 : A → K1) (k2 : A → K2).
Implicit Types (s l : list A).

Local Abbreviation k12 := (λ x : A, (k1 x, k2 x)).

Lemma lex_sorted_intro s :
  key_sorted k1 s →
  (∀ a, key_sorted k2 (filter (λ x, k1 x = a) s)) →
  key_sorted k12 s.
Proof.
  induction s as [|x s IH]; intros Hs Hc; [constructor|].
  apply StronglySorted_cons in Hs as [Hx Hs].
  constructor.
  - apply IH; [done|]. intros a. specialize (Hc a).
    rewrite filter_cons in Hc. destruct (decide (k1 x = a)); [|done].
    by apply StronglySorted_cons in Hc as [_ ?].
  - apply Forall_forall. intros y Hy.
    eapply Forall_forall in Hx; [|done].
    unfold key_le in *. simpl. unfold lex_le. simpl. rewrite Hx.
    destruct (kle (k1 y) (k1 x)) eqn:E; [|done].
    pose proof (kle_antisym _ _ Hx E) as Exy.
    specialize (Hc (k1 x)). rewrite filter_cons_True in Hc by done.
    apply StronglySorted_cons in Hc as [Hc _].
    eapply Forall_forall in Hc; [exact Hc|].
    apply list_elem_of_filter. done.
Qed.

Lemma lex_sorted_fst s : key_sorted k12 s → key_sorted k1 s.
Proof.
  induction 1 as [|x s Hs IH Hx]; constructor; [done|].
  eapply Forall_impl; [exact Hx|]. intros y.
  unfold key_le. simpl. unfold lex_le. simpl.
  by destruct (kle (k1 x) (k1 y)).
Qed.

Lemma lex_sorted_class s a :
  key_sorted k12 s → key_sorted k2 (filter (λ x, k1 x = a) s).
Proof.
  induction 1 as [|x s Hs IH Hx]; [constructor|].
  rewrite filter_cons. destruct (decide (k1 x = a)) as [Ea|]; [|done].
  constructor; [done|].
  apply Forall_forall. intros y [Ey Hy]%list_elem_of_filter.
  eapply Forall_forall in Hx; [|done].
  revert Hx. unfold key_le. simpl. unfold lex_le. simpl.
  rewrite Ea, Ey, kle_refl. done.
Qed.

Lemma sorted_sorted_lex l : sorted k1 (sorted k2 l) = sorted k12 l.
Proof.
  apply (key_sorted_unique k12).
  - apply lex_sorted_intro; [apply sorted_sorted|].
    intros a. rewrite sorted_stable.
    apply StronglySorted_filter, sorted_sorted.
  - apply sorted_sorted.
  - intros [a b]. rewrite sorted_stable.
    rewrite (sorted_class k1), (sorted_class k2); [done|..]; congruence.
Qed.
End lexicographic.

Lemma insert_key_fmap {A B K} `{KeyOrder K} (f : A → B) (key : A → K)
    (key' : B → K) (x : A) (s : list A) :
  (∀ x, key x = key' (f x)) →
  f <$> insert_key key x s = insert_key key' (f x) (f <$> s).
Proof.
  intros Hk. induction s as [|y s IHs]; simpl; [done|].
  rewrite <- !Hk. destruct (kle (key x) (key y)); simpl; [done|].
  f_equal. exact IHs.
Qed.

Lemma sorted_fmap {A B K} `{KeyOrder K} (f : A → B) (key : A → K)
    (key' : B → K) (l : list A) :
  (∀ x, key x = key' (f x)) →
  f <$> sorted key l = sorted key' (f <$> l).
Proof.
  intros Hk. induction l as [|x l IH]; [done|].
  rewrite fmap_cons.
  change (sorted key (x :: l)) with (insert_key key x (sorted key l)).
  change (sorted key' (f x :: (f <$> l)))
    with (insert_key key' (f x) (sorted key' (f <$> l))).
  by rewrite (insert_key_fmap f key key'), IH.
Qed.

(** ** Timelines *)

Lemma length_range a b : length (range a b) = Z.to_nat (b - a).
Proof. unfold range. by rewrite length_fmap, length_seq. Qed.

Lemma length_units who a b : length (units who a b) = Z.to_nat (b - a).
Proof. unfold units. by rewrite length_fmap, length_range. Qed.

Lemma lookup_units who a b (i : nat) u :
  units who a b !! i = Some u → u = mkUnit (a + Z.of_nat i) who.
Proof.
  unfold units, range. rewrite !list_lookup_fmap.
  destruct (seq 0 (Z.to_nat (b - a)) !! i) as [j|] eqn:E; [|done].
  apply lookup_seq in E as [-> _]. simpl. by intros [= <-].
Qed.

Lemma timeline_upto_nil : timeline_upto 0 [].
Proof. split; [done|]. intros i u. by rewrite lookup_nil. Qed.

Lemma timeline_upto_units who a b tl :
  timeline_upto a tl → a ≤ b → timeline_upto b (tl ++ units who a b).
Proof.
  intros [Hl Hc] Hab. split.
  { rewrite length_app, length_units. lia. }
  intros i u Hi. destruct (decide (i < length tl)%nat).
  - rewrite lookup_app_l in Hi by done. by apply Hc.
  - rewrite lookup_app_r in Hi by lia.
    apply lookup_units in Hi as ->. simpl. lia.
Qed.

Lemma timeline_upto_snoc who a tl :
  timeline_upto a tl → timeline_upto (a + 1) (tl ++ [mkUnit a who]).
Proof.
  intros [Hl Hc]. split.
  { rewrite length_app. simpl. lia. }
  intros i u Hi. destruct (decide (i < length tl)%nat).
  - rewrite lookup_app_l in Hi by done. by apply Hc.
  - rewrite lookup_app_r in Hi by lia.
    destruct (i - length tl)%nat as [|k] eqn:E; [|done].
    injection Hi as <-. simpl. lia.
Qed.

Lemma last_completion_snoc rs r :
  last_completion (rs ++ [r]) = Z.max (last_completion rs) (CT r).
Proof.
  unfold last_completion. rewrite fmap_app, foldr_app. simpl.
  generalize (CT <$> rs). intros cs.
  induction cs as [|c cs IH]; simpl; lia.
Qed.

Lemma last_completion_nonneg rs : 0 ≤ last_completion rs.
Proof.
  unfold last_completion. generalize (CT <$> rs). intros cs.
  induction cs; simpl; lia.
Qed.

Lemma row_ok_result_row p ct :
  arrival p + burst p ≤ ct → row_ok (result_row p ct).
Proof. unfold row_ok, result_row. simpl. lia. Qed.

(** ** FCFS *)

Lemma fcfs_fold_gantt procs st :
  f_gantt (foldl fcfs_step st procs) =
    f_gantt st ++ (segment_at <$> run_in_order (f_time st) procs).
Proof.
  revert st. induction procs as [|p ps IH]; intros st; simpl.
  { by rewrite app_nil_r. }
  rewrite IH. simpl. by rewrite <- app_assoc.
Qed.

Lemma fcfs_fold_results procs st :
  f_results (foldl fcfs_step st procs) =
    f_results st ++ (row_at <$> run_in_order (f_time st) procs).
Proof.
  revert st. induction procs as [|p ps IH]; intros st; simpl.
  { by rewrite app_nil_r. }
  rewrite IH. simpl. by rewrite <- app_assoc.
Qed.

Lemma length_run_in_order tm procs :
  length (run_in_order tm procs) = length procs.
Proof.
  revert tm. induction procs as [|p ps IH]; intros tm; simpl; [done|].
  by rewrite IH.
Qed.

Lemma run_in_order_fst tm procs : fst <$> run_in_order tm procs = procs.
Proof.
  revert tm. induction procs as [|p ps IH]; intros tm; simpl; [done|].
  by rewrite IH.
Qed.

Lemma run_in_order_start tm procs :
  Forall (λ ps, arrival ps.1 ≤ ps.2) (run_in_order tm procs).
Proof.
  revert tm. induction procs as [|p ps IH]; intros tm; simpl; constructor.
  - simpl. lia.
  - apply IH.
Qed.

Lemma fcfs_scheduler_eq l :
  fcfs_scheduler l =
    let st := foldl fcfs_step (mkFcfs 0 [] [] []) (sorted arrival l) in
    (f_gantt st, f_results st, f_timeline st).
Proof. by destruct l. Qed.

Lemma fcfs_step_timeline st p :
  0 ≤ burst p →
  timeline_upto (f_time st) (f_timeline st) →
  last_completion (f_results st) ≤ f_time st →
  let st' := fcfs_step st p in
  timeline_upto (f_time st') (f_timeline st') ∧
  last_completion (f_results st') = f_time st'.
Proof.
  intros Hb Htl Hct. simpl. split.
  - apply timeline_upto_units; [|lia].
    case_bool_decide.
    + apply timeline_upto_units; [done|lia].
    + by replace (Z.max (f_time st) (arrival p)) with (f_time st) by lia.
  - rewrite last_completion_snoc. simpl. lia.
Qed.

Lemma fcfs_fold_timeline procs st :
  Forall (λ p, 0 ≤ burst p) procs →
  timeline_upto (f_time st) (f_timeline st) →
  last_completion (f_results st) ≤ f_time st →
  let st' := foldl fcfs_step st procs in
  timeline_upto (f_time st') (f_timeline st') ∧
  last_completion (f_results st') ≤ f_time st' ∧
  (procs ≠ [] → last_completion (f_results st') = f_time st').
Proof.
  revert st. induction procs as [|p ps IH]; intros st Hv Htl Hct; simpl.
  { done. }
  apply Forall_cons in Hv as [Hp Hv].
  destruct (fcfs_step_timeline st p Hp Htl Hct) as [H1 H2].
  destruct (IH (fcfs_step st p) Hv H1) as (H3 & H4 & H5).
  { by rewrite H2. }
  split; [done|]. split; [done|]. intros _.
  destruct ps as [|q qs]; [done|]. by apply H5.
Qed.

Lemma units_empty who a b : b ≤ a → units who a b = [].
Proof.
  intros Hab. apply length_zero_iff_nil. rewrite length_units. lia.
Qed.

Lemma fcfs_fold_timeline_eq procs st :
  f_timeline (foldl fcfs_step st procs) =
    f_timeline st ++ units_in_order (f_time st) procs.
Proof.
  revert st. induction procs as [|p ps IH]; intros st; simpl.
  { by rewrite app_nil_r. }
  rewrite IH. simpl. case_bool_decide.
  - by rewrite <- !app_assoc.
  - rewrite (units_empty IDLE) by lia. by rewrite <- !app_assoc.
Qed.

Lemma fcfs_gantt_pids l :
  g_pid <$> sched_gantt (fcfs_scheduler l) = pid <$> sorted arrival l.
Proof.
  rewrite fcfs_scheduler_eq. unfold sched_gantt. simpl.
  rewrite fcfs_fold_gantt. simpl.
  rewrite <- list_fmap_compose.
  rewrite <- (run_in_order_fst 0 (sorted arrival l)) at 2.
  by rewrite <- list_fmap_compose.
Qed.

(** C4: [fcfs_scheduler] runs the processes in ascending arrival order,
    processes of equal arrival in input order, whatever their bursts; each
    process runs its whole burst in one piece from
    [max(current time, arrival)], its completion time is the end of its
    segment, and there are exactly [n] segments. *)
Theorem fcfs_runs_in_arrival_order (l : list Process) :
  let procs := sorted arrival l in
  let res := fcfs_scheduler l in
  (procs ≡ₚ l ∧ key_sorted arrival procs ∧
   ∀ a, filter (λ p, arrival p = a) procs = filter (λ p, arrival p = a) l) ∧
  sched_gantt res = segment_at <$> run_in_order 0 procs ∧
  sched_rows res = row_at <$> run_in_order 0 procs ∧
  sched_timeline res = units_in_order 0 procs ∧
  Forall2 (λ g r, r_pid r = g_pid g ∧ CT r = g_finish g)
          (sched_gantt res) (sched_rows res) ∧
  length (sched_gantt res) = length l ∧
  (∀ l', (λ p, (pid p, arrival p)) <$> l' = (λ p, (pid p, arrival p)) <$> l →
         g_pid <$> sched_gantt (fcfs_scheduler l') = g_pid <$> sched_gantt res).
Proof.
  intros procs res.
  assert (Hg : sched_gantt res = segment_at <$> run_in_order 0 procs).
  { unfold res. rewrite fcfs_scheduler_eq. unfold sched_gantt. simpl.
    by rewrite fcfs_fold_gantt. }
  assert (Hr : sched_rows res = row_at <$> run_in_order 0 procs).
  { unfold res. rewrite fcfs_scheduler_eq. unfold sched_rows. simpl.
    by rewrite fcfs_fold_results. }
  split; [|split; [done|split; [done|split; [|split; [|split]]]]].
  - split; [apply sorted_perm|]. split; [apply sorted_sorted|].
    intros a. apply sorted_stable.
  - unfold res. rewrite fcfs_scheduler_eq. unfold sched_timeline. simpl.
    by rewrite fcfs_fold_timeline_eq.
  - rewrite Hg, Hr. apply Forall2_fmap.
    generalize (run_in_order 0 procs). intros rs.
    induction rs; by constructor.
  - rewrite Hg, length_fmap, length_run_in_order. apply sorted_length.
  - intros l' Hl'. unfold res. rewrite !fcfs_gantt_pids.
    transitivity (fst <$> ((λ p, (pid p, arrival p)) <$> sorted arrival l')).
    { by rewrite <- list_fmap_compose. }
    rewrite (sorted_fmap _ arrival snd) by done.
    rewrite Hl'. rewrite <- (sorted_fmap _ arrival snd) by done.
    by rewrite <- list_fmap_compose.
Qed.

(** ** SJF *)

Lemma arrived_true t p : arrived t p = true ↔ arrival p ≤ t.
Proof. unfold arrived. apply bool_decide_eq_true. Qed.

Lemma arrived_not_true t p : arrived t p ≠ true ↔ t < arrival p.
Proof. rewrite arrived_true. lia. Qed.

Lemma filter_none {A} (P : A → Prop) `{∀ x, Decision (P x)} (l : list A) :
  Forall (λ x, ¬ P x) l → filter P l = [].
Proof.
  induction 1 as [|x l Hx Hl IH]; [done|].
  by rewrite filter_cons_False.
Qed.

Lemma filter_all {A} (P : A → Prop) `{∀ x, Decision (P x)} (l : list A) :
  Forall P l → filter P l = l.
Proof.
  induction 1 as [|x l Hx Hl IH]; [done|].
  rewrite filter_cons_True by done. by rewrite IH.
Qed.

Lemma filter_complement_length {A} (P : A → Prop) `{∀ x, Decision (P x)}
    (l : list A) :
  (length (filter P l) + length (filter (λ x, ¬ P x) l) = length l)%nat.
Proof. by rewrite <- length_app, filter_app_complement. Qed.

Lemma move_arrived_sorted t Y R :
  key_sorted arrival R →
  move_arrived t Y R =
    (Y ++ filter (λ p, arrived t p = true) R,
     filter (λ p, arrived t p ≠ true) R).
Proof.
  revert Y. induction R as [|p R IH]; intros Y Hs; cbn [move_arrived].
  { by rewrite app_nil_r. }
  apply StronglySorted_cons in Hs as [Hp Hs].
  case_bool_decide as E.
  - rewrite IH by done.
    rewrite filter_cons_True by (by apply arrived_true).
    rewrite filter_cons_False by (rewrite arrived_not_true; lia).
    by rewrite <- app_assoc.
  - assert (Forall (λ q, t < arrival q) (p :: R)) as Hall.
    { constructor; [lia|]. eapply Forall_impl; [exact Hp|].
      intros q Hq. unfold key_le in Hq. simpl in Hq.
      apply Z.leb_le in Hq. lia. }
    rewrite filter_none, filter_all, app_nil_r; [done|..].
    + eapply Forall_impl; [exact Hall|]. intros q. by rewrite arrived_not_true.
    + eapply Forall_impl; [exact Hall|]. intros q. rewrite arrived_true. lia.
Qed.

(** The ready list after moving the arrivals and sorting by burst is the
    stable sort by (burst, arrival) of the pending processes that have
    arrived. *)
Lemma sjf_ready_sorted t0 t (P : list Process) :
  t0 ≤ t →
  sorted burst
    (sorted sjf_key (filter (λ p, arrived t0 p = true) P) ++
     filter (λ p, arrived t p = true)
       (sorted (λ p, (arrival p, burst p))
               (filter (λ p, arrived t0 p ≠ true) P)))
  = sorted sjf_key (filter (λ p, arrived t p = true) P).
Proof.
  intros Ht. unfold sjf_key.
  set (Y := sorted (λ p, (burst p, arrival p)) _).
  set (R := sorted (λ p, (arrival p, burst p)) _).
  apply (key_sorted_unique (λ p, (burst p, arrival p))).
  - apply (lex_sorted_intro burst arrival); [apply sorted_sorted|].
    intros b. rewrite sorted_stable, filter_app.
    apply StronglySorted_app_2.
    + intros x1 x2 [_ H1]%list_elem_of_filter [_ H2]%list_elem_of_filter.
      unfold Y in H1. rewrite sorted_perm in H1.
      apply list_elem_of_filter in H1 as [H1 _].
      apply list_elem_of_filter in H2 as [_ H2].
      unfold R in H2. rewrite sorted_perm in H2.
      apply list_elem_of_filter in H2 as [H2 _].
      apply arrived_true in H1. apply arrived_not_true in H2.
      unfold key_le. simpl. apply Z.leb_le. lia.
    + apply (lex_sorted_class burst arrival). apply sorted_sorted.
    + do 2 apply StronglySorted_filter.
      apply (lex_sorted_fst arrival burst). apply sorted_sorted.
  - apply sorted_sorted.
  - intros [b a]. rewrite sorted_stable.
    rewrite (sorted_class burst) by congruence.
    rewrite filter_app. unfold Y. rewrite sorted_stable.
    rewrite (list_filter_filter _ _ R). unfold R.
    rewrite (sorted_class (λ p, (arrival p, burst p)))
      by (intros y z [[= ? ?] _] [[= ? ?] _]; congruence).
    rewrite !list_filter_filter.
    destruct (decide (a ≤ t0)) as [Ha|Ha].
    + rewrite (filter_none (λ p, (_ ∧ _) ∧ _)).
      2:{ apply Forall_forall. intros q _ [[[= _ Hq] _] H3].
          apply arrived_not_true in H3. lia. }
      rewrite app_nil_r. apply list_filter_iff. intros q.
      rewrite !arrived_true. split; intros [[= ? ?] ?]; (split; [congruence|lia]).
    + rewrite (filter_none (λ p, _ ∧ arrived t0 p = true)).
      2:{ apply Forall_forall. intros q _ [[= _ Hq] H3].
          apply arrived_true in H3. lia. }
      simpl. apply list_filter_iff. intros q.
      rewrite arrived_not_true, !arrived_true.
      split; [naive_solver|]. intros [[= ? ?] ?].
      split; [split; [congruence|done]|lia].
Qed.

Lemma next_arrival_min l p :
  p ∈ l → Forall (λ q, arrival p ≤ arrival q) l → next_arrival l = arrival p.
Proof.
  destruct l as [|x l]; [by intros ?%elem_of_nil|].
  intros Hin Hall. unfold next_arrival.
  apply Forall_cons in Hall as [Hx Hall].
  assert (∀ m, arrival p ≤ m →
    arrival p ≤ foldr (λ q m, Z.min (arrival q) m) m l) as Hlow.
  { intros m Hm. clear Hin. induction Hall as [|y l Hy Hl IH]; simpl in *; lia. }
  apply elem_of_cons in Hin as [->|Hin].
  { apply Z.le_antisymm; [|by apply Hlow].
    clear. induction l as [|y l IH]; simpl; lia. }
  apply Z.le_antisymm; [|by apply Hlow].
  clear Hlow Hx. induction Hall as [|y l Hy Hl IH]; [by apply elem_of_nil in Hin|].
  simpl in *. apply elem_of_cons in Hin as [->|Hin]; [lia|].
  specialize (IH Hin). lia.
Qed.

Lemma next_arrival_elem l : l ≠ [] → ∃ p, p ∈ l ∧ arrival p = next_arrival l.
Proof.
  destruct l as [|x l]; [done|]. intros _. unfold next_arrival.
  induction l as [|y l IH]; simpl.
  { exists x. split; [left|done]. }
  destruct IH as (p & Hp & Ep).
  destruct (decide (arrival y ≤ foldr (λ q m, Z.min (arrival q) m) (arrival x) l)).
  - exists y. split; [right; left|lia].
  - exists p. split; [|lia].
    apply elem_of_cons in Hp as [->|Hp]; [left|right; by right].
Qed.

Lemma sjf_rel_pending_nil st sp :
  sjf_rel st sp →
  (j_remaining st = [] ∧ j_ready st = []) ↔ sp_pending sp = [].
Proof.
  intros (_ & _ & _ & _ & _ & t0 & _ & HY & HR).
  pose proof (filter_complement_length (λ p, arrived t0 p = true) (sp_pending sp)) as Hlen.
  rewrite <- (sorted_length sjf_key (filter (λ p, arrived t0 p = true) _)),
    <- HY in Hlen.
  rewrite <- (sorted_length (λ p, (arrival p, burst p))
                (filter (λ p, arrived t0 p ≠ true) _)), <- HR in Hlen.
  split.
  - intros [E1 E2]. rewrite E1, E2 in Hlen. simpl in Hlen.
    by apply length_zero_iff_nil.
  - intros E. rewrite E in Hlen. simpl in Hlen.
    split; apply length_zero_iff_nil; lia.
Qed.

(** One iteration of the code corresponds to one decision of the
    reference. *)
Lemma sjf_body_sim st sp :
  sjf_rel st sp → sp_pending sp ≠ [] →
  sjf_rel (sjf_body st) (sjf_spec_step sp).
Proof.
  intros (Et & Eg & Er & Etl & Hv & t0 & Ht0 & HY & HR) Hne.
  set (P := sp_pending sp) in *.
  set (t := j_time st) in *.
  unfold sjf_body, sjf_spec_step. fold t. rewrite <- Et. fold t. fold P.
  assert (key_sorted arrival (j_remaining st)) as Hs.
  { rewrite HR. apply (lex_sorted_fst arrival burst), sorted_sorted. }
  rewrite (move_arrived_sorted _ _ _ Hs).
  assert (filter (λ p, arrived t p ≠ true) (j_remaining st) =
          sorted (λ p, (arrival p, burst p)) (filter (λ p, arrived t p ≠ true) P))
    as HR1.
  { rewrite HR, sorted_filter. f_equal. apply list_filter_filter_l.
    intros p. rewrite !arrived_not_true. lia. }
  pose proof (sjf_ready_sorted t0 t P Ht0) as Hkey.
  rewrite <- HY, <- HR in Hkey.
  pose proof (select_sorted sjf_key (arrived t) P) as Hsel.
  rewrite <- Hkey in Hsel. rewrite HR1. clear Hs.
  destruct (j_ready st ++ filter _ (j_remaining st)) as [|y Y1] eqn:EY1.
  - simpl in Hsel, Hkey. rewrite Hsel.
    symmetry in Hkey. apply sorted_nil_inv in Hkey.
    assert (filter (λ p, arrived t p ≠ true) P = P) as EP.
    { apply filter_all. apply Forall_forall. intros q Hq Hc.
      assert (q ∈ filter (λ p, arrived t p = true) P) as Hin
        by by apply list_elem_of_filter.
      rewrite Hkey in Hin. by apply elem_of_nil in Hin. }
    rewrite EP.
    destruct (sorted (λ p, (arrival p, burst p)) P) as [|r0 R1] eqn:ER1.
    { apply sorted_nil_inv in ER1. done. }
    assert (arrival r0 = next_arrival P) as Enext.
    { symmetry. apply next_arrival_min.
      - rewrite <- (sorted_perm (λ p, (arrival p, burst p))), ER1. left.
      - pose proof (sorted_sorted (λ p, (arrival p, burst p)) P) as Hs.
        apply (lex_sorted_fst arrival burst) in Hs. rewrite ER1 in Hs.
        apply StronglySorted_cons in Hs as [Hs _].
        rewrite <- (sorted_perm (λ p, (arrival p, burst p)) P), ER1.
        constructor; [lia|].
        eapply Forall_impl; [exact Hs|]. intros q Hq.
        unfold key_le in Hq. simpl in Hq. by apply Z.leb_le in Hq. }
    rewrite <- Enext. repeat split; simpl; try done; try congruence.
    exists t. split.
    { assert (r0 ∈ P) as Hin
        by (rewrite <- (sorted_perm (λ p, (arrival p, burst p))), ER1; left).
      rewrite <- EP in Hin. apply list_elem_of_filter in Hin as [Hin _].
      apply arrived_not_true in Hin. lia. }
    rewrite Hkey, EP. done.
  - destruct (sorted burst (y :: Y1)) as [|p Y'] eqn:ES.
    { by apply sorted_nil_inv in ES. }
    destruct Hsel as (r & Hsel & HY' & Hr). rewrite Hsel.
    destruct (select_Some_split _ _ _ _ _ Hsel) as (l1 & l2 & EP & Erest & _).
    rewrite EP in Hv. apply Forall_app in Hv as [Hv1 Hv2].
    apply Forall_cons in Hv2 as [Hp Hv2].
    repeat split; simpl; try done; try congruence.
    { rewrite Erest. by apply Forall_app. }
    exists t. split; [lia|]. split; [by rewrite HY'|].
    by rewrite Hr.
Qed.

Lemma sjf_loop_sim fuel st sp :
  sjf_rel st sp →
  match sjf_loop fuel st, sjf_spec_loop fuel sp with
  | Some st', Some sp' =>
      j_gantt st' = sp_gantt sp' ∧ j_results st' = sp_results sp' ∧
      j_timeline st' = sp_timeline sp'
  | None, None => True
  | _, _ => False
  end.
Proof.
  revert st sp. induction fuel as [|fuel IH]; intros st sp Hrel.
  - pose proof (sjf_rel_pending_nil st sp Hrel) as Hnil. simpl.
    destruct (sp_pending sp) as [|q P] eqn:EP.
    + destruct Hnil as [_ [-> ->]]; [done|].
      by destruct Hrel as (_ & ? & ? & ? & _).
    + destruct (j_remaining st) as [|r R], (j_ready st) as [|y Y]; try done.
      destruct Hnil as [Hnil _]. by specialize (Hnil (conj eq_refl eq_refl)).
  - pose proof (sjf_rel_pending_nil st sp Hrel) as Hnil. simpl.
    destruct (sp_pending sp) as [|q P] eqn:EP.
    + destruct Hnil as [_ [-> ->]]; [done|].
      by destruct Hrel as (_ & ? & ? & ? & _).
    + assert (sjf_rel (sjf_body st) (sjf_spec_step sp)) as Hrel'.
      { apply sjf_body_sim; [done|]. by rewrite EP. }
      specialize (IH _ _ Hrel').
      destruct (j_remaining st) as [|r R], (j_ready st) as [|y Y]; try done.
      destruct Hnil as [Hnil _]. by specialize (Hnil (conj eq_refl eq_refl)).
Qed.

Lemma sjf_init_rel l :
  valid_procs l → sjf_rel (sjf_init l) (mkSjfSpec 0 [] [] [] l).
Proof.
  intros Hv. unfold sjf_rel, sjf_init. simpl.
  repeat split; try done.
  { eapply Forall_impl; [exact Hv|]. simpl. lia. }
  exists (-1). split; [lia|].
  rewrite filter_none, filter_all; [done|..].
  - eapply Forall_impl; [exact Hv|]. intros p [Hp _].
    rewrite arrived_not_true. lia.
  - eapply Forall_impl; [exact Hv|]. intros p [Hp _].
    rewrite arrived_true. lia.
Qed.

Lemma sjf_refines_spec l fuel :
  valid_procs l → sjf_nonpreemptive_scheduler fuel l = sjf_spec fuel l.
Proof.
  intros Hv. destruct l as [|p l]; [done|].
  unfold sjf_nonpreemptive_scheduler, sjf_spec.
  pose proof (sjf_loop_sim fuel _ _ (sjf_init_rel _ Hv)) as Hsim.
  destruct (sjf_loop fuel _) as [st'|], (sjf_spec_loop fuel _) as [sp'|];
    simpl; try done.
  destruct Hsim as (-> & -> & ->). done.
Qed.

Lemma select_length {A K} `{KeyOrder K} (key : A → K) elig (l : list A) p r :
  select key elig l = Some (p, r) → length l = S (length r).
Proof.
  intros (l1 & l2 & -> & -> & _)%select_Some_split.
  rewrite !length_app. simpl. lia.
Qed.

Lemma sjf_spec_loop_terminates fuel sp :
  (sjf_measure sp ≤ fuel)%nat → is_Some (sjf_spec_loop fuel sp).
Proof.
  revert sp. induction fuel as [|fuel IH]; intros sp Hm; simpl.
  - destruct (sp_pending sp) as [|q P] eqn:EP; [done|].
    unfold sjf_measure in Hm. rewrite EP in Hm.
    destruct (select sjf_key (arrived (sp_time sp)) (q :: P));
      cbn [length] in Hm; lia.
  - destruct (sp_pending sp) as [|q P] eqn:EP; [done|].
    apply IH. unfold sjf_measure in *. unfold sjf_spec_step.
    destruct (select sjf_key (arrived (sp_time sp)) (sp_pending sp))
      as [[p r]|] eqn:Es; simpl.
    + apply select_length in Es. destruct (select _ _ r); lia.
    + destruct (next_arrival_elem (sp_pending sp)) as (m & Hm1 & Hm2).
      { by rewrite EP. }
      destruct (select sjf_key (arrived (next_arrival (sp_pending sp)))
                  (sp_pending sp)) eqn:Es'; [lia|].
      apply select_None in Es'. eapply Forall_forall in Es'; [|exact Hm1].
      apply not_true_iff_false in Es'. rewrite arrived_true in Es'. lia.
Qed.

Lemma sjf_spec_terminates l fuel :
  (2 * length l ≤ fuel)%nat → is_Some (sjf_spec fuel l).
Proof.
  intros Hf. destruct l as [|p l]; [done|]. unfold sjf_spec.
  destruct (sjf_spec_loop_terminates fuel (mkSjfSpec 0 [] [] [] (p :: l)))
    as [sp' ->]; [|done].
  unfold sjf_measure. cbn [sp_pending]. destruct (select _ _ _); lia.
Qed.

Lemma lex_le_Z (a b c d : Z) :
  kle (a, b) (c, d) = true ↔ a < c ∨ (a = c ∧ b ≤ d).
Proof.
  simpl. unfold lex_le. simpl.
  destruct (Z.leb_spec a c), (Z.leb_spec c a), (Z.leb_spec b d);
    split; try done; lia.
Qed.

Lemma lex_le_Z_false (a b c d : Z) :
  kle (a, b) (c, d) = false ↔ c < a ∨ (c = a ∧ d < b).
Proof.
  rewrite <- not_true_iff_false, lex_le_Z. lia.
Qed.

(** C3: at each decision point [sjf_nonpreemptive_scheduler] runs to
    completion the arrived, not yet run process of minimal burst, ties
    going to the earliest arrival and then to the earlier position in the
    input; when no pending process has arrived it idles up to the next
    arrival and decides again.  A decision that runs [p] from time [t]
    adds the segment [(pid p, t, t + burst p)], the row
    [pid, AT, BT, CT = t + burst p, CT - AT, CT - AT - BT] and one
    timeline entry of [pid p] for each of the times [t .. t + burst p - 1];
    a decision that finds nothing ready adds one ["IDLE"] entry for each
    of the times [t .. next arrival - 1], moves the clock to the next
    arrival and leaves the rest as it was. *)
Theorem sjf_selects_shortest_ready (l : list Process) :
  valid_procs l →
  (∀ fuel, sjf_nonpreemptive_scheduler fuel l = sjf_spec fuel l) ∧
  (∀ fuel, (2 * length l ≤ fuel)%nat →
           is_Some (sjf_nonpreemptive_scheduler fuel l)) ∧
  (∀ tm pending,
     match select sjf_key (arrived tm) pending with
     | Some (p, rest) =>
         ∃ l1 l2, pending = l1 ++ p :: l2 ∧ rest = l1 ++ l2 ∧
           arrival p ≤ tm ∧
           Forall (λ q, arrival q ≤ tm →
                        burst p < burst q ∨
                        (burst p = burst q ∧ arrival p < arrival q)) l1 ∧
           Forall (λ q, arrival q ≤ tm →
                        burst p < burst q ∨
                        (burst p = burst q ∧ arrival p ≤ arrival q)) l2
     | None =>
         Forall (λ q, tm < arrival q) pending ∧
         (pending ≠ [] →
          tm < next_arrival pending ∧
          (∃ q, q ∈ pending ∧ arrival q = next_arrival pending) ∧
          Forall (λ q, next_arrival pending ≤ arrival q) pending)
     end) ∧
  (∀ sp,
     let t := sp_time sp in
     let sp' := sjf_spec_step sp in
     match select sjf_key (arrived t) (sp_pending sp) with
     | Some (p, rest) =>
         sp_time sp' = t + burst p ∧
         sp_pending sp' = rest ∧
         sp_gantt sp' = sp_gantt sp ++ [mkSegment (pid p) t (t + burst p)] ∧
         sp_results sp'
           = sp_results sp ++
             [mkRow (pid p) (arrival p) (burst p) (t + burst p)
                    (t + burst p - arrival p)
                    (t + burst p - arrival p - burst p)] ∧
         ∃ run, sp_timeline sp' = sp_timeline sp ++ run ∧
                length run = Z.to_nat (burst p) ∧
                ∀ (k : nat) u, run !! k = Some u →
                               u = mkUnit (t + Z.of_nat k) (pid p)
     | None =>
         let nxt := next_arrival (sp_pending sp) in
         sp_time sp' = nxt ∧
         sp_pending sp' = sp_pending sp ∧
         sp_gantt sp' = sp_gantt sp ∧
         sp_results sp' = sp_results sp ∧
         ∃ idle, sp_timeline sp' = sp_timeline sp ++ idle ∧
                 length idle = Z.to_nat (nxt - t) ∧
                 ∀ (k : nat) u, idle !! k = Some u →
                                u = mkUnit (t + Z.of_nat k) "IDLE"
     end).
Proof.
  intros Hv. split; [|split; [|split]]; cycle 3.
  { intros sp t sp'. unfold sp', sjf_spec_step. fold t.
    destruct (select sjf_key (arrived t) (sp_pending sp)) as [[p rest]|].
    - cbn [sp_time sp_pending sp_gantt sp_results sp_timeline].
      repeat split. eexists. split; [done|]. split.
      + rewrite length_units. f_equal. lia.
      + intros k u. apply lookup_units.
    - cbn [sp_time sp_pending sp_gantt sp_results sp_timeline].
      repeat split. eexists. split; [done|]. split.
      + by rewrite length_units.
      + intros k u. apply lookup_units. }
  - intros fuel. by apply sjf_refines_spec.
  - intros fuel Hf. rewrite sjf_refines_spec by done.
    by apply sjf_spec_terminates.
  - intros tm pending.
    destruct (select sjf_key (arrived tm) pending) as [[p rest]|] eqn:Es.
    + apply select_Some_split in Es as (l1 & l2 & -> & -> & Hp & H1 & H2).
      exists l1, l2. repeat split; [by apply arrived_true|..].
      * eapply Forall_impl; [exact H1|]. intros q Hq Ha.
        apply arrived_true in Ha. specialize (Hq Ha).
        unfold sjf_key in Hq. apply lex_le_Z_false in Hq. lia.
      * eapply Forall_impl; [exact H2|]. intros q Hq Ha.
        apply arrived_true in Ha. specialize (Hq Ha).
        unfold sjf_key in Hq. apply lex_le_Z in Hq. lia.
    + apply select_None in Es.
      assert (Forall (λ q, tm < arrival q) pending) as Hlate.
      { eapply Forall_impl; [exact Es|]. intros q Hq.
        apply not_true_iff_false in Hq. by apply arrived_not_true in Hq. }
      split; [done|]. intros Hne.
      destruct (next_arrival_elem pending Hne) as (m & Hm1 & Hm2).
      split; [|split].
      * eapply Forall_forall in Hlate; [|exact Hm1]. lia.
      * by exists m.
      * apply Forall_forall. intros q Hq.
        destruct (decide (next_arrival pending ≤ arrival q)) as [|Hlt]; [done|].
        exfalso.
        (* some element has the least arrival; it is the next arrival *)
        assert (∃ m', m' ∈ pending ∧ Forall (λ x, arrival m' ≤ arrival x) pending)
          as (m' & Hm' & Hmin).
        { clear -Hne. induction pending as [|x xs IH]; [done|].
          destruct xs as [|y ys].
            + exists x. split; [left|]. repeat constructor. lia.
            + destruct IH as (m & Hm & Hall); [done|].
              destruct (decide (arrival x ≤ arrival m)).
              * exists x. split; [left|]. constructor; [lia|].
                eapply Forall_impl; [exact Hall|]. simpl. lia.
              * exists m. split; [by right|]. constructor; [lia|done]. }
        rewrite (next_arrival_min _ _ Hm' Hmin) in Hlt.
        eapply Forall_forall in Hmin; [|exact Hq]. simpl in Hmin. lia.
Qed.

Lemma sjf_selects_shortest_ready_witness :
  valid_procs example_procs ∧
  ∀ fuel, sjf_nonpreemptive_scheduler fuel example_procs
          = sjf_spec fuel example_procs.
Proof.
  split.
  - unfold valid_procs, example_procs. repeat constructor; simpl; lia.
  - apply (sjf_selects_shortest_ready example_procs).
    unfold valid_procs, example_procs. repeat constructor; simpl; lia.
Defined.

(** ** SRTF *)

Lemma filter_ext_in {A} (P Q : A → Prop) `{∀ x, Decision (P x)}
    `{∀ x, Decision (Q x)} (l : list A) :
  (∀ x, x ∈ l → (P x ↔ Q x)) → filter P l = filter Q l.
Proof.
  induction l as [|x l IH]; intros HPQ; [done|].
  rewrite !filter_cons.
  rewrite IH by (intros y Hy; apply HPQ; by right).
  destruct (decide (P x)) as [HP|HP], (decide (Q x)) as [HQ|HQ]; try done.
  - exfalso. apply HQ, HPQ; [left|done].
  - exfalso. apply HP, HPQ; [left|done].
Qed.

Lemma insert_key_ext_in {A K} `{KeyOrder K} (k1 k2 : A → K) x (l : list A) :
  k1 x = k2 x → (∀ y, y ∈ l → k1 y = k2 y) →
  insert_key k1 x l = insert_key k2 x l.
Proof.
  intros Hx. induction l as [|y l IH]; intros Hl; simpl; [done|].
  rewrite Hx, (Hl y) by left. destruct (kle _ _); [done|].
  f_equal. apply IH. intros z Hz. apply Hl. by right.
Qed.

Lemma sorted_ext_in {A K} `{KeyOrder K} (k1 k2 : A → K) (l : list A) :
  (∀ x, x ∈ l → k1 x = k2 x) → sorted k1 l = sorted k2 l.
Proof.
  induction l as [|x l IH]; intros Hl; simpl; [done|].
  rewrite IH by (intros y Hy; apply Hl; by right).
  apply insert_key_ext_in; [apply Hl; left|].
  intros y Hy. apply Hl. right. by rewrite <- (sorted_perm k2).
Qed.

Lemma dict_of_fold_notin (f : Process → Z) procs (m : gmap string Z) k :
  k ∉ pid <$> procs →
  foldl (λ m p, <[pid p := f p]> m) m procs !! k = m !! k.
Proof.
  revert m. induction procs as [|q qs IH]; intros m Hk; simpl; [done|].
  rewrite fmap_cons in Hk. apply not_elem_of_cons in Hk as [Hkq Hk].
  rewrite IH by done. by rewrite lookup_insert_ne.
Qed.

Lemma dict_of_fold_lookup (f : Process → Z) procs (m : gmap string Z) p :
  NoDup (pid <$> procs) → p ∈ procs →
  foldl (λ m p, <[pid p := f p]> m) m procs !! pid p = Some (f p).
Proof.
  revert m. induction procs as [|q qs IH]; intros m Hnd Hp; simpl.
  { by apply elem_of_nil in Hp. }
  rewrite fmap_cons in Hnd. apply NoDup_cons in Hnd as [Hq Hnd].
  apply elem_of_cons in Hp as [->|Hp].
  - rewrite dict_of_fold_notin by done. by rewrite lookup_insert_eq.
  - by apply IH.
Qed.

Lemma dict_of_lookup (f : Process → Z) procs p :
  NoDup (pid <$> procs) → p ∈ procs → dict_of f procs !! pid p = Some (f p).
Proof. apply dict_of_fold_lookup. Qed.

Lemma dict_of_fold_dom (f : Process → Z) procs (m : gmap string Z) k v :
  foldl (λ m p, <[pid p := f p]> m) m procs !! k = Some v →
  (∃ p, p ∈ procs ∧ pid p = k ∧ f p = v) ∨ m !! k = Some v.
Proof.
  revert m. induction procs as [|q qs IH]; intros m Hk; simpl in *; [by right|].
  apply IH in Hk as [(p & Hp & <- & <-)|Hk].
  - left. exists p. split; [by right|done].
  - destruct (decide (pid q = k)) as [<-|Hne].
    + rewrite lookup_insert_eq in Hk. injection Hk as <-.
      left. exists q. split; [left|done].
    + rewrite lookup_insert_ne in Hk by done. by right.
Qed.

Lemma dict_of_dom (f : Process → Z) procs k v :
  dict_of f procs !! k = Some v → ∃ p, p ∈ procs ∧ pid p = k ∧ f p = v.
Proof.
  intros [?|Hk]%dict_of_fold_dom; [done|]. by rewrite lookup_empty in Hk.
Qed.

Lemma dict_of_fold_is_Some (f : Process → Z) procs (m : gmap string Z) k :
  (∃ p, p ∈ procs ∧ pid p = k) ∨ is_Some (m !! k) →
  is_Some (foldl (λ m p, <[pid p := f p]> m) m procs !! k).
Proof.
  revert m. induction procs as [|q qs IH]; intros m Hk; simpl.
  { destruct Hk as [(p & Hp & _)|Hk]; [by apply elem_of_nil in Hp|done]. }
  apply IH. destruct (decide (pid q = k)) as [<-|Hne].
  { right. by rewrite lookup_insert_eq. }
  destruct Hk as [(p & Hp & <-)|Hk].
  - apply elem_of_cons in Hp as [->|Hp]; [done|]. left. by exists p.
  - right. by rewrite lookup_insert_ne.
Qed.

Lemma NoDup_pid_inj l p q :
  NoDup (pid <$> l) → p ∈ l → q ∈ l → pid p = pid q → p = q.
Proof.
  induction l as [|x l IH]; intros Hnd Hp Hq E.
  { by apply elem_of_nil in Hp. }
  rewrite fmap_cons in Hnd. apply NoDup_cons in Hnd as [Hx Hnd].
  apply elem_of_cons in Hp as [->|Hp]; apply elem_of_cons in Hq as [->|Hq];
    try done.
  - exfalso. apply Hx. rewrite E. by apply list_elem_of_fmap_2.
  - exfalso. apply Hx. rewrite <- E. by apply list_elem_of_fmap_2.
  - by apply IH.
Qed.

Lemma sorted_NoDup_pid l :
  NoDup (pid <$> l) → NoDup (pid <$> sorted arrival l).
Proof. intros Hnd. by rewrite sorted_perm. Qed.

Lemma sorted_elem_of {A K} `{KeyOrder K} (key : A → K) (l : list A) x :
  x ∈ sorted key l ↔ x ∈ l.
Proof. by rewrite sorted_perm. Qed.

(** With distinct pids, one iteration of the code is one unit of the
    specification. *)
Lemma srtf_body_spec l st :
  NoDup (pid <$> l) →
  (∀ p, p ∈ l →
     ∃ r, s_remaining_burst st !! pid p = Some r ∧
          (s_completed st !! pid p = None ↔ 0 < r)) →
  srtf_body (sorted arrival l) (dict_of arrival (sorted arrival l)) st
  = srtf_spec_step l st.
Proof.
  intros Hnd Hrb. unfold srtf_body, srtf_spec_step, srtf_pick, srtf_available.
  set (elig := λ p, bool_decide (arrival p ≤ s_time st ∧
                                 0 < s_remaining_burst st !!! pid p)).
  assert (filter (λ p, dict_of arrival (sorted arrival l) !!! pid p ≤ s_time st ∧
                       s_completed st !! pid p = None) (sorted arrival l)
          = sorted arrival (filter (λ p, elig p = true) l)) as ->.
  { rewrite <- sorted_filter. apply filter_ext_in. intros p Hp.
    pose proof (sorted_NoDup_pid l Hnd) as Hnd'.
    rewrite (lookup_total_correct _ _ _ (dict_of_lookup arrival _ p Hnd' Hp)).
    apply sorted_elem_of in Hp.
    destruct (Hrb p Hp) as (r & Hr & Hc).
    unfold elig. rewrite bool_decide_eq_true.
    rewrite (lookup_total_correct _ _ _ Hr). by rewrite Hc. }
  pose proof (select_sorted
                (λ p, (s_remaining_burst st !!! pid p, arrival p)) elig l) as Hsel.
  rewrite <- (sorted_sorted_lex (λ p, s_remaining_burst st !!! pid p) arrival)
    in Hsel.
  destruct (sorted arrival (filter (λ p, elig p = true) l)) as [|a av] eqn:Eav.
  - simpl in Hsel. by rewrite Hsel.
  - destruct (sorted (λ p, s_remaining_burst st !!! pid p) (a :: av))
      as [|cur rest] eqn:Es.
    { by apply sorted_nil_inv in Es. }
    destruct Hsel as (r & -> & _). simpl.
    by rewrite lookup_total_insert_eq.
Qed.

Lemma select_ext_in {A K} `{KeyOrder K} (k1 k2 : A → K) (e1 e2 : A → bool)
    (l : list A) :
  (∀ x, x ∈ l → k1 x = k2 x ∧ e1 x = e2 x) →
  select k1 e1 l = select k2 e2 l.
Proof.
  induction l as [|x l IH]; intros Hl; simpl; [done|].
  rewrite IH by (intros y Hy; apply Hl; by right).
  destruct (Hl x) as [-> ->]; [left|].
  destruct (select k2 e2 l) as [[m r]|] eqn:Es; [|done].
  apply select_Some_split in Es as (l1 & l2 & -> & _).
  destruct (Hl m) as [-> _]; [|done].
  right. apply elem_of_app. right. left.
Qed.

Lemma select_elem_of {A K} `{KeyOrder K} (key : A → K) elig (l : list A) p r :
  select key elig l = Some (p, r) → p ∈ l ∧ elig p = true.
Proof.
  intros (l1 & l2 & -> & _ & Hp & _)%select_Some_split. split; [|done].
  apply elem_of_app. right. left.
Qed.

Lemma total_remaining_insert_notin rb l k v :
  k ∉ pid <$> l →
  total_remaining (<[k := v]> rb) l = total_remaining rb l.
Proof.
  induction l as [|x l IH]; intros Hk; simpl; [done|].
  rewrite fmap_cons in Hk. apply not_elem_of_cons in Hk as [Hkx Hk].
  rewrite IH by done. by rewrite lookup_total_insert_ne.
Qed.

Lemma total_remaining_insert rb l c v :
  NoDup (pid <$> l) → c ∈ l →
  total_remaining (<[pid c := v]> rb) l
  = total_remaining rb l - rb !!! pid c + v.
Proof.
  induction l as [|x l IH]; intros Hnd Hc; simpl.
  { by apply elem_of_nil in Hc. }
  rewrite fmap_cons in Hnd. apply NoDup_cons in Hnd as [Hx Hnd].
  apply elem_of_cons in Hc as [->|Hc].
  - rewrite lookup_total_insert_eq, total_remaining_insert_notin by done. lia.
  - rewrite IH by done. rewrite lookup_total_insert_ne; [lia|].
    intros E. apply Hx. rewrite <- E. by apply list_elem_of_fmap_2.
Qed.

Lemma total_remaining_bounds rb l :
  (∀ p, p ∈ l → 0 ≤ rb !!! pid p ≤ burst p) →
  0 ≤ total_remaining rb l ≤ total_burst l.
Proof.
  induction l as [|x l IH]; intros Hl; simpl; [lia|].
  pose proof (Hl x (list_elem_of_here _ _)).
  assert (0 ≤ total_remaining rb l ≤ total_burst l).
  { apply IH. intros p Hp. apply Hl. by right. }
  lia.
Qed.

Lemma total_remaining_pos rb l p :
  (∀ q, q ∈ l → 0 ≤ rb !!! pid q) → p ∈ l → 0 < rb !!! pid p →
  0 < total_remaining rb l.
Proof.
  induction l as [|x l IH]; intros Hl Hp Hr; simpl.
  { by apply elem_of_nil in Hp. }
  pose proof (Hl x (list_elem_of_here _ _)).
  assert (0 ≤ total_remaining rb l).
  { clear -Hl. induction l as [|y l IH]; simpl; [lia|].
    pose proof (Hl y (list_elem_of_further _ _ _ (list_elem_of_here _ _))).
    assert (0 ≤ total_remaining rb l); [|lia].
    apply IH. intros q Hq. apply elem_of_cons in Hq as [->|Hq].
    - apply Hl. left.
    - apply Hl. right. by right. }
  apply elem_of_cons in Hp as [->|Hp]; [lia|].
  assert (0 < total_remaining rb l); [|lia].
  apply IH; [|done..]. intros q Hq. apply Hl. by right.
Qed.

Lemma total_remaining_zero rb l :
  (∀ p, p ∈ l → rb !!! pid p = 0) → total_remaining rb l = 0.
Proof.
  induction l as [|x l IH]; intros Hl; simpl; [done|].
  rewrite (Hl x) by left. rewrite IH; [done|].
  intros p Hp. apply Hl. by right.
Qed.

Lemma max_arrival_ge l p : p ∈ l → arrival p ≤ max_arrival l.
Proof.
  induction l as [|x l IH]; intros Hp; simpl.
  { by apply elem_of_nil in Hp. }
  apply elem_of_cons in Hp as [->|Hp]; [lia|]. specialize (IH Hp). lia.
Qed.

Lemma max_arrival_nonneg l : 0 ≤ max_arrival l.
Proof. induction l; simpl; lia. Qed.

Lemma size_list_to_set_pids (l : list Process) :
  (size (list_to_set (pid <$> l) : gset string) ≤ length l)%nat ∧
  (¬ NoDup (pid <$> l) →
   (size (list_to_set (pid <$> l) : gset string) < length l)%nat).
Proof.
  induction l as [|x l [IH1 IH2]].
  { split; [done|]. intros H. exfalso. apply H. constructor. }
  rewrite fmap_cons, list_to_set_cons. cbn [length].
  destruct (decide (pid x ∈ pid <$> l)) as [Hin|Hin].
  - assert (({[pid x]} ∪ list_to_set (pid <$> l) : gset string)
            = list_to_set (pid <$> l)) as -> by set_solver.
    split; intros; lia.
  - rewrite size_union by set_solver. rewrite size_singleton.
    split; [lia|]. intros Hnd.
    assert (¬ NoDup (pid <$> l)) as Hnd'.
    { intros H. apply Hnd. by constructor. }
    specialize (IH2 Hnd'). lia.
Qed.

(** Once all [n] keys are in [completed], every process is completed;
    before that, some process is not. *)
Lemma completed_all l (completed : gmap string Z) :
  NoDup (pid <$> l) →
  (∀ k ct, completed !! k = Some ct → ∃ p, p ∈ l ∧ pid p = k) →
  (length l ≤ size completed)%nat →
  ∀ p, p ∈ l → is_Some (completed !! pid p).
Proof.
  intros Hnd Hdom Hsize p Hp.
  assert (dom completed ⊆ (list_to_set (pid <$> l) : gset string)) as Hsub.
  { intros k [ct Hk]%elem_of_dom. destruct (Hdom k ct Hk) as (q & Hq & <-).
    apply elem_of_list_to_set. by apply list_elem_of_fmap_2. }
  assert (dom completed = (list_to_set (pid <$> l) : gset string)) as Heq.
  { apply set_subseteq_size_eq; [done|].
    rewrite size_dom, size_list_to_set, length_fmap; done. }
  apply elem_of_dom. rewrite Heq. apply elem_of_list_to_set.
  by apply list_elem_of_fmap_2.
Qed.

Lemma completed_some_pending l (completed : gmap string Z) :
  NoDup (pid <$> l) →
  (size completed < length l)%nat →
  ∃ p, p ∈ l ∧ completed !! pid p = None.
Proof.
  intros Hnd Hsize.
  destruct (decide (Forall (λ p, is_Some (completed !! pid p)) l)) as [Hall|Hex].
  - exfalso.
    assert ((list_to_set (pid <$> l) : gset string) ⊆ dom completed) as Hsub.
    { intros k [q [-> Hq]]%elem_of_list_to_set%list_elem_of_fmap.
      apply elem_of_dom. by eapply Forall_forall in Hall. }
    apply subseteq_size in Hsub. rewrite size_dom in Hsub.
    rewrite size_list_to_set, length_fmap in Hsub by done. lia.
  - apply not_Forall_Exists in Hex; [|apply _].
    apply Exists_exists in Hex as (p & Hp & Hn).
    exists p. split; [done|]. by apply eq_None_not_Some.
Qed.

Lemma total_remaining_eq_burst rb l :
  (∀ p, p ∈ l → rb !!! pid p = burst p) → total_remaining rb l = total_burst l.
Proof.
  induction l as [|x l IH]; intros Hl; simpl; [done|].
  rewrite (Hl x) by left. rewrite IH; [done|].
  intros p Hp. apply Hl. by right.
Qed.

Lemma executed_snoc who tl u :
  executed who (tl ++ [u])
  = executed who tl + (if decide (running u = who) then 1 else 0).
Proof.
  unfold executed. rewrite filter_app, length_app, filter_cons, filter_nil.
  destruct (decide (running u = who)); simpl; lia.
Qed.

Lemma busy_units_snoc tl u :
  busy_units (tl ++ [u])
  = busy_units tl + (if decide (running u = IDLE) then 0 else 1).
Proof.
  unfold busy_units. rewrite filter_app, length_app.
  destruct (decide (running u = IDLE)) as [E|E].
  - rewrite (filter_none _ [u]) by (by repeat constructor; intros H).
    simpl. lia.
  - rewrite (filter_all _ [u]) by (by repeat constructor). simpl. lia.
Qed.

Section srtf_invariant.
Context (l : list Process).
Hypothesis Hvalid : valid_procs l.
Hypothesis Hnd : NoDup (pid <$> l).

Lemma srtf_pick_Some st cur :
  srtf_pick l st = Some cur →
  cur ∈ l ∧ arrival cur ≤ s_time st ∧ 0 < s_remaining_burst st !!! pid cur.
Proof.
  unfold srtf_pick. destruct (select _ _ l) as [[p r]|] eqn:Es; [|done].
  intros [= <-]. apply select_elem_of in Es as [Hin He].
  apply bool_decide_eq_true in He. by split.
Qed.

Lemma srtf_pick_None st p :
  srtf_pick l st = None → p ∈ l →
  ¬ (arrival p ≤ s_time st ∧ 0 < s_remaining_burst st !!! pid p).
Proof.
  unfold srtf_pick. destruct (select _ _ l) as [[q r]|] eqn:Es; [done|].
  intros _ Hp. apply select_None in Es.
  eapply Forall_forall in Es; [|done]. by apply bool_decide_eq_false in Es.
Qed.

(** The choice made on the state is the choice the specification makes
    from the timeline so far. *)
Lemma srtf_pick_choice st :
  Z.of_nat (length (s_timeline st)) = s_time st →
  (∀ p, p ∈ l →
     s_remaining_burst st !!! pid p = remaining_after (s_timeline st) p) →
  srtf_choice l (s_timeline st) = srtf_pick l st.
Proof.
  intros Hlen Hrb. unfold srtf_choice, srtf_pick. f_equal.
  apply select_ext_in. intros p Hp.
  unfold srtf_key, srtf_eligible. by rewrite Hrb, Hlen.
Qed.

Lemma valid_burst_pos p : p ∈ l → 0 < burst p.
Proof. intros Hp. eapply Forall_forall in Hvalid; [|done]. lia. Qed.

Lemma srtf_inv_init : srtf_inv l (srtf_init (sorted arrival l)).
Proof.
  assert (∀ p, p ∈ l →
    dict_of burst (sorted arrival l) !! pid p = Some (burst p)) as Hlk.
  { intros p Hp. apply dict_of_lookup; [by apply sorted_NoDup_pid|].
    by apply sorted_elem_of. }
  split; simpl.
  - apply timeline_upto_nil.
  - intros p Hp. exists (burst p). pose proof (valid_burst_pos p Hp).
    rewrite lookup_empty. repeat split; [by apply Hlk|lia..].
  - intros k r (p & Hp & <- & _)%dict_of_dom. exists p.
    by rewrite sorted_elem_of in Hp.
  - intros k ct. by rewrite lookup_empty.
  - intros p ct _. by rewrite lookup_empty.
  - rewrite total_remaining_eq_burst.
    + pose proof (max_arrival_nonneg l). lia.
    + intros p Hp. by apply lookup_total_correct, Hlk.
  - rewrite map_size_empty. intros Hlen Hne. destruct l; [done|simpl in Hlen; lia].
  - intros _. split; [|split; [|split]].
    + rewrite total_remaining_eq_burst; [unfold busy_units; simpl; lia|].
      intros p Hp. by apply lookup_total_correct, Hlk.
    + intros p Hp. rewrite (lookup_total_correct _ _ _ (Hlk p Hp)).
      unfold remaining_after, executed. simpl. lia.
    + intros i u. by rewrite lookup_nil.
    + intros p ct j u _ _. by rewrite lookup_nil.
Qed.

Lemma srtf_inv_idle st :
  srtf_inv l st → (size (s_completed st) < length l)%nat →
  srtf_pick l st = None →
  srtf_inv l (mkSrtf (s_remaining_burst st) (s_completed st)
                     (s_timeline st ++ [mkUnit (s_time st) IDLE])
                     (s_time st + 1)).
Proof.
  intros [Htime Hrb Hrbdom Hdom Hct Hbound Hlast Hbusy] Hguard Hpick.
  pose proof Htime as [Hlen Hcont].
  split; simpl.
  - by apply timeline_upto_snoc.
  - intros p Hp. destruct (Hrb p Hp) as (r & Hr & Hr01 & Hc & Hex).
    exists r. repeat split; try done; try lia; by apply Hc.
  - done.
  - done.
  - intros p ct Hp Hc. destruct (Hct p ct Hp Hc) as (Hct1 & Hct2 & Hct3).
    split; [lia|]. split; [done|].
    rewrite lookup_app_l by lia. done.
  - destruct (completed_some_pending l (s_completed st) Hnd Hguard)
      as (p & Hp & Hc).
    destruct (Hrb p Hp) as (r & Hr & Hr01 & Hcr & Hex).
    apply Hcr in Hc.
    pose proof (srtf_pick_None st p Hpick Hp) as Hno.
    rewrite (lookup_total_correct _ _ _ Hr) in Hno.
    pose proof (max_arrival_ge l p Hp).
    assert (0 ≤ total_remaining (s_remaining_burst st) l ≤ total_burst l).
    { apply total_remaining_bounds. intros q Hq.
      destruct (Hrb q Hq) as (rq & Hrq & ? & _).
      by rewrite (lookup_total_correct _ _ _ Hrq). }
    lia.
  - intros Hsz. lia.
  - intros Hidle. destruct (Hbusy Hidle) as (Hb1 & Hb2 & Hb3 & Hb4).
    split; [|split; [|split]]; cycle 3.
    { intros p ct j u Hp Hc Hj Hu.
      destruct (decide (j < length (s_timeline st))%nat).
      - rewrite lookup_app_l in Hj by done. by eapply Hb4.
      - rewrite lookup_app_r in Hj by lia.
        destruct (j - length (s_timeline st))%nat as [|k] eqn:E; [|done].
        injection Hj as <-. simpl in Hu. exfalso. by eapply Hidle. }
    + rewrite busy_units_snoc. cbn [running].
      rewrite decide_True by done. lia.
    + intros p Hp. rewrite Hb2 by done. unfold remaining_after.
      rewrite executed_snoc. cbn [running].
      rewrite decide_False; [lia|]. intros E. by apply (Hidle p Hp).
    + intros i u Hi. destruct (decide (i < length (s_timeline st))%nat).
      * rewrite lookup_app_l in Hi by done.
        rewrite take_app_le by lia. by apply Hb3.
      * rewrite lookup_app_r in Hi by lia.
        destruct (i - length (s_timeline st))%nat as [|k] eqn:E; [|done].
        injection Hi as <-. simpl.
        assert (i = length (s_timeline st)) as -> by lia.
        rewrite take_app_length. unfold srtf_occupant.
        rewrite srtf_pick_choice by done. by rewrite Hpick.
Qed.
Lemma srtf_inv_run st cur :
  srtf_inv l st → (size (s_completed st) < length l)%nat →
  srtf_pick l st = Some cur →
  srtf_inv l
    (mkSrtf (<[pid cur := s_remaining_burst st !!! pid cur - 1]>
               (s_remaining_burst st))
            (if bool_decide (s_remaining_burst st !!! pid cur - 1 = 0)
             then <[pid cur := s_time st + 1]> (s_completed st)
             else s_completed st)
            (s_timeline st ++ [mkUnit (s_time st) (pid cur)])
            (s_time st + 1)).
Proof.
  intros [Htime Hrb Hrbdom Hdom Hct Hbound Hlast Hbusy] Hguard Hpick.
  pose proof Htime as [Hlen Hcont].
  destruct (srtf_pick_Some st cur Hpick) as (Hcur & Harr & Hpos).
  destruct (Hrb cur Hcur) as (r0 & Hr0 & Hr01 & Hc0 & Hex0).
  rewrite (lookup_total_correct _ _ _ Hr0) in *.
  assert (s_completed st !! pid cur = None) as Hcnone by by apply Hc0.
  assert (∀ p, p ∈ l → p ≠ cur → pid cur ≠ pid p) as Hne.
  { intros p Hp Hpc E. apply Hpc. symmetry. by eapply NoDup_pid_inj. }
  pose proof (valid_burst_pos cur Hcur) as Hbpos.
  split; simpl.
  - by apply timeline_upto_snoc.
  - intros p Hp. destruct (decide (p = cur)) as [->|Hpc].
    + exists (r0 - 1). rewrite lookup_insert_eq.
      split; [done|]. split; [lia|]. split; [|lia].
      case_bool_decide as E0.
      * rewrite lookup_insert_eq. split; [done|lia].
      * rewrite Hcnone. split; [lia|done].
    + destruct (Hrb p Hp) as (rp & Hrp & Hrp01 & Hcp & Hexp). exists rp.
      rewrite lookup_insert_ne by by apply Hne.
      split; [done|]. split; [done|]. split; [|lia].
      case_bool_decide; [rewrite lookup_insert_ne by by apply Hne|]; done.
  - intros k rk Hk. destruct (decide (pid cur = k)) as [<-|Hkc].
    { by exists cur. }
    rewrite lookup_insert_ne in Hk by done. by eapply Hrbdom.
  - intros k ct Hk. case_bool_decide; [|by eapply Hdom].
    destruct (decide (pid cur = k)) as [<-|Hkc]; [by exists cur|].
    rewrite lookup_insert_ne in Hk by done. by eapply Hdom.
  - intros p ct Hp Hc. destruct (decide (p = cur)) as [->|Hpc].
    + case_bool_decide as E0; [|by rewrite Hcnone in Hc].
      rewrite lookup_insert_eq in Hc. injection Hc as <-.
      split; [lia|]. split; [lia|].
      rewrite lookup_app_r by lia.
      replace (Z.to_nat (s_time st + 1 - 1) - length (s_timeline st))%nat
        with 0%nat by lia.
      simpl. do 2 f_equal. lia.
    + assert (s_completed st !! pid p = Some ct) as Hc'.
      { case_bool_decide; [rewrite lookup_insert_ne in Hc by by apply Hne|];
          done. }
      destruct (Hct p ct Hp Hc') as (H1 & H2 & H3).
      split; [lia|]. split; [done|]. rewrite lookup_app_l by lia. done.
  - rewrite total_remaining_insert by done.
    rewrite (lookup_total_correct _ _ _ Hr0). lia.
  - intros Hsz Hnel. case_bool_decide; [|lia].
    exists cur. split; [done|]. by rewrite lookup_insert_eq.
  - intros Hidle. destruct (Hbusy Hidle) as (Hb1 & Hb2 & Hb3 & Hb4).
    split; [|split; [|split]]; cycle 3.
    { intros p ct j u Hp Hc Hj Hu.
      destruct (decide (j < length (s_timeline st))%nat) as [Hlt|Hge].
      - rewrite lookup_app_l in Hj by done.
        destruct (decide (p = cur)) as [->|Hpc].
        + case_bool_decide; [|by rewrite Hcnone in Hc].
          rewrite lookup_insert_eq in Hc. injection Hc as <-. lia.
        + eapply Hb4; [exact Hp| |exact Hj|exact Hu].
          case_bool_decide; [rewrite lookup_insert_ne in Hc by by apply Hne|];
            done.
      - rewrite lookup_app_r in Hj by lia.
        destruct (j - length (s_timeline st))%nat as [|k] eqn:E; [|done].
        injection Hj as <-. simpl in Hu.
        destruct (decide (p = cur)) as [->|Hpc].
        + case_bool_decide; [|by rewrite Hcnone in Hc].
          rewrite lookup_insert_eq in Hc. injection Hc as <-. lia.
        + exfalso. by eapply Hne. }
    + rewrite busy_units_snoc. cbn [running].
      rewrite decide_False by by apply Hidle.
      rewrite total_remaining_insert by done.
      rewrite (lookup_total_correct _ _ _ Hr0). lia.
    + intros p Hp. unfold remaining_after. rewrite executed_snoc.
      cbn [running]. destruct (decide (p = cur)) as [->|Hpc].
      * rewrite lookup_total_insert_eq, decide_True by done.
        pose proof (Hb2 cur Hcur) as Hb.
        rewrite (lookup_total_correct _ _ _ Hr0) in Hb.
        unfold remaining_after in Hb. lia.
      * rewrite lookup_total_insert_ne by by apply Hne.
        rewrite decide_False by by apply Hne.
        rewrite Hb2 by done. unfold remaining_after. lia.
    + intros i u Hi. destruct (decide (i < length (s_timeline st))%nat).
      * rewrite lookup_app_l in Hi by done.
        rewrite take_app_le by lia. by apply Hb3.
      * rewrite lookup_app_r in Hi by lia.
        destruct (i - length (s_timeline st))%nat as [|k] eqn:E; [|done].
        injection Hi as <-. simpl.
        assert (i = length (s_timeline st)) as -> by lia.
        rewrite take_app_length. unfold srtf_occupant.
        rewrite srtf_pick_choice by done. by rewrite Hpick.
Qed.

Lemma srtf_inv_step st :
  srtf_inv l st → (size (s_completed st) < length l)%nat →
  srtf_inv l (srtf_spec_step l st).
Proof.
  intros Hinv Hguard. unfold srtf_spec_step.
  destruct (srtf_pick l st) as [cur|] eqn:Epick.
  - by apply srtf_inv_run.
  - by apply srtf_inv_idle.
Qed.

Lemma srtf_inv_body st :
  srtf_inv l st →
  srtf_body (sorted arrival l) (dict_of arrival (sorted arrival l)) st
  = srtf_spec_step l st.
Proof.
  intros Hinv. apply srtf_body_spec; [done|].
  intros p Hp. destruct (inv_rb _ _ Hinv p Hp) as (r & Hr & _ & Hc & _).
  by exists r.
Qed.

Lemma srtf_reachable_inv st : srtf_reachable l st → srtf_inv l st.
Proof.
  induction 1 as [|st Hreach IH Hguard].
  - apply srtf_inv_init.
  - rewrite srtf_inv_body by done. apply srtf_inv_step; [done|].
    by rewrite sorted_length in Hguard.
Qed.
End srtf_invariant.

Lemma srtf_loop_reachable l fuel st st' :
  srtf_reachable l st →
  srtf_loop fuel (sorted arrival l) (length (sorted arrival l))
            (dict_of arrival (sorted arrival l)) st = Some st' →
  srtf_reachable l st' ∧
  ¬ (size (s_completed st') < length (sorted arrival l))%nat.
Proof.
  revert st. induction fuel as [|fuel IH]; intros st Hreach; simpl;
    case_bool_decide as Hguard; try done.
  - intros [= <-]. done.
  - intros Hloop. eapply IH; [|exact Hloop]. by constructor.
  - intros [= <-]. done.
Qed.

(** The loop ends: the clock never passes the latest arrival plus the
    total burst while some process is unfinished. *)
Lemma srtf_loop_terminates l fuel st :
  valid_procs l → NoDup (pid <$> l) →
  srtf_reachable l st →
  (Z.to_nat (max_arrival l + total_burst l - s_time st) ≤ fuel)%nat →
  is_Some (srtf_loop fuel (sorted arrival l) (length (sorted arrival l))
                     (dict_of arrival (sorted arrival l)) st).
Proof.
  intros Hv Hnd. revert st. induction fuel as [|fuel IH]; intros st Hreach Hfuel;
    simpl; case_bool_decide as Hguard; try done.
  - exfalso. rewrite sorted_length in Hguard.
    pose proof (srtf_reachable_inv l Hv Hnd st Hreach) as Hinv.
    destruct (completed_some_pending l _ Hnd Hguard) as (p & Hp & Hc).
    destruct (inv_rb _ _ Hinv p Hp) as (r & Hr & Hr01 & Hcr & _).
    apply Hcr in Hc.
    assert (0 < total_remaining (s_remaining_burst st) l).
    { apply (total_remaining_pos _ _ p); [|done|].
      - intros q Hq. destruct (inv_rb _ _ Hinv q Hq) as (rq & Hrq & ? & _).
        rewrite (lookup_total_correct _ _ _ Hrq). lia.
      - by rewrite (lookup_total_correct _ _ _ Hr). }
    pose proof (inv_bound _ _ Hinv). lia.
  - apply IH; [by constructor|].
    pose proof (srtf_reachable_inv l Hv Hnd st Hreach) as Hinv.
    rewrite srtf_inv_body by done.
    assert (s_time (srtf_spec_step l st) = s_time st + 1) as ->.
    { unfold srtf_spec_step. by destruct (srtf_pick l st). }
    lia.
Qed.

(** With a repeated pid [completed] can never hold [n] keys. *)
Lemma srtf_body_completed_dom procs amap st :
  dom (s_completed st) ⊆ (list_to_set (pid <$> procs) : gset string) →
  dom (s_completed (srtf_body procs amap st))
    ⊆ (list_to_set (pid <$> procs) : gset string).
Proof.
  intros Hdom. unfold srtf_body.
  destruct (srtf_available procs amap st) as [|a av] eqn:Eav; [done|].
  destruct (sorted _ (a :: av)) as [|cur rest] eqn:Es; [done|].
  simpl. case_bool_decide; [|done].
  rewrite dom_insert_L.
  assert (cur ∈ procs) as Hcur.
  { assert (cur ∈ a :: av) as Hin.
    { rewrite <- (sorted_perm (λ p, s_remaining_burst st !!! pid p)), Es. left. }
    rewrite <- Eav in Hin. unfold srtf_available in Hin.
    by apply list_elem_of_filter in Hin as [_ ?]. }
  assert (pid cur ∈ (list_to_set (pid <$> procs) : gset string)).
  { apply elem_of_list_to_set. by apply list_elem_of_fmap_2. }
  set_solver.
Qed.

Lemma srtf_loop_dup_diverges procs amap fuel st :
  ¬ NoDup (pid <$> procs) →
  dom (s_completed st) ⊆ (list_to_set (pid <$> procs) : gset string) →
  srtf_loop fuel procs (length procs) amap st = None.
Proof.
  intros Hdup. revert st. induction fuel as [|fuel IH]; intros st Hdom; simpl.
  - case_bool_decide as Hguard; [done|]. exfalso. apply Hguard.
    apply subseteq_size in Hdom. rewrite size_dom in Hdom.
    destruct (size_list_to_set_pids procs) as [_ Hlt]. specialize (Hlt Hdup). lia.
  - case_bool_decide as Hguard.
    + apply IH. by apply srtf_body_completed_dom.
    + exfalso. apply Hguard.
      apply subseteq_size in Hdom. rewrite size_dom in Hdom.
      destruct (size_list_to_set_pids procs) as [_ Hlt]. specialize (Hlt Hdup). lia.
Qed.

Lemma srtf_scheduler_dup_diverges l fuel :
  ¬ NoDup (pid <$> l) → srtf_scheduler fuel l = None.
Proof.
  intros Hdup. destruct l as [|p l].
  { exfalso. apply Hdup. constructor. }
  unfold srtf_scheduler. rewrite srtf_loop_dup_diverges; [done| |].
  - by rewrite sorted_perm.
  - unfold srtf_init. simpl. rewrite dom_empty_L. set_solver.
Qed.

(** What a returned schedule is: the outputs of a final reachable state. *)
Lemma srtf_scheduler_Some l fuel res :
  l ≠ [] →
  srtf_scheduler fuel l = Some res →
  ∃ st, srtf_reachable l st ∧ (length l ≤ size (s_completed st))%nat ∧
        res = (gantt_segments_of (s_timeline st),
               (λ p, result_row p (s_completed st !!! pid p)) <$> sorted arrival l,
               s_timeline st).
Proof.
  intros Hne. destruct l as [|p l]; [done|]. unfold srtf_scheduler.
  destruct (srtf_loop _ _ _ _ _) as [st|] eqn:Eloop; [|done].
  intros [= <-]. exists st.
  apply srtf_loop_reachable in Eloop as [Hreach Hguard]; [|constructor].
  rewrite sorted_length in Hguard. split; [done|]. split; [lia|done].
Qed.

Lemma srtf_scheduler_terminates l fuel :
  valid_procs l → NoDup (pid <$> l) →
  (Z.to_nat (max_arrival l + total_burst l) ≤ fuel)%nat →
  is_Some (srtf_scheduler fuel l).
Proof.
  intros Hv Hnd Hfuel. destruct l as [|p l]; [done|]. unfold srtf_scheduler.
  destruct (srtf_loop_terminates (p :: l) fuel
              (srtf_init (sorted arrival (p :: l))) Hv Hnd) as [st ->];
    [constructor| |done].
  unfold srtf_init. cbn [s_time]. lia.
Qed.

Lemma last_completion_eq rs T :
  Forall (λ r, CT r ≤ T) rs → (∃ r, r ∈ rs ∧ CT r = T) → 0 ≤ T →
  last_completion rs = T.
Proof.
  unfold last_completion. intros Hall (r & Hr & Er) HT.
  apply Z.le_antisymm.
  - clear Hr. induction Hall as [|x xs Hx Hxs IH]; [simpl; lia|].
    rewrite fmap_cons. cbn [foldr]. cbn beta in Hx. lia.
  - clear Hall. induction rs as [|x xs IH]; [by apply elem_of_nil in Hr|].
    rewrite fmap_cons. cbn [foldr].
    apply elem_of_cons in Hr as [<-|Hr]; [lia|]. specialize (IH Hr). lia.
Qed.

(** The properties of a schedule returned by SRTF. *)
Lemma srtf_scheduler_final l fuel res :
  valid_procs l → NoDup (pid <$> l) → l ≠ [] →
  srtf_scheduler fuel l = Some res →
  Forall row_ok (sched_rows res) ∧
  timeline_upto (last_completion (sched_rows res)) (sched_timeline res) ∧
  ((∀ p, p ∈ l → pid p ≠ IDLE) →
   busy_units (sched_timeline res) = total_burst l).
Proof.
  intros Hv Hnd Hne Hres.
  destruct (srtf_scheduler_Some l fuel res Hne Hres) as (st & Hreach & Hsz & ->).
  pose proof (srtf_reachable_inv l Hv Hnd st Hreach) as Hinv.
  pose proof (completed_all l _ Hnd (inv_dom _ _ Hinv) Hsz) as Hall.
  unfold sched_rows, sched_timeline. simpl.
  split; [|split].
  - apply Forall_fmap, Forall_forall. intros p Hp.
    apply sorted_elem_of in Hp. destruct (Hall p Hp) as [ct Hc].
    unfold compose. rewrite (lookup_total_correct _ _ _ Hc).
    apply row_ok_result_row.
    by destruct (inv_ct _ _ Hinv p ct Hp Hc) as (_ & ? & _).
  - pose proof (inv_time _ _ Hinv) as Htl.
    rewrite last_completion_eq with (T := s_time st); [done| | |].
    + apply Forall_fmap, Forall_forall. intros p Hp.
      apply sorted_elem_of in Hp. destruct (Hall p Hp) as [ct Hc].
      unfold compose. rewrite (lookup_total_correct _ _ _ Hc). simpl.
      destruct (inv_ct _ _ Hinv p ct Hp Hc) as (? & _). lia.
    + destruct (inv_last _ _ Hinv Hsz Hne) as (p & Hp & Hc).
      exists (result_row p (s_time st)). split; [|done].
      apply list_elem_of_fmap. exists p. split.
      * by rewrite (lookup_total_correct _ _ _ Hc).
      * by apply sorted_elem_of.
    + destruct Htl as [<- _]. lia.
  - intros Hidle. destruct (inv_busy _ _ Hinv Hidle) as (-> & _).
    rewrite total_remaining_zero; [lia|].
    intros p Hp. destruct (Hall p Hp) as [ct Hc].
    destruct (inv_rb _ _ Hinv p Hp) as (r & Hr & Hr01 & Hcr & _).
    rewrite (lookup_total_correct _ _ _ Hr).
    destruct (decide (0 < r)) as [Hpos|]; [|lia].
    apply Hcr in Hpos. congruence.
Qed.

(** Remaining bursts never go below zero, whatever the pids. *)
Lemma srtf_reachable_nonneg l st :
  valid_procs l → srtf_reachable l st →
  (∀ p, p ∈ l → is_Some (s_remaining_burst st !! pid p)) ∧
  (∀ k r, s_remaining_burst st !! k = Some r →
          0 ≤ r ∧ (s_completed st !! k = None → 0 < r)).
Proof.
  intros Hv. induction 1 as [|st Hreach [IH1 IH2] Hguard].
  - unfold srtf_init. simpl. split.
    + intros p Hp. apply dict_of_fold_is_Some. left. exists p.
      by rewrite sorted_elem_of.
    + intros k r (p & Hp & <- & <-)%dict_of_dom.
      apply sorted_elem_of in Hp. eapply Forall_forall in Hv; [|done]. lia.
  - unfold srtf_body.
    destruct (srtf_available _ _ st) as [|a av] eqn:Eav; [done|].
    destruct (sorted _ (a :: av)) as [|cur rest] eqn:Es; [done|].
    assert (cur ∈ l ∧ s_completed st !! pid cur = None) as [Hcur Hcnone].
    { assert (cur ∈ a :: av) as Hin.
      { rewrite <- (sorted_perm (λ p, s_remaining_burst st !!! pid p)), Es. left. }
      rewrite <- Eav in Hin. unfold srtf_available in Hin.
      apply list_elem_of_filter in Hin as [[_ ?] Hin].
      by rewrite sorted_elem_of in Hin. }
    destruct (IH1 cur Hcur) as [r0 Hr0].
    destruct (IH2 _ _ Hr0) as [_ Hpos]. specialize (Hpos Hcnone).
    simpl. rewrite lookup_total_insert_eq, (lookup_total_correct _ _ _ Hr0).
    split.
    + intros p Hp. destruct (decide (pid cur = pid p)) as [<-|Hne].
      * by rewrite lookup_insert_eq.
      * rewrite lookup_insert_ne by done. by apply IH1.
    + intros k r Hk. destruct (decide (pid cur = k)) as [<-|Hne].
      * rewrite lookup_insert_eq in Hk. injection Hk as <-.
        split; [lia|]. case_bool_decide; [by rewrite lookup_insert_eq|lia].
      * rewrite lookup_insert_ne in Hk by done.
        destruct (IH2 _ _ Hk) as [? Hc]. split; [done|]. intros Hn. apply Hc.
        case_bool_decide; [by rewrite lookup_insert_ne in Hn|done].
Qed.

(** ** Result rows and timelines of FCFS and SJF *)

Lemma fcfs_final l :
  valid_procs l →
  Forall row_ok (sched_rows (fcfs_scheduler l)) ∧
  length (sched_rows (fcfs_scheduler l)) = length l ∧
  timeline_upto (last_completion (sched_rows (fcfs_scheduler l)))
                (sched_timeline (fcfs_scheduler l)).
Proof.
  intros Hv. rewrite fcfs_scheduler_eq. unfold sched_rows, sched_timeline.
  cbn [fst snd]. split; [|split].
  - rewrite fcfs_fold_results. simpl. apply Forall_fmap.
    eapply Forall_impl; [apply run_in_order_start|].
    intros [p s] Hs. simpl in *. apply row_ok_result_row. simpl. lia.
  - rewrite fcfs_fold_results. simpl.
    by rewrite length_fmap, length_run_in_order, sorted_length.
  - destruct (fcfs_fold_timeline (sorted arrival l) (mkFcfs 0 [] [] []))
      as (H1 & H2 & H3); simpl.
    + rewrite sorted_perm. eapply Forall_impl; [exact Hv|]. simpl. lia.
    + apply timeline_upto_nil.
    + done.
    + destruct l as [|p l]; [apply timeline_upto_nil|].
      rewrite H3; [done|]. intros E. by apply sorted_nil_inv in E.
Qed.

Lemma sjf_spec_inv_step n sp :
  sjf_spec_inv n sp → sp_pending sp ≠ [] → sjf_spec_inv n (sjf_spec_step sp).
Proof.
  intros (Htl & Hlc & Hend & Hrows & Hv & Hlen) Hne. unfold sjf_spec_step.
  destruct (select sjf_key (arrived (sp_time sp)) (sp_pending sp))
    as [[p rest]|] eqn:Es.
  - pose proof (select_length _ _ _ _ _ Es) as Hl.
    apply select_Some_split in Es as (l1 & l2 & EP & -> & Hp & _).
    apply arrived_true in Hp. rewrite EP in Hv.
    apply Forall_app in Hv as [Hv1 Hv2]. apply Forall_cons in Hv2 as [Hb Hv2].
    unfold sjf_spec_inv. simpl. rewrite last_completion_snoc. simpl.
    split; [apply timeline_upto_units; [done|lia]|].
    split; [lia|]. split; [lia|].
    split; [apply Forall_app; split; [done|]|].
    { constructor; [|constructor]. apply row_ok_result_row. lia. }
    split; [by apply Forall_app|].
    rewrite length_app. simpl. lia.
  - apply select_None in Es.
    destruct (next_arrival_elem _ Hne) as (m & Hm & Em).
    eapply Forall_forall in Es; [|exact Hm].
    apply not_true_iff_false in Es. apply arrived_not_true in Es.
    unfold sjf_spec_inv. simpl.
    split; [apply timeline_upto_units; [done|lia]|].
    split; [lia|]. split; [done|]. done.
Qed.

Lemma sjf_spec_loop_inv n fuel sp sp' :
  sjf_spec_inv n sp → sjf_spec_loop fuel sp = Some sp' →
  sjf_spec_inv n sp' ∧ sp_pending sp' = [].
Proof.
  revert sp. induction fuel as [|fuel IH]; intros sp Hinv; simpl.
  - destruct (sp_pending sp) eqn:EP; [|done]. by intros [= <-].
  - destruct (sp_pending sp) eqn:EP; [by intros [= <-]|].
    apply IH. apply sjf_spec_inv_step; [done|]. by rewrite EP.
Qed.

Lemma sjf_final l fuel res :
  valid_procs l →
  sjf_nonpreemptive_scheduler fuel l = Some res →
  Forall row_ok (sched_rows res) ∧
  length (sched_rows res) = length l ∧
  timeline_upto (last_completion (sched_rows res)) (sched_timeline res).
Proof.
  intros Hv. rewrite sjf_refines_spec by done.
  destruct l as [|p l].
  { intros [= <-]. split; [constructor|]. split; [done|]. apply timeline_upto_nil. }
  unfold sjf_spec. destruct (sjf_spec_loop _ _) as [sp'|] eqn:Eloop; [|done].
  intros [= <-]. unfold sched_rows, sched_timeline. simpl.
  apply (sjf_spec_loop_inv (length (p :: l))) in Eloop
    as [(Htl & Hlc & Hend & Hrows & _ & Hlen) Hnil].
  - rewrite Hnil in Hlen. simpl in Hlen. rewrite Hend by done.
    split; [done|]. split; [lia|done].
  - unfold sjf_spec_inv. simpl. split; [apply timeline_upto_nil|].
    split; [done|]. split; [done|]. split; [constructor|]. split; [|done].
    eapply Forall_impl; [exact Hv|]. simpl. lia.
Qed.

(** C5: for a valid process list every row of every scheduler's result
    table has non-negative waiting time, turnaround at least the burst,
    completion = arrival + turnaround and waiting = turnaround - burst;
    there is one row per process. FCFS always returns, SJF returns given
    [2n] iterations, and SRTF returns when the pids are distinct. *)
Theorem result_rows_invariants (l : list Process) :
  valid_procs l →
  (Forall row_ok (sched_rows (fcfs_scheduler l)) ∧
   length (sched_rows (fcfs_scheduler l)) = length l) ∧
  (∀ fuel res, sjf_nonpreemptive_scheduler fuel l = Some res →
     Forall row_ok (sched_rows res) ∧ length (sched_rows res) = length l) ∧
  (∀ fuel res, srtf_scheduler fuel l = Some res →
     Forall row_ok (sched_rows res) ∧ length (sched_rows res) = length l) ∧
  is_Some (sjf_nonpreemptive_scheduler (2 * length l) l) ∧
  (NoDup (pid <$> l) →
   is_Some (srtf_scheduler (Z.to_nat (max_arrival l + total_burst l)) l)).
Proof.
  intros Hv. split; [|split; [|split; [|split]]].
  - destruct (fcfs_final l Hv) as (? & ? & _). done.
  - intros fuel res Hres. destruct (sjf_final l fuel res Hv Hres) as (? & ? & _).
    done.
  - intros fuel res Hres.
    destruct (decide (NoDup (pid <$> l))) as [Hnd|Hdup].
    + destruct l as [|p l].
      { injection Hres as <-. split; [constructor|done]. }
      destruct (srtf_scheduler_final (p :: l) fuel res Hv Hnd) as (? & _);
        [done..|].
      split; [done|].
      destruct (srtf_scheduler_Some (p :: l) fuel res) as (st & _ & _ & ->);
        [done..|].
      unfold sched_rows. cbn [fst snd].
      by rewrite length_fmap, sorted_length.
    + by rewrite srtf_scheduler_dup_diverges in Hres.
  - rewrite sjf_refines_spec by done. by apply sjf_spec_terminates.
  - intros Hnd. by apply srtf_scheduler_terminates.
Qed.

Lemma result_rows_invariants_witness :
  valid_procs example_procs ∧
  Forall row_ok (sched_rows (fcfs_scheduler example_procs)).
Proof.
  split.
  - unfold valid_procs, example_procs. repeat constructor; simpl; lia.
  - apply (result_rows_invariants example_procs).
    unfold valid_procs, example_procs. repeat constructor; simpl; lia.
Defined.

(** ** Coverage of the timeline *)

Lemma timeline_upto_unique T tl t :
  timeline_upto T tl → 0 ≤ t < T →
  ∃ u, tl !! Z.to_nat t = Some u ∧ time u = t ∧
       ∀ (j : nat) u', tl !! j = Some u' → time u' = t → j = Z.to_nat t.
Proof.
  intros [Hlen Hc] Ht.
  destruct (lookup_lt_is_Some_2 tl (Z.to_nat t)) as [u Hu]; [lia|].
  exists u. split; [done|]. split.
  - rewrite (Hc _ _ Hu). lia.
  - intros j u' Hj Hu'. rewrite (Hc _ _ Hj) in Hu'. lia.
Qed.

(** C6, as the code has it: for a valid process list the timeline of each
    scheduler holds exactly the units [0 .. T-1], [T] the last completion
    time, one entry per unit; no remaining burst of SRTF ever goes below
    zero; and when no process is named like the idle sentinel, the busy
    units of SRTF number the total burst. *)
Theorem timelines_cover_every_unit (l : list Process) :
  valid_procs l →
  timeline_upto (last_completion (sched_rows (fcfs_scheduler l)))
                (sched_timeline (fcfs_scheduler l)) ∧
  (∀ fuel res, sjf_nonpreemptive_scheduler fuel l = Some res →
     timeline_upto (last_completion (sched_rows res)) (sched_timeline res)) ∧
  (∀ fuel res, srtf_scheduler fuel l = Some res →
     timeline_upto (last_completion (sched_rows res)) (sched_timeline res) ∧
     ((∀ p, p ∈ l → pid p ≠ IDLE) →
      busy_units (sched_timeline res) = total_burst l)) ∧
  (∀ st, srtf_reachable l st →
     map_Forall (λ _ r, 0 ≤ r) (s_remaining_burst st)) ∧
  (∀ T tl t, timeline_upto T tl → 0 ≤ t < T →
     ∃ u, tl !! Z.to_nat t = Some u ∧ time u = t ∧
          ∀ (j : nat) u', tl !! j = Some u' → time u' = t → j = Z.to_nat t) ∧
  is_Some (sjf_nonpreemptive_scheduler (2 * length l) l) ∧
  (NoDup (pid <$> l) →
   is_Some (srtf_scheduler (Z.to_nat (max_arrival l + total_burst l)) l)).
Proof.
  intros Hv. split; [|split; [|split; [|split; [|split; [|split]]]]].
  - by destruct (fcfs_final l Hv) as (_ & _ & ?).
  - intros fuel res Hres. by destruct (sjf_final l fuel res Hv Hres) as (_ & _ & ?).
  - intros fuel res Hres.
    destruct (decide (NoDup (pid <$> l))) as [Hnd|Hdup].
    + destruct l as [|p l].
      { injection Hres as <-. split; [apply timeline_upto_nil|done]. }
      by destruct (srtf_scheduler_final (p :: l) fuel res Hv Hnd) as (_ & ? & ?).
    + by rewrite srtf_scheduler_dup_diverges in Hres.
  - intros st Hreach k r Hk.
    by destruct (srtf_reachable_nonneg l st Hv Hreach) as [_ [? _]%(λ H, H k r Hk)].
  - intros T tl t. apply timeline_upto_unique.
  - rewrite sjf_refines_spec by done. by apply sjf_spec_terminates.
  - intros Hnd. by apply srtf_scheduler_terminates.
Qed.

Lemma timelines_cover_every_unit_witness :
  valid_procs example_procs ∧
  timeline_upto (last_completion (sched_rows (fcfs_scheduler example_procs)))
                (sched_timeline (fcfs_scheduler example_procs)).
Proof.
  split.
  - unfold valid_procs, example_procs. repeat constructor; simpl; lia.
  - apply (timelines_cover_every_unit example_procs).
    unfold valid_procs, example_procs. repeat constructor; simpl; lia.
Defined.

(** A process may be called ["IDLE"]: its units then read as idle ones, and
    the busy units of the returned timeline fall short of the total
    burst. *)
Lemma srtf_busy_units_counterexample :
  valid_procs [mkProcess "IDLE" 0 1 0] ∧
  ∃ res, srtf_scheduler 1 [mkProcess "IDLE" 0 1 0] = Some res ∧
         sched_timeline res = [mkUnit 0 "IDLE"] ∧
         busy_units (sched_timeline res) = 0 ∧
         busy_units (sched_timeline res) ≠ total_burst [mkProcess "IDLE" 0 1 0].
Proof.
  split; [repeat constructor; simpl; lia|].
  eexists. split; [vm_compute; reflexivity|]. by vm_compute.
Qed.

(** ** The SRTF selection rule *)

Lemma NoDup_pid_app_cons l1 p l2 q :
  NoDup (pid <$> l1 ++ p :: l2) → q ∈ l1 ++ l2 → pid p ≠ pid q.
Proof.
  rewrite fmap_app, fmap_cons. intros Hnd Hq E.
  apply NoDup_app in Hnd as (_ & Hd & Hnd2).
  apply NoDup_cons in Hnd2 as [Hp2 _].
  apply elem_of_app in Hq as [Hq|Hq].
  - apply (Hd (pid q)); [by apply list_elem_of_fmap_2|].
    rewrite <- E. left.
  - apply Hp2. rewrite E. by apply list_elem_of_fmap_2.
Qed.

(** The process that has just run keeps the CPU unless a process with
    strictly less remaining time is there: processes that were already
    waiting lost to it one unit ago, and a newcomer with the same
    remaining time arrived later. *)
Lemma srtf_incumbent_keeps_cpu l st p :
  valid_procs l → NoDup (pid <$> l) →
  srtf_reachable l st →
  (size (s_completed st) < length l)%nat →
  srtf_pick l st = Some p →
  let st' := srtf_spec_step l st in
  0 < s_remaining_burst st' !!! pid p →
  (∀ q, q ∈ l → arrival q = s_time st' →
        s_remaining_burst st' !!! pid p ≤ burst q) →
  srtf_pick l st' = Some p.
Proof.
  intros Hv Hnd Hreach Hguard Hpick st' Hpos Hnew.
  pose proof (srtf_reachable_inv l Hv Hnd st Hreach) as Hinv.
  assert (srtf_inv l st') as Hinv' by by apply srtf_inv_step.
  unfold st', srtf_spec_step in *. rewrite Hpick in *.
  cbn [s_remaining_burst s_time] in *.
  rewrite lookup_total_insert_eq in *.
  unfold srtf_pick in Hpick.
  destruct (select _ _ l) as [[c rest]|] eqn:Es; [|done].
  injection Hpick as ->.
  apply select_Some_split in Es as (l1 & l2 & El & _ & Hp & H1 & H2).
  apply bool_decide_eq_true in Hp as [Hparr Hprb].
  assert (∀ q, q ∈ l1 ++ l2 →
    <[pid p := s_remaining_burst st !!! pid p - 1]> (s_remaining_burst st)
      !!! pid q = s_remaining_burst st !!! pid q) as Hother.
  { intros q Hq. rewrite lookup_total_insert_ne; [done|].
    eapply NoDup_pid_app_cons; [|exact Hq]. by rewrite <- El. }
  assert (∀ q, q ∈ l1 ++ l2 → arrival q = s_time st + 1 →
    s_remaining_burst st !!! pid q = burst q) as Hfresh.
  { intros q Hq Hq'.
    destruct (inv_rb _ _ Hinv q) as (r & Hr & Hr01 & _ & Hex).
    { rewrite El. apply elem_of_app in Hq as [?|?]; apply elem_of_app;
        [by left|right; by right]. }
    rewrite (lookup_total_correct _ _ _ Hr). lia. }
  assert (∀ q, q ∈ l1 ++ l2 → q ∈ l) as Hin.
  { intros q Hq. rewrite El. apply elem_of_app in Hq as [?|?];
      apply elem_of_app; [by left|right; by right]. }
  unfold srtf_pick. rewrite El at 1.
  rewrite (select_intro _ _ l1 p l2); [done| | |].
  - apply bool_decide_eq_true. cbn [s_time s_remaining_burst].
    rewrite lookup_total_insert_eq. split; [lia|done].
  - apply Forall_forall. intros q Hq. cbn [s_time s_remaining_burst].
    assert (q ∈ l1 ++ l2) as Hq' by (apply elem_of_app; by left).
    rewrite lookup_total_insert_eq, (Hother q Hq').
    rewrite bool_decide_eq_true, lex_le_Z_false. intros [Hqa Hqr].
    destruct (decide (arrival q ≤ s_time st)) as [Hold|Hnewq].
    + eapply Forall_forall in H1; [|exact Hq]. cbn beta in H1.
      rewrite bool_decide_eq_true, lex_le_Z_false in H1.
      specialize (H1 (conj Hold Hqr)). lia.
    + assert (arrival q = s_time st + 1) as Eq by lia.
      specialize (Hnew q (Hin q Hq') Eq).
      rewrite (Hfresh q Hq' Eq). lia.
  - apply Forall_forall. intros q Hq. cbn [s_time s_remaining_burst].
    assert (q ∈ l1 ++ l2) as Hq' by (apply elem_of_app; by right).
    rewrite lookup_total_insert_eq, (Hother q Hq').
    rewrite bool_decide_eq_true, lex_le_Z. intros [Hqa Hqr].
    destruct (decide (arrival q ≤ s_time st)) as [Hold|Hnewq].
    + eapply Forall_forall in H2; [|exact Hq]. cbn beta in H2.
      rewrite bool_decide_eq_true, lex_le_Z in H2.
      specialize (H2 (conj Hold Hqr)). lia.
    + assert (arrival q = s_time st + 1) as Eq by lia.
      specialize (Hnew q (Hin q Hq') Eq).
      rewrite (Hfresh q Hq' Eq). lia.
Qed.

(** C2: with a valid list of pairwise distinct pids, every iteration of
    [srtf_scheduler] runs for one unit the arrived, unfinished process of
    least remaining burst, ties going to the earliest arrival and then to
    the earlier position in the input (and idles if there is none); a
    process arriving now whose burst equals the remaining time of a
    process already started is not chosen; and the returned rows hold, for
    every process, the row [pid, AT, BT, CT, CT - AT, CT - AT - BT] whose
    completion time [CT] is the time just after its last unit in the
    timeline. *)
Theorem srtf_runs_shortest_remaining (l : list Process) :
  valid_procs l → NoDup (pid <$> l) →
  is_Some (srtf_scheduler (Z.to_nat (max_arrival l + total_burst l)) l) ∧
  (∀ st, srtf_reachable l st →
     srtf_body (sorted arrival l) (dict_of arrival (sorted arrival l)) st
       = srtf_spec_step l st ∧
     (∀ p, p ∈ l →
        0 ≤ s_remaining_burst st !!! pid p ∧
        (s_completed st !! pid p = None ↔ 0 < s_remaining_burst st !!! pid p)) ∧
     (∀ p q, p ∈ l → q ∈ l →
        s_remaining_burst st !!! pid p < burst p →
        0 < s_remaining_burst st !!! pid p →
        arrival q = s_time st →
        s_remaining_burst st !!! pid q = s_remaining_burst st !!! pid p →
        srtf_pick l st ≠ Some q)) ∧
  (∀ st p, srtf_reachable l st →
     (size (s_completed st) < length l)%nat →
     srtf_pick l st = Some p →
     let st' := srtf_spec_step l st in
     0 < s_remaining_burst st' !!! pid p →
     (∀ q, q ∈ l → arrival q = s_time st' →
           s_remaining_burst st' !!! pid p ≤ burst q) →
     srtf_pick l st' = Some p) ∧
  (∀ st,
     let rem p := s_remaining_burst st !!! pid p in
     let avail p := arrival p ≤ s_time st ∧ 0 < rem p in
     match srtf_pick l st with
     | Some cur =>
         avail cur ∧
         ∃ l1 l2, l = l1 ++ cur :: l2 ∧
           Forall (λ q, avail q →
                        rem cur < rem q ∨
                        (rem cur = rem q ∧ arrival cur < arrival q)) l1 ∧
           Forall (λ q, avail q →
                        rem cur < rem q ∨
                        (rem cur = rem q ∧ arrival cur ≤ arrival q)) l2
     | None => Forall (λ q, ¬ avail q) l
     end) ∧
  (∀ fuel res, srtf_scheduler fuel l = Some res →
     (∀ p, p ∈ l →
        ∃ ct, mkRow (pid p) (arrival p) (burst p) ct (ct - arrival p)
                    (ct - arrival p - burst p) ∈ sched_rows res ∧
              0 < ct ∧
              sched_timeline res !! Z.to_nat (ct - 1)
                = Some (mkUnit (ct - 1) (pid p)) ∧
              ((∀ q, q ∈ l → pid q ≠ IDLE) →
               ∀ (j : nat) u, sched_timeline res !! j = Some u →
                              running u = pid p → Z.of_nat j < ct)) ∧
     ((∀ q, q ∈ l → pid q ≠ IDLE) →
      ∀ (i : nat) u, sched_timeline res !! i = Some u →
        u = mkUnit (Z.of_nat i) (srtf_occupant l (take i (sched_timeline res))))).
Proof.
  intros Hv Hnd. split; [by apply srtf_scheduler_terminates|].
  split; [|split; [intros st p; by apply srtf_incumbent_keeps_cpu|split]].
  - intros st Hreach.
    pose proof (srtf_reachable_inv l Hv Hnd st Hreach) as Hinv.
    split; [by apply srtf_inv_body|]. split.
    + intros p Hp. destruct (inv_rb _ _ Hinv p Hp) as (r & Hr & Hr01 & Hc & _).
      rewrite (lookup_total_correct _ _ _ Hr). split; [lia|done].
    + intros p q Hp Hq Hstarted Hpos Harr Heq Hpick.
      destruct (inv_rb _ _ Hinv p Hp) as (r & Hr & Hr01 & _ & Hex).
      rewrite (lookup_total_correct _ _ _ Hr) in *.
      assert (arrival p < s_time st) as Hparr by lia.
      unfold srtf_pick in Hpick.
      destruct (select _ _ l) as [[c rest]|] eqn:Es; [|done].
      injection Hpick as ->.
      apply select_Some_split in Es as (l1 & l2 & El & _ & _ & H1 & H2).
      rewrite El in Hp. apply elem_of_app in Hp as [Hp|Hp].
      * eapply Forall_forall in H1; [|exact Hp]. cbn beta in H1.
        rewrite (lookup_total_correct _ _ _ Hr) in H1.
        rewrite lex_le_Z_false in H1.
        rewrite bool_decide_eq_true in H1. lia.
      * apply elem_of_cons in Hp as [->|Hp]; [lia|].
        eapply Forall_forall in H2; [|exact Hp]. cbn beta in H2.
        rewrite (lookup_total_correct _ _ _ Hr) in H2.
        rewrite lex_le_Z in H2.
        rewrite bool_decide_eq_true in H2. lia.
  - intros st rem avail. unfold srtf_pick.
    destruct (select _ _ l) as [[c rest]|] eqn:Es; simpl.
    + apply select_Some_split in Es as (l1 & l2 & El & _ & Hc & H1 & H2).
      apply bool_decide_eq_true in Hc. split; [done|].
      exists l1, l2. split; [done|]. split.
      * eapply Forall_impl; [exact H1|]. intros q Hq Ha. cbn beta in Hq.
        rewrite bool_decide_eq_true, lex_le_Z_false in Hq.
        specialize (Hq Ha). unfold rem. lia.
      * eapply Forall_impl; [exact H2|]. intros q Hq Ha. cbn beta in Hq.
        rewrite bool_decide_eq_true, lex_le_Z in Hq.
        specialize (Hq Ha). unfold rem. lia.
    + apply select_None in Es. eapply Forall_impl; [exact Es|].
      intros q Hq. cbn beta in Hq. by apply bool_decide_eq_false in Hq.
  - intros fuel res Hres. destruct l as [|p0 l0].
    { injection Hres as <-. split; [by intros p ?%elem_of_nil|].
      intros _ i u. unfold sched_timeline. simpl. by rewrite lookup_nil. }
    set (l := p0 :: l0) in *.
    destruct (srtf_scheduler_Some l fuel res) as (st & Hreach & Hsz & ->);
      [done..|].
    pose proof (srtf_reachable_inv l Hv Hnd st Hreach) as Hinv.
    pose proof (completed_all l _ Hnd (inv_dom _ _ Hinv) Hsz) as Hall.
    unfold sched_rows, sched_timeline. cbn [fst snd]. split.
    + intros p Hp. destruct (Hall p Hp) as [ct Hc]. exists ct.
      destruct (inv_ct _ _ Hinv p ct Hp Hc) as (Hct1 & _ & Hct3).
      split; [|split; [lia|split; [done|]]].
      * change (mkRow _ _ _ _ _ _) with (result_row p ct).
        apply list_elem_of_fmap. exists p.
        rewrite (lookup_total_correct _ _ _ Hc). split; [done|].
        by apply sorted_elem_of.
      * intros Hidle j u Hj Hu.
        destruct (inv_busy _ _ Hinv Hidle) as (_ & _ & _ & Hb4).
        by eapply Hb4.
    + intros Hidle i u Hi.
      destruct (inv_busy _ _ Hinv Hidle) as (_ & _ & Hb3 & _).
      destruct (inv_time _ _ Hinv) as [_ Hcont].
      rewrite <- (Hb3 i u Hi), <- (Hcont i u Hi). by destruct u.
Qed.

Lemma srtf_runs_shortest_remaining_witness :
  valid_procs example_procs ∧ NoDup (pid <$> example_procs) ∧
  is_Some (srtf_scheduler
             (Z.to_nat (max_arrival example_procs + total_burst example_procs))
             example_procs).
Proof.
  split; [|split].
  - unfold valid_procs, example_procs. repeat constructor; simpl; lia.
  - apply (bool_decide_unpack _). by vm_compute.
  - apply (srtf_runs_shortest_remaining example_procs).
    + unfold valid_procs, example_procs. repeat constructor; simpl; lia.
    + apply (bool_decide_unpack _). by vm_compute.
Defined.

(** C2 as worded, for every valid list, fails when a pid repeats.  On
    A(0,2), A(5,1) the dictionaries of [srtf_scheduler] keep, under ["A"],
    the arrival 5 and the burst 1 of the second process: the process
    A(0,2) has arrived at time 0 with its whole burst left and is the one
    the rule selects, yet the loop idles through units 0 to 4, runs ["A"]
    once at time 5, and then idles for ever, as [completed] holds one key
    and never two: nothing is returned and no completion time is
    recorded. *)
Lemma srtf_repeated_pid_counterexample :
  valid_procs repeated_pid_procs ∧
  srtf_choice repeated_pid_procs [] = Some (mkProcess "A" 0 2 0) ∧
  s_timeline
    (Nat.iter 6 (srtf_body (sorted arrival repeated_pid_procs)
                           (dict_of arrival (sorted arrival repeated_pid_procs)))
                (srtf_init (sorted arrival repeated_pid_procs)))
    = [mkUnit 0 IDLE; mkUnit 1 IDLE; mkUnit 2 IDLE; mkUnit 3 IDLE;
       mkUnit 4 IDLE; mkUnit 5 "A"] ∧
  (∀ fuel, srtf_scheduler fuel repeated_pid_procs = None).
Proof.
  split; [repeat constructor; simpl; lia|].
  split; [by vm_compute|]. split; [by vm_compute|].
  intros fuel. apply srtf_scheduler_dup_diverges.
  unfold repeated_pid_procs. simpl. intros H.
  apply NoDup_cons in H as [H _]. apply H. left.
Qed.

(** ** The worked example *)

Lemma sjf_loop_mono fuel k st s :
  sjf_loop fuel st = Some s → sjf_loop (fuel + k) st = Some s.
Proof.
  revert st. induction fuel as [|fuel IH]; intros st; simpl.
  - destruct (j_remaining st) eqn:E1, (j_ready st) eqn:E2; try done.
    intros [= <-]. destruct k; simpl; by rewrite E1, E2.
  - destruct (j_remaining st), (j_ready st); try done; apply IH.
Qed.

Lemma srtf_loop_mono fuel k procs n amap st s :
  srtf_loop fuel procs n amap st = Some s →
  srtf_loop (fuel + k) procs n amap st = Some s.
Proof.
  revert st. induction fuel as [|fuel IH]; intros st; simpl.
  - case_bool_decide as Hg; [done|]. intros [= <-].
    destruct k; simpl; by rewrite bool_decide_eq_false_2.
  - case_bool_decide; [apply IH|done].
Qed.

Lemma sjf_scheduler_mono fuel k l res :
  sjf_nonpreemptive_scheduler fuel l = Some res →
  sjf_nonpreemptive_scheduler (fuel + k) l = Some res.
Proof.
  destruct l as [|p l]; [done|]. unfold sjf_nonpreemptive_scheduler.
  destruct (sjf_loop fuel _) as [st|] eqn:E; [|done].
  by rewrite (sjf_loop_mono _ k _ _ E).
Qed.

Lemma srtf_scheduler_mono fuel k l res :
  srtf_scheduler fuel l = Some res → srtf_scheduler (fuel + k) l = Some res.
Proof.
  destruct l as [|p l]; [done|]. unfold srtf_scheduler.
  destruct (srtf_loop fuel _ _ _ _) as [st|] eqn:E; [|done].
  by rewrite (srtf_loop_mono _ k _ _ _ _ _ E).
Qed.

(** C1: on P1(0,5), P2(1,3), P3(2,8), P4(3,6): FCFS completes P1=5, P2=8,
    P3=16, P4=22 with averages 11.25 and 5.75; SJF completes P1=5, P2=8,
    P4=14, P3=22 with averages 10.75 and 5.25; SRTF completes P2=4, P1=8,
    P4=14, P3=22 with averages 10.5 and 5.0. *)
Theorem example_scenario :
  (completions (sched_rows (fcfs_scheduler example_procs))
     = [("P1", 5); ("P2", 8); ("P3", 16); ("P4", 22)] ∧
   ∃ table a w,
     results_table_with_metrics (sched_rows (fcfs_scheduler example_procs))
       = (table, Some a, Some w) ∧ Qeq a 11.25 ∧ Qeq w 5.75) ∧
  (∀ k, ∃ res,
     sjf_nonpreemptive_scheduler (4 + k) example_procs = Some res ∧
     completions (sched_rows res)
       = [("P1", 5); ("P2", 8); ("P4", 14); ("P3", 22)] ∧
     ∃ table a w,
       results_table_with_metrics (sched_rows res) = (table, Some a, Some w) ∧
       Qeq a 10.75 ∧ Qeq w 5.25) ∧
  (∀ k, ∃ res,
     srtf_scheduler (22 + k) example_procs = Some res ∧
     completions (sched_rows res)
       = [("P1", 8); ("P2", 4); ("P3", 22); ("P4", 14)] ∧
     ∃ table a w,
       results_table_with_metrics (sched_rows res) = (table, Some a, Some w) ∧
       Qeq a 10.5 ∧ Qeq w 5.0).
Proof.
  split; [|split].
  - split; [by vm_compute|]. eexists _, _, _.
    split; [vm_compute; reflexivity|]. by vm_compute.
  - intros k.
    destruct (sjf_nonpreemptive_scheduler 4 example_procs) as [res|] eqn:E;
      [|by vm_compute in E].
    exists res. split; [by apply sjf_scheduler_mono|].
    vm_compute in E. injection E as <-.
    split; [by vm_compute|]. eexists _, _, _.
    split; [vm_compute; reflexivity|]. by vm_compute.
  - intros k.
    destruct (srtf_scheduler 22 example_procs) as [res|] eqn:E;
      [|by vm_compute in E].
    exists res. split; [by apply srtf_scheduler_mono|].
    vm_compute in E. injection E as <-.
    split; [by vm_compute|]. eexists _, _, _.
    split; [vm_compute; reflexivity|]. by vm_compute.
Qed.

(** ** Segment merging *)

Lemma append_cpu_segment_acc cur s acc e :
  append_cpu_segment (mkMerge cur s acc) e
  = acc ++ append_cpu_segment (mkMerge cur s []) e.
Proof.
  unfold append_cpu_segment. simpl. case_bool_decide; [done|].
  by rewrite app_nil_r.
Qed.

Lemma merge_fold cur s acc rest seg_end :
  append_cpu_segment (foldl merge_step (mkMerge cur s acc) rest) seg_end
  = acc ++ merge_rec cur s seg_end rest.
Proof.
  revert cur s acc. induction rest as [|e rest IH]; intros cur s acc.
  { simpl. apply append_cpu_segment_acc. }
  cbn [foldl merge_rec]. unfold merge_step at 2. cbn [m_cur_pid].
  case_bool_decide.
  - rewrite IH, append_cpu_segment_acc. by rewrite <- app_assoc.
  - apply IH.
Qed.

Lemma group_runs_cons_head u tl :
  ∃ g gs, group_runs (u :: tl) = (u :: g) :: gs.
Proof.
  simpl. destruct (group_runs tl) as [|[|v g] gs]; eauto.
  destruct (decide (running u = running v)); eauto.
Qed.

Lemma group_runs_cons u v tl :
  group_runs (u :: v :: tl) =
    match group_runs (v :: tl) with
    | g :: gs =>
        if decide (running u = running v) then (u :: g) :: gs
        else [u] :: g :: gs
    | [] => [[u]]
    end.
Proof.
  destruct (group_runs_cons_head v tl) as (g & gs & E).
  change (group_runs (u :: v :: tl)) with
    (match group_runs (v :: tl) with
     | (w :: g) :: gs =>
         if decide (running u = running w) then (u :: w :: g) :: gs
         else [u] :: (w :: g) :: gs
     | _ => [[u]]
     end).
  by rewrite E.
Qed.

(** A run of one occupant in front of a different occupant is a group. *)
Lemma group_runs_app_diff c pre e rest :
  pre ≠ [] → Forall (λ u, running u = c) pre → running e ≠ c →
  group_runs (pre ++ e :: rest) = pre :: group_runs (e :: rest).
Proof.
  intros Hne Hall He. induction Hall as [|u pre Hu Hall IH]; [done|].
  destruct pre as [|v pre].
  - cbn [app]. rewrite group_runs_cons.
    destruct (group_runs_cons_head e rest) as (g & gs & E). rewrite E.
    rewrite decide_False by congruence. done.
  - cbn [app] in *. rewrite group_runs_cons, IH by done.
    apply Forall_cons in Hall as [Hv _].
    rewrite decide_True by congruence. done.
Qed.

Lemma group_runs_const c pre :
  pre ≠ [] → Forall (λ u, running u = c) pre → group_runs pre = [pre].
Proof.
  intros Hne Hall. induction Hall as [|u pre Hu Hall IH]; [done|].
  destruct pre as [|v pre]; [done|].
  rewrite group_runs_cons, IH by done.
  apply Forall_cons in Hall as [Hv _].
  rewrite decide_True by congruence. done.
Qed.

Lemma contiguous_from_app t0 l1 l2 :
  contiguous_from t0 (l1 ++ l2) ↔
  contiguous_from t0 l1 ∧ contiguous_from (t0 + Z.of_nat (length l1)) l2.
Proof.
  unfold contiguous_from. split.
  - intros H. split.
    + intros i u Hi. apply H. by apply lookup_app_l_Some.
    + intros i u Hi. rewrite (H (length l1 + i)%nat u); [lia|].
      rewrite lookup_app_r by lia.
      by replace (length l1 + i - length l1)%nat with i by lia.
  - intros [H1 H2] i u Hi. apply lookup_app_Some in Hi as [Hi|[Hlen Hi]].
    + by apply H1.
    + rewrite (H2 _ _ Hi). lia.
Qed.

Lemma last_app_cons {A} (l1 : list A) x l2 d :
  default d (last (l1 ++ x :: l2)) = default x (last (x :: l2)).
Proof.
  rewrite last_app. destruct (last (x :: l2)) eqn:E; [done|].
  by rewrite last_cons in E; destruct (last l2).
Qed.

(** The merging loop yields the segments of the maximal runs. *)
Lemma merge_rec_spec t0 c pre rest u0 :
  contiguous_from t0 (pre ++ rest) →
  head pre = Some u0 → Forall (λ u, running u = c) pre →
  merge_rec c (time u0)
            (time (default u0 (last (pre ++ rest))) + 1) rest
  = omap segment_of_run (group_runs (pre ++ rest)).
Proof.
  revert t0 c pre u0.
  induction rest as [|e rest IH]; intros t0 c pre u0 Hc Hhd Hall.
  - rewrite app_nil_r in *. destruct pre as [|u pre]; [done|].
    injection Hhd as ->.
    rewrite (group_runs_const c) by done. cbn [merge_rec omap list_omap].
    apply Forall_cons in Hall as [Hu _].
    unfold append_cpu_segment, segment_of_run. cbn [m_cur_pid m_seg_start m_segments].
    rewrite <- Hu. destruct (decide (running u0 = IDLE)) as [E|E].
    + by rewrite bool_decide_eq_false_2 by (intros H; by apply H).
    + by rewrite bool_decide_eq_true_2.
  - cbn [merge_rec]. destruct pre as [|u pre]; [done|].
    injection Hhd as ->. case_bool_decide as Hd.
    + rewrite (group_runs_app_diff c) by done.
      cbn [omap list_omap].
      pose proof Hc as Hc'.
      apply contiguous_from_app in Hc' as [Hc1 Hc2].
      assert (time e = time (default u0 (last (u0 :: pre))) + 1) as He.
      { rewrite (Hc2 0%nat e eq_refl).
        destruct (last (u0 :: pre)) as [w|] eqn:Ew; [|by rewrite last_cons in Ew; destruct (last pre)].
        apply last_Some in Ew as [pre' Epre].
        change (default u0 (Some w)) with w.
        assert (length (u0 :: pre) = S (length pre')) as Hl.
        { rewrite Epre, length_app. simpl. lia. }
        rewrite (Hc1 (length pre') w).
        - rewrite Hl. lia.
        - rewrite Epre. rewrite lookup_app_r by lia.
          by replace (length pre' - length pre')%nat with 0%nat by lia. }
      specialize (IH (t0 + Z.of_nat (length (u0 :: pre))) (running e) [e] e).
      cbn [app] in IH. rewrite <- IH; [| |done|by repeat constructor].
      * rewrite last_app_cons.
        f_equal. apply Forall_cons in Hall as [Hu _].
        unfold append_cpu_segment, segment_of_run.
        cbn [m_cur_pid m_seg_start m_segments]. rewrite <- Hu, He.
        destruct (decide (running u0 = IDLE)) as [E|E].
        -- by rewrite bool_decide_eq_false_2 by (intros H; by apply H).
        -- by rewrite bool_decide_eq_true_2.
      * exact Hc2.
    + assert (running e = c) as Ee.
      { destruct (decide (running e = c)) as [?|Hn]; [done|].
        exfalso. first [by apply Hd|by apply Hn]. }
      specialize (IH t0 c ((u0 :: pre) ++ [e]) u0).
      rewrite <- !app_assoc in IH. cbn [app] in IH. apply IH; [done..|].
      change (u0 :: pre ++ [e]) with ((u0 :: pre) ++ [e]).
      apply Forall_app. split; [done|]. by repeat constructor.
Qed.

Lemma gantt_segments_of_spec t0 tl :
  contiguous_from t0 tl → gantt_segments_of tl = segments_spec tl.
Proof.
  intros Hc. destruct tl as [|e0 rest]; [done|].
  unfold gantt_segments_of, segments_spec.
  rewrite merge_fold. cbn [app].
  apply (merge_rec_spec t0 (running e0) [e0] rest e0); [done..|].
  by repeat constructor.
Qed.

Lemma group_runs_concat tl : concat (group_runs tl) = tl.
Proof.
  induction tl as [|u tl IH]; [done|].
  destruct tl as [|v tl]; [done|].
  rewrite group_runs_cons.
  destruct (group_runs (v :: tl)) as [|g gs]; [done|].
  destruct (decide (running u = running v)); simpl in *; by rewrite IH.
Qed.

Lemma group_runs_constant tl :
  Forall (λ g, ∃ u g', g = u :: g' ∧ Forall (λ v, running v = running u) g')
         (group_runs tl).
Proof.
  induction tl as [|u tl IH]; [constructor|].
  destruct tl as [|v tl].
  { repeat constructor. exists u, []. by split. }
  rewrite group_runs_cons.
  destruct (group_runs_cons_head v tl) as (g & gs & E). rewrite E in *.
  apply Forall_cons in IH as [(v' & g' & [= <- <-] & Hg) IH].
  destruct (decide (running u = running v)) as [Euv|Euv].
  - constructor; [|done]. exists u, (v :: g). split; [done|].
    constructor; [done|]. eapply Forall_impl; [exact Hg|]. simpl. congruence.
  - constructor; [by exists u, []|]. constructor; [|done]. by exists v, g.
Qed.

Lemma group_runs_maximal tl (i : nat) g1 g2 u v :
  group_runs tl !! i = Some g1 → group_runs tl !! S i = Some g2 →
  last g1 = Some u → head g2 = Some v → running u ≠ running v.
Proof.
  revert i g1 g2 u v. induction tl as [|w tl IH]; intros i g1 g2 u v; [done|].
  destruct tl as [|x tl]; [done|].
  rewrite group_runs_cons.
  destruct (group_runs_cons_head x tl) as (g & gs & E). rewrite E in *.
  destruct (decide (running w = running x)) as [Ewx|Ewx].
  - destruct i as [|i]; simpl.
    + intros [= <-] H2 Hl Hh. eapply (IH 0%nat (x :: g)); [done|exact H2| |done].
      by rewrite last_cons_cons in Hl.
    + intros H1 H2. by eapply (IH (S i)).
  - destruct i as [|i]; simpl.
    + intros [= <-] [= <-] [= <-] [= <-]. done.
    + intros H1 H2. by eapply (IH i).
Qed.

Lemma contiguous_from_group t0 gs g :
  contiguous_from t0 (concat gs) → g ∈ gs → ∃ t, contiguous_from t g.
Proof.
  intros Hc [gs1 [gs2 ->]]%list_elem_of_split.
  rewrite concat_app, concat_cons in Hc.
  apply contiguous_from_app in Hc as [_ Hc].
  apply contiguous_from_app in Hc as [Hc _]. eauto.
Qed.

Lemma srtf_gantt_of_timeline l fuel res :
  srtf_scheduler fuel l = Some res →
  sched_gantt res = gantt_segments_of (sched_timeline res).
Proof.
  destruct l as [|p l]; [by intros [= <-]|]. unfold srtf_scheduler.
  destruct (srtf_loop _ _ _ _ _) as [st|]; [|done]. by intros [= <-].
Qed.

Lemma srtf_timeline_contiguous l fuel res :
  valid_procs l → srtf_scheduler fuel l = Some res →
  contiguous_from 0 (sched_timeline res).
Proof.
  intros Hv Hres.
  assert (∃ T, timeline_upto T (sched_timeline res)) as [T [_ HT]].
  { destruct (decide (NoDup (pid <$> l))) as [Hnd|Hdup].
    - destruct l as [|p l].
      + injection Hres as <-. exists 0. apply timeline_upto_nil.
      + destruct (srtf_scheduler_final (p :: l) fuel res Hv Hnd) as (_ & ? & _);
          [done..|]. eauto.
    - by rewrite srtf_scheduler_dup_diverges in Hres. }
  intros i u Hi. rewrite (HT i u Hi). lia.
Qed.

(** C8: on a timeline of consecutive units the merging step returns, in
    order, one segment per maximal run of one occupant, leaving out the
    runs of the idle sentinel; a segment starts at the first unit of its
    run and ends just after its last one, so segment boundaries are the
    changes of occupant. The timeline itself is returned as it is. *)
Theorem gantt_segments_are_maximal_runs (t0 : Z) (tl : list TimelineUnit) :
  contiguous_from t0 tl →
  gantt_segments_of tl = omap segment_of_run (group_runs tl) ∧
  concat (group_runs tl) = tl ∧
  Forall (λ g, ∃ u g', g = u :: g' ∧ Forall (λ v, running v = running u) g')
         (group_runs tl) ∧
  (∀ (i : nat) g1 g2 u v,
     group_runs tl !! i = Some g1 → group_runs tl !! S i = Some g2 →
     last g1 = Some u → head g2 = Some v → running u ≠ running v) ∧
  (∀ g, g ∈ group_runs tl →
     match segment_of_run g with
     | Some s =>
         g_pid s ≠ IDLE ∧
         g_finish s - g_start s = Z.of_nat (length g) ∧
         Forall (λ u, running u = g_pid s ∧ g_start s ≤ time u < g_finish s) g
     | None => Forall (λ u, running u = IDLE) g
     end) ∧
  (∀ l fuel res, valid_procs l → srtf_scheduler fuel l = Some res →
     contiguous_from 0 (sched_timeline res) ∧
     sched_gantt res = gantt_segments_of (sched_timeline res) ∧
     sched_gantt res = omap segment_of_run (group_runs (sched_timeline res))).
Proof.
  intros Hc. split; [by eapply gantt_segments_of_spec|].
  split; [apply group_runs_concat|]. split; [apply group_runs_constant|].
  split; [apply group_runs_maximal|]. split; cycle 1.
  { intros l fuel res Hv Hres.
    pose proof (srtf_timeline_contiguous l fuel res Hv Hres) as Hc0.
    split; [done|]. split; [by eapply srtf_gantt_of_timeline|].
    rewrite (srtf_gantt_of_timeline l fuel res Hres).
    by eapply gantt_segments_of_spec. }
  intros g Hg.
  pose proof (group_runs_constant tl) as Hconst.
  eapply Forall_forall in Hconst; [|exact Hg].
  destruct Hconst as (u & g' & Eg & Hsame).
  rewrite <- (group_runs_concat tl) in Hc.
  destruct (contiguous_from_group _ _ _ Hc Hg) as [t Ht].
  clear Hg Hc. subst g. unfold segment_of_run.
  destruct (decide (running u = IDLE)) as [E|E].
  { constructor; [done|]. eapply Forall_impl; [exact Hsame|]. simpl. congruence. }
  cbn [g_pid g_start g_finish].
  assert (time u = t) as Eu by (rewrite (Ht 0%nat u eq_refl); lia).
  assert (time (default u (last (u :: g'))) = t + Z.of_nat (length g')) as El.
  { destruct (last (u :: g')) as [w|] eqn:Ew;
      [|by rewrite last_cons in Ew; destruct (last g')].
    apply last_Some in Ew as [pre Epre]. change (default u (Some w)) with w.
    assert (length g' = length pre) as Hl.
    { apply (f_equal length) in Epre. rewrite length_app in Epre.
      simpl in Epre. lia. }
    rewrite (Ht (length pre) w); [lia|].
    rewrite Epre, lookup_app_r by lia.
    by replace (length pre - length pre)%nat with 0%nat by lia. }
  split; [done|]. split; [simpl; lia|].
  apply Forall_forall. intros w Hw.
  apply list_elem_of_lookup in Hw as [i Hi].
  pose proof (Ht i w Hi) as Hti.
  apply lookup_lt_Some in Hi as Hlt. simpl in Hlt.
  split; [|lia].
  destruct i as [|i]; [by injection Hi as <-|].
  simpl in Hi. apply list_elem_of_lookup_2 in Hi.
  by eapply Forall_forall in Hsame.
Qed.

Lemma gantt_segments_are_maximal_runs_witness :
  contiguous_from 0 [mkUnit 0 "IDLE"; mkUnit 1 "A"; mkUnit 2 "A"; mkUnit 3 "B"] ∧
  gantt_segments_of [mkUnit 0 "IDLE"; mkUnit 1 "A"; mkUnit 2 "A"; mkUnit 3 "B"]
  = omap segment_of_run
      (group_runs [mkUnit 0 "IDLE"; mkUnit 1 "A"; mkUnit 2 "A"; mkUnit 3 "B"]).
Proof.
  assert (contiguous_from 0
            [mkUnit 0 "IDLE"; mkUnit 1 "A"; mkUnit 2 "A"; mkUnit 3 "B"]) as Hc.
  { intros [|[|[|[|i]]]] u; simpl; intros [= <-]; simpl; lia. }
  split; [exact Hc|].
  apply (gantt_segments_are_maximal_runs 0 _ Hc).
Defined.

(** ** Metrics *)

Section float_facts.
Local Open Scope Q_scope.

Lemma pow2_pos e : 0 < pow2 e.
Proof. apply Qpower_0_lt. lra. Qed.

Lemma pow2_succ e : pow2 (e + 1) == 2 * pow2 e.
Proof. unfold pow2. rewrite Qpower_plus by lra. rewrite Qpower_1_r. lra. Qed.

Lemma pow2_add a b : pow2 (a + b) == pow2 a * pow2 b.
Proof. unfold pow2. apply Qpower_plus. lra. Qed.

Lemma pow2_inject (k : Z) : (0 ≤ k)%Z → inject_Z (2 ^ k) == pow2 k.
Proof. intros Hk. unfold pow2. by rewrite Zpower_Qpower. Qed.

Lemma rhe_floor x :
  inject_Z (Qfloor x) <= x ∧ x < inject_Z (Qfloor x) + 1.
Proof.
  split; [apply Qfloor_le|].
  pose proof (Qlt_floor x) as H. rewrite inject_Z_plus in H. exact H.
Qed.

Lemma rhe_cases x :
  let f := inject_Z (Qfloor x) in
  (round_half_even x = Qfloor x ∧ x - f <= 1 # 2) ∨
  (round_half_even x = (Qfloor x + 1)%Z ∧ 1 # 2 <= x - f).
Proof.
  intros f. unfold round_half_even.
  destruct (Qcompare (x - inject_Z (Qfloor x)) (1 # 2)) eqn:E.
  - apply Qeq_alt in E. fold f in E.
    destruct (Z.even (Qfloor x)); [left|right]; split; try done; lra.
  - apply Qlt_alt in E. fold f in E. left. split; [done|lra].
  - apply Qgt_alt in E. fold f in E. right. split; [done|lra].
Qed.

Lemma rhe_nearest x (k : Z) :
  Qabs (inject_Z (round_half_even x) - x) <= Qabs (inject_Z k - x).
Proof.
  destruct (rhe_floor x) as [F1 F2].
  assert (inject_Z k <= inject_Z (Qfloor x) ∨
          inject_Z (Qfloor x) + 1 <= inject_Z k) as Hk.
  { destruct (Z_le_gt_dec k (Qfloor x)) as [Hle|Hgt].
    - left. by rewrite <- Zle_Qle.
    - right. rewrite <- (inject_Z_plus _ 1), <- Zle_Qle. lia. }
  destruct (rhe_cases x) as [[-> H]|[-> H]]; rewrite ?inject_Z_plus;
    apply Qabs_case; intros; apply Qabs_case; intros;
    change (inject_Z 1) with 1 in *; destruct Hk; lra.
Qed.

Lemma rhe_ge x (k : Z) : inject_Z k <= x → (k ≤ round_half_even x)%Z.
Proof.
  intros Hk. assert (k ≤ Qfloor x)%Z as Hf.
  { rewrite <- (Qfloor_Z k). by apply Qfloor_resp_le. }
  destruct (rhe_cases x) as [[-> _]|[-> _]]; lia.
Qed.

Lemma rhe_le x (k : Z) : x <= inject_Z k → (round_half_even x ≤ k)%Z.
Proof.
  intros Hk. destruct (rhe_floor x) as [F1 F2].
  destruct (rhe_cases x) as [[-> H]|[-> H]].
  - rewrite Zle_Qle. lra.
  - assert (inject_Z (Qfloor x) < inject_Z k) as Hlt by (simpl in H; lra).
    rewrite <- Zlt_Qlt in Hlt. lia.
Qed.

Lemma binade_spec x :
  0 < x → pow2 (binade x + 52) <= x ∧ x < pow2 (binade x + 53).
Proof.
  intros Hx. destruct x as [n d]. unfold binade. cbn [Qnum Qden].
  assert (0 < n)%Z as Hn by (unfold Qlt in Hx; simpl in Hx; lia).
  set (ln := Z.log2 n). set (ld := Z.log2 (Z.pos d)).
  assert (0 ≤ ln)%Z as Hln by apply Z.log2_nonneg.
  assert (0 ≤ ld)%Z as Hld by apply Z.log2_nonneg.
  destruct (Z.log2_spec n Hn) as [N1 N2]. fold ln in N1, N2.
  destruct (Z.log2_spec (Z.pos d) eq_refl) as [D1 D2]. fold ld in D1, D2.
  rewrite Zle_Qle, pow2_inject in N1, D1 by lia.
  rewrite Zlt_Qlt, <- Z.add_1_r, pow2_inject, pow2_succ in N2, D2 by lia.
  pose proof (pow2_pos ln) as PN. pose proof (pow2_pos ld) as PD.
  pose proof (pow2_pos (ln - ld)) as PL.
  assert (pow2 (ln - ld) * pow2 ld == pow2 ln) as HP.
  { rewrite <- pow2_add. by replace (ln - ld + ld)%Z with ln by lia. }
  assert ((n # d) * inject_Z (Z.pos d) == inject_Z n) as Hx'.
  { rewrite (Qmake_Qdiv n d). field. unfold Qeq. simpl. lia. }
  set (x := n # d) in *. set (dq := inject_Z (Z.pos d)) in *.
  set (nq := inject_Z n) in *.
  set (P := pow2 (ln - ld)) in *. set (Dq := pow2 ld) in *.
  set (Nq := pow2 ln) in *.
  assert (x < 2 * P) as U.
  { apply Qnot_le_lt. intros C.
    assert (2 * P * dq <= x * dq) by (apply Qmult_le_compat_r; lra).
    assert (2 * P * Dq <= 2 * P * dq) by (apply Qmult_le_l; lra).
    lra. }
  assert (P < 2 * x) as L.
  { apply Qnot_le_lt. intros C.
    assert (2 * x * dq <= P * dq) by (apply Qmult_le_compat_r; lra).
    assert (P * dq < P * (2 * Dq)) by (apply Qmult_lt_l; lra).
    lra. }
  destruct (Qle_bool P x) eqn:E.
  - apply Qle_bool_iff in E.
    replace (ln - ld - 52 + 52)%Z with (ln - ld)%Z by lia.
    replace (ln - ld - 52 + 53)%Z with (ln - ld + 1)%Z by lia.
    rewrite pow2_succ. fold P. split; lra.
  - assert (x < P) as E'.
    { apply Qnot_le_lt. intros C. apply Qle_bool_iff in C. congruence. }
    replace (ln - ld - 1 - 52 + 53)%Z with (ln - ld)%Z by lia.
    replace (ln - ld - 1 - 52 + 52)%Z with (ln - ld - 1)%Z by lia.
    fold P. assert (2 * pow2 (ln - ld - 1) == P) as HP2.
    { rewrite <- pow2_succ. unfold P. by replace (ln - ld - 1 + 1)%Z
        with (ln - ld)%Z by lia. }
    split; lra.
Qed.

Lemma Qabs_scale u P : 0 < P → Qabs (u * P) == Qabs u * P.
Proof. intros HP. rewrite Qabs_Qmult, (Qabs_pos P); [reflexivity|lra]. Qed.

Lemma Qsgn_abs q : q == inject_Z (Z.sgn (Qnum q)) * Qabs q.
Proof. destruct q as [[|n|n] d]; unfold Qeq; simpl; lia. Qed.

Lemma Qsgn_cases q :
  (q == 0 ∧ Z.sgn (Qnum q) = 0%Z) ∨
  (0 < q ∧ Z.sgn (Qnum q) = 1%Z ∧ Qabs q == q) ∨
  (q < 0 ∧ Z.sgn (Qnum q) = (-1)%Z ∧ Qabs q == - q).
Proof.
  destruct q as [[|n|n] d]; [left|right; left|right; right];
    unfold Qeq, Qlt; simpl; repeat split; lia.
Qed.

Lemma round64_eq q :
  round64 q ==
  inject_Z (Z.sgn (Qnum q))
  * inject_Z (round_half_even (Qabs q / pow2 (binade (Qabs q))))
  * pow2 (binade (Qabs q)).
Proof. unfold round64. cbv zeta. by rewrite Qred_correct, inject_Z_mult. Qed.

Lemma round64_mantissa a :
  0 < a →
  pow2 52 <= a / pow2 (binade a) ∧ a / pow2 (binade a) < pow2 53 ∧
  (2 ^ 52 ≤ round_half_even (a / pow2 (binade a)) ≤ 2 ^ 53)%Z.
Proof.
  intros Ha. destruct (binade_spec a Ha) as [B1 B2].
  pose proof (pow2_pos (binade a)) as HP.
  rewrite pow2_add in B1, B2.
  assert (pow2 52 <= a / pow2 (binade a)) as X1.
  { apply Qle_shift_div_l; [done|]. lra. }
  assert (a / pow2 (binade a) < pow2 53) as X2.
  { apply Qlt_shift_div_r; [done|]. lra. }
  split; [done|]. split; [done|]. split.
  - apply rhe_ge. by rewrite pow2_inject.
  - apply rhe_le. rewrite pow2_inject by done. lra.
Qed.

Lemma round64_zero q : q == 0 → round64 q == 0.
Proof.
  intros Hq. rewrite round64_eq.
  destruct (Qsgn_cases q) as [[_ ->]|[[? _]|[? _]]]; [|lra..].
  change (inject_Z 0) with 0. lra.
Qed.

Lemma round64_representable q : representable64 (round64 q).
Proof.
  exists (Z.sgn (Qnum q) * round_half_even (Qabs q / pow2 (binade (Qabs q))))%Z,
         (binade (Qabs q)).
  split; [|by rewrite round64_eq, inject_Z_mult].
  destruct (Qsgn_cases q) as [[_ ->]|[(Hq & -> & Ha)|(Hq & -> & Ha)]]; [lia|..].
  - destruct (round64_mantissa (Qabs q)) as (_ & _ & ?); [lra|]. lia.
  - destruct (round64_mantissa (Qabs q)) as (_ & _ & ?); [lra|]. lia.
Qed.

Lemma Qabs_sign_mult (s : Z) u :
  (s = 1 ∨ s = -1)%Z → Qabs (inject_Z s * u) == Qabs u.
Proof.
  intros [-> | ->].
  - by rewrite Qmult_1_l.
  - assert (inject_Z (-1) * u == - u) as -> by ring. apply Qabs_opp.
Qed.

(** [round64 q] is at least as near to [q] as any other number with a
    53-bit significand. *)
Lemma round64_nearest q y :
  representable64 y → Qabs (round64 q - q) <= Qabs (y - q).
Proof.
  intros (m' & e' & Hm' & Hy).
  destruct (Qsgn_cases q) as [[Hq _]|Hs].
  { rewrite (round64_zero q Hq). rewrite Hq.
    apply Qabs_case; intros; apply Qabs_case; intros; lra. }
  set (a := Qabs q). set (e := binade a). set (P := pow2 e).
  set (x := a / P). set (m := round_half_even x).
  set (s := Z.sgn (Qnum q)) in *.
  assert (0 < a) as Ha
    by (unfold a; destruct Hs as [(? & _ & ->)|(? & _ & ->)]; lra).
  pose proof (pow2_pos e) as HP. fold P in HP.
  destruct (round64_mantissa a Ha) as (X1 & X2 & M1 & M2).
  fold e P x m in X1, X2, M1, M2.
  assert (x * P == a) as Hx by (unfold x; field; lra).
  assert (Z.abs (s * m') ≤ 2 ^ 53)%Z as Hk
    by (destruct Hs as [(_ & -> & _)|(_ & -> & _)]; lia).
  (* the candidate, signed and scaled like [x] *)
  set (z := inject_Z (s * m') * pow2 (e' - e)).
  assert (inject_Z s * y == z * P) as Hz.
  { unfold z. rewrite Hy, inject_Z_mult, Qmult_assoc, <- (Qmult_assoc _ _ P).
    unfold P. rewrite <- pow2_add. by replace (e' - e + e)%Z with e' by lia. }
  assert (Qabs (inject_Z m - x) <= Qabs (z - x)) as Hnear.
  { destruct (Z_le_gt_dec e e') as [Hge|Hlt].
    - assert (z == inject_Z (s * m' * 2 ^ (e' - e))) as ->.
      { unfold z. by rewrite (inject_Z_mult _ (2 ^ _)), pow2_inject by lia. }
      apply rhe_nearest.
    - assert (z <= pow2 52) as Hz52.
      { assert (Qabs z <= pow2 52) as Hz'; [|revert Hz'; apply Qabs_case; lra].
        unfold z. rewrite Qabs_scale by apply pow2_pos.
        assert (Qabs (inject_Z (s * m')) <= pow2 53) as Hm.
        { rewrite <- pow2_inject by done. apply Qabs_Qle_condition.
          rewrite <- inject_Z_opp, <- !Zle_Qle. lia. }
        assert (pow2 (e' - e) <= pow2 (-1)) as Hp.
        { apply Qpower_le_compat_l; [lia|lra]. }
        pose proof (pow2_pos (e' - e)) as Hp0.
        assert (pow2 53 * pow2 (-1) == pow2 52) as E by (by rewrite <- pow2_add).
        assert (Qabs (inject_Z (s * m')) * pow2 (e' - e)
                <= pow2 53 * pow2 (e' - e)) by (apply Qmult_le_compat_r; lra).
        assert (pow2 53 * pow2 (e' - e) <= pow2 53 * pow2 (-1)).
        { apply Qmult_le_l; [apply pow2_pos|done]. }
        lra. }
      pose proof (rhe_nearest x (2 ^ 52)) as Hn. fold m in Hn.
      rewrite pow2_inject in Hn by done.
      revert Hn. apply Qabs_case; intros; apply Qabs_case; intros;
        revert Hn; apply Qabs_case; intros; lra. }
  assert (q == inject_Z s * (x * P)) as Hq'.
  { rewrite Hx. apply Qsgn_abs. }
  pose proof (round64_eq q) as R. fold a e P x m s in R.
  assert (round64 q - q == inject_Z s * ((inject_Z m - x) * P)) as E1.
  { rewrite R. rewrite Hq' at 1. ring. }
  assert (inject_Z s * (y - q) == (z - x) * P) as E2.
  { assert (inject_Z s * inject_Z s == 1) as Hss.
    { destruct Hs as [(_ & Es & _)|(_ & Es & _)]; rewrite Es; reflexivity. }
    transitivity (inject_Z s * y - (inject_Z s * inject_Z s) * (x * P)).
    { rewrite Hq' at 1. ring. }
    rewrite Hss, Hz. ring. }
  assert (s = 1 ∨ s = -1)%Z as Hs1.
  { destruct Hs as [(_ & Es & _)|(_ & Es & _)]; rewrite Es; auto. }
  rewrite <- (Qabs_sign_mult s (y - q)) by done.
  rewrite E1, E2, Qabs_sign_mult, !Qabs_scale by done.
  apply Qmult_le_compat_r; [done|lra].
Qed.

Lemma round64_exact q : representable64 q → round64 q == q.
Proof.
  intros Hq. pose proof (round64_nearest q q Hq) as H.
  revert H. apply Qabs_case; intros; revert H0; apply Qabs_case; intros; lra.
Qed.

Lemma representable64_Z (z : Z) : (Z.abs z ≤ 2 ^ 53)%Z → representable64 (inject_Z z).
Proof. intros Hz. exists z, 0%Z. split; [done|]. unfold pow2. simpl. ring. Qed.
End float_facts.

Lemma round64_red q : Qred (round64 q) = round64 q.
Proof. unfold round64. cbv zeta. apply Qred_complete, Qred_correct. Qed.

(** Integers up to [2^53] in magnitude convert to float64 unchanged. *)
Lemma round64_Z (z : Z) : Z.abs z ≤ 2 ^ 53 → round64 (inject_Z z) = inject_Z z.
Proof.
  intros Hz. pose proof (round64_exact _ (representable64_Z z Hz)) as E.
  apply Qred_complete in E.
  assert (Qred (inject_Z z) = inject_Z z) as Ez.
  { unfold Qred, inject_Z.
    pose proof (Z.ggcd_gcd z 1) as Hg.
    pose proof (Z.ggcd_correct_divisors z 1) as Hd.
    destruct (Z.ggcd z 1) as [g [aa bb]]. simpl in Hg. destruct Hd as [Ha Hb].
    rewrite Z.gcd_1_r in Hg. subst g.
    assert (aa = z) as -> by lia. assert (bb = 1) as -> by lia. done. }
  rewrite Ez in E. by rewrite <- round64_red.
Qed.

Lemma nearest64_exact a x : nearest64 a x → representable64 x → Qeq a x.
Proof.
  intros [_ Hn] Hx. specialize (Hn x Hx). revert Hn.
  apply Qabs_case; intros; revert Hn; apply Qabs_case; intros; lra.
Qed.

Lemma sum_abs_bound (col : list Z) :
  Z.abs (foldr Z.add 0 col) ≤ foldr Z.add 0 (Z.abs <$> col).
Proof.
  induction col as [|x col IH]; [done|].
  rewrite fmap_cons. cbn [foldr]. lia.
Qed.

(** Within the bounds the sum and the count are exact, and the mean is
    the one rounding of the division. *)
Lemma series_mean_nearest (col : list Z) :
  col ≠ [] →
  ∃ a, series_mean col = Some a ∧ representable64 a ∧
       (Z.of_nat (length col) ≤ 2 ^ 53 →
        foldr Z.add 0 (Z.abs <$> col) ≤ 2 ^ 53 →
        nearest64 a (exact_mean col)).
Proof.
  intros Hne. destruct col as [|c col]; [done|].
  eexists. split; [reflexivity|]. split; [apply round64_representable|].
  intros Hn Hs. pose proof (sum_abs_bound (c :: col)) as Hb.
  rewrite !round64_Z by lia.
  split; [apply round64_representable|]. intros y Hy.
  by apply round64_nearest.
Qed.

(** C9: for a table with rows [results_table_with_metrics] returns two
    float64 numbers; when the table has at most [2^53] rows and the
    absolute values of a column add up to at most [2^53], the average
    returned for that column is a float64 nearest to the sum of the column
    divided by the number of rows, and is that quotient when a float64
    holds it.  For the empty table it returns the table with 0.0 and 0.0;
    in no case is an average the NaN of a division by zero. *)
Theorem metrics_are_means (df_results : list Row) :
  (df_results ≠ [] →
   ∃ table a w,
     results_table_with_metrics df_results = (table, Some a, Some w) ∧
     table ≡ₚ df_results ∧
     Z.of_nat (length df_results) ≠ 0 ∧
     representable64 a ∧ representable64 w ∧
     (Z.of_nat (length df_results) ≤ 2 ^ 53 →
      (foldr Z.add 0 (Z.abs <$> (TAT <$> df_results)) ≤ 2 ^ 53 →
       nearest64 a (exact_mean (TAT <$> df_results)) ∧
       (representable64 (exact_mean (TAT <$> df_results)) →
        Qeq a (exact_mean (TAT <$> df_results)))) ∧
      (foldr Z.add 0 (Z.abs <$> (WT <$> df_results)) ≤ 2 ^ 53 →
       nearest64 w (exact_mean (WT <$> df_results)) ∧
       (representable64 (exact_mean (WT <$> df_results)) →
        Qeq w (exact_mean (WT <$> df_results)))))) ∧
  results_table_with_metrics [] = ([], Some 0%Q, Some 0%Q) ∧
  (∃ table a w, results_table_with_metrics df_results = (table, Some a, Some w)).
Proof.
  split; [|split; [done|]].
  - intros Hne.
    destruct (series_mean_nearest (TAT <$> df_results))
      as (a & Ea & Hra & Ha); [by destruct df_results|].
    destruct (series_mean_nearest (WT <$> df_results))
      as (w & Ew & Hrw & Hw); [by destruct df_results|].
    rewrite length_fmap in Ha, Hw.
    exists (sorted r_pid df_results), a, w.
    split; [|split; [apply sorted_perm|split; [|split; [done|split; [done|]]]]].
    + destruct df_results as [|r rs]; [done|].
      unfold results_table_with_metrics. by rewrite Ea, Ew.
    + destruct df_results; [done|]. simpl. lia.
    + intros Hn. split; intros Hs.
      * split; [by apply Ha|]. apply nearest64_exact. by apply Ha.
      * split; [by apply Hw|]. apply nearest64_exact. by apply Hw.
  - destruct df_results as [|r rs]; [by eexists _, _, _|].
    by eexists _, _, _.
Qed.

Lemma metrics_are_means_witness :
  ∃ table a w,
    results_table_with_metrics (sched_rows (fcfs_scheduler example_procs))
      = (table, Some a, Some w) ∧
    nearest64 a (exact_mean (TAT <$> sched_rows (fcfs_scheduler example_procs))) ∧
    Qeq a 11.25.
Proof.
  destruct (metrics_are_means (sched_rows (fcfs_scheduler example_procs)))
    as [H _].
  destruct H as (t & a & w & E & _ & _ & _ & _ & Hb); [done|].
  exists t, a, w. split; [exact E|].
  destruct Hb as [Ha _]; [by vm_compute|].
  destruct Ha as [Hn Hx]; [by vm_compute|].
  split; [exact Hn|].
  eapply Qeq_trans; [apply Hx|by vm_compute].
  exists 45, (-2). split; by vm_compute.
Defined.

(** C9 as worded fails: the average is a float64, and the arithmetic
    mean seldom is one.  FCFS on A(0,1), B(0,1), C(0,2) gives the
    turnaround times 1, 2, 4, whose mean is 7/3; the function returns
    5254199565265579 / 2^51 (printed 2.3333333333333335), and three times
    that is not 7.  The bound on the column is needed as well: the
    turnaround times 2^53 - 1, 1, 1 have the mean 3002399751580331, which
    a float64 holds, but their float64 sum is 2^53 and the function
    returns 3002399751580330.5. *)
Lemma metrics_are_rounded_counterexample :
  (∃ table a w,
     results_table_with_metrics
       (sched_rows (fcfs_scheduler [mkProcess "A" 0 1 0; mkProcess "B" 0 1 0;
                                    mkProcess "C" 0 2 0]))
       = (table, Some a, Some w) ∧
     TAT <$> table = [1; 2; 4] ∧
     a = (5254199565265579 # 2251799813685248)%Q ∧
     ¬ Qeq (a * 3) 7 ∧
     ¬ Qeq a (exact_mean [1; 2; 4])) ∧
  (∃ table a w,
     results_table_with_metrics
       [mkRow "A" 0 9007199254740991 9007199254740991 9007199254740991 0;
        mkRow "B" 0 1 1 1 0; mkRow "C" 0 1 1 1 0]
       = (table, Some a, Some w) ∧
     a = (6004799503160661 # 2)%Q ∧
     Qeq (exact_mean [9007199254740991; 1; 1]) 3002399751580331 ∧
     representable64 (exact_mean [9007199254740991; 1; 1]) ∧
     ¬ Qeq a (exact_mean [9007199254740991; 1; 1])).
Proof.
  split.
  - eexists _, _, _. split; [by vm_compute|]. split; [done|].
    split; [done|]. split; by vm_compute.
  - eexists _, _, _. split; [by vm_compute|]. split; [done|].
    split; [by vm_compute|]. split; [|by vm_compute].
    exists 3002399751580331, 0. split; [by vm_compute|]. by vm_compute.
Qed.

(** ** Input validation *)

Section parse_facts.
Variable int_of_text : string → option Z.
Variable str_of_float : Q → string.

Local Abbreviation py_int' := (py_int int_of_text).
Local Abbreviation row_pid' := (row_pid str_of_float).
Local Abbreviation parse_row' := (parse_row int_of_text str_of_float).
Local Abbreviation parse_rows' := (parse_rows int_of_text str_of_float).
Local Abbreviation parse' := (parse_df_to_processes int_of_text str_of_float).

Lemma cell_missing r col : missing r col → cell r col = CInt 0.
Proof. unfold cell. by intros [-> | ->]. Qed.

Lemma cell_present r col c :
  r !! col = Some c → c ≠ CNaN → cell r col = c.
Proof. unfold cell. intros -> Hc. by destruct c. Qed.

Lemma as_float_idemp c : as_float (as_float c) = as_float c.
Proof. by destruct c. Qed.

Lemma as_float_zero : as_float (CInt 0) = CFloat 0.
Proof. by vm_compute. Qed.

Lemma trunc_inject_Z z : trunc (inject_Z z) = z.
Proof. unfold trunc. simpl. apply Z.quot_1_r. Qed.

(** The integer read from a converted integer is the integer itself
    while it has at most 53 bits. *)
Lemma py_int_as_float z :
  Z.abs z ≤ 2 ^ 53 → py_int' (as_float (CInt z)) = IntOk z.
Proof. intros Hz. simpl. by rewrite round64_Z, trunc_inject_Z. Qed.

(** What the frame holds is the entry, converted in a float64 column. *)
Lemma frame_value_cell df r col :
  frame_value df r col
  = match column_dtype df col with
    | Float64 => as_float (cell r col)
    | _ => cell r col
    end.
Proof.
  unfold frame_value, cell.
  destruct (column_dtype df col), (default CNaN (r !! col)); try done;
    by rewrite as_float_zero.
Qed.

(** What the row loop reads is the entry, converted when its column or
    the row is float64. *)
Lemma row_value_spec df r col :
  row_value df r col
  = if bool_decide (column_dtype df col = Float64 ∨ row_dtype df = Float64)
    then as_float (cell r col) else cell r col.
Proof.
  unfold row_value. rewrite frame_value_cell.
  destruct (column_dtype df col), (row_dtype df); simpl;
    rewrite ?as_float_idemp; try done;
    (rewrite bool_decide_eq_true_2 by auto; done) ||
    (rewrite bool_decide_eq_false_2 by (intros [?|?]; done); done).
Qed.

Lemma row_value_cases df r col :
  row_value df r col = cell r col ∨ row_value df r col = as_float (cell r col).
Proof. rewrite row_value_spec. case_bool_decide; auto. Qed.

Lemma row_value_missing df r col :
  missing r col →
  (row_value df r col = CInt 0 ∨ row_value df r col = CFloat 0) ∧
  py_int' (row_value df r col) = IntOk 0.
Proof.
  intros Hm. pose proof (cell_missing r col Hm) as Hc.
  destruct (row_value_cases df r col) as [-> | ->]; rewrite Hc.
  - split; [by left|done].
  - rewrite as_float_zero. split; [by right|done].
Qed.

Lemma row_value_present df r col c :
  r !! col = Some c → c ≠ CNaN →
  row_value df r col = c ∨ row_value df r col = as_float c.
Proof.
  intros Hr Hc. rewrite <- (cell_present r col c Hr Hc).
  apply row_value_cases.
Qed.

Lemma row_value_float df r col q :
  r !! col = Some (CFloat q) → row_value df r col = CFloat q.
Proof. intros Hr. by destruct (row_value_present df r col _ Hr) as [-> | ->]. Qed.

(** An accepted row: every field read coerced to an integer, the
    arrival is not negative and the burst is positive. *)
Lemma parse_row_inr df i r p :
  parse_row' df i r = inr p →
  pid p = row_pid' df i r ∧
  py_int' (row_value df r "arrival") = IntOk (arrival p) ∧
  py_int' (row_value df r "burst") = IntOk (burst p) ∧
  (if bool_decide ("priority" ∈ columns df)
   then py_int' (row_value df r "priority") = IntOk (priority p)
   else priority p = 0) ∧
  0 ≤ arrival p ∧ 0 < burst p.
Proof.
  unfold parse_row, int_field.
  destruct (py_int' (row_value df r "arrival")) as [a| |]; try done.
  destruct (py_int' (row_value df r "burst")) as [b| |]; try done.
  destruct (bool_decide ("priority" ∈ columns df)).
  - destruct (py_int' (row_value df r "priority")) as [z| |]; try done.
    repeat case_bool_decide; try done. intros [= <-]. simpl.
    repeat split; try done; lia.
  - repeat case_bool_decide; try done. intros [= <-]. simpl.
    repeat split; try done; lia.
Qed.

(** A row whose fields read as integers within the rules is accepted. *)
Lemma parse_row_accepts df i r a b z :
  py_int' (row_value df r "arrival") = IntOk a →
  py_int' (row_value df r "burst") = IntOk b →
  (if bool_decide ("priority" ∈ columns df)
   then py_int' (row_value df r "priority") = IntOk z
   else z = 0) →
  0 ≤ a → 0 < b →
  parse_row' df i r = inr (mkProcess (row_pid' df i r) a b z).
Proof.
  intros Ea Eb Ez Ha Hb. unfold parse_row, int_field. rewrite Ea, Eb.
  destruct (bool_decide ("priority" ∈ columns df)).
  - rewrite Ez. by rewrite !bool_decide_eq_false_2 by lia.
  - subst z. by rewrite !bool_decide_eq_false_2 by lia.
Qed.

(** A rejected row: either an infinite cell let [OverflowError] out, or
    the error names the row's pid and the rule it broke. *)
Lemma parse_row_inl df i r e :
  parse_row' df i r = inl e →
  (e = Overflow ∧
   ∃ col, col ∈ ["arrival"; "burst"; "priority"] ∧
          py_int' (row_value df r col) = IntOverflowError) ∨
  ∃ why, e = InvalidData (row_pid' df i r) why ∧
    match why with
    | NegativeArrival =>
        ∃ a, py_int' (row_value df r "arrival") = IntOk a ∧ a < 0
    | NonPositiveBurst =>
        ∃ b, py_int' (row_value df r "burst") = IntOk b ∧ b ≤ 0
    | NotAnInteger c =>
        py_int' c = IntValueError ∧
        ∃ col, col ∈ ["arrival"; "burst"; "priority"] ∧ c = row_value df r col
    end.
Proof.
  unfold parse_row, int_field.
  destruct (py_int' (row_value df r "arrival")) as [a| |] eqn:Ea.
  2:{ intros [= <-]. right. eexists. split; [done|]. split; [done|].
      exists "arrival". split; [set_solver|done]. }
  2:{ intros [= <-]. left. split; [done|]. exists "arrival".
      split; [set_solver|done]. }
  destruct (py_int' (row_value df r "burst")) as [b| |] eqn:Eb.
  2:{ intros [= <-]. right. eexists. split; [done|]. split; [done|].
      exists "burst". split; [set_solver|done]. }
  2:{ intros [= <-]. left. split; [done|]. exists "burst".
      split; [set_solver|done]. }
  assert (∀ z : Z,
    (if bool_decide (a < 0)
     then inl (InvalidData (row_pid' df i r) NegativeArrival)
     else if bool_decide (b ≤ 0)
     then inl (InvalidData (row_pid' df i r) NonPositiveBurst)
     else inr (mkProcess (row_pid' df i r) a b z)) = inl e →
    ∃ why, e = InvalidData (row_pid' df i r) why ∧
      match why with
      | NegativeArrival => ∃ a', IntOk a = IntOk a' ∧ a' < 0
      | NonPositiveBurst => ∃ b', IntOk b = IntOk b' ∧ b' ≤ 0
      | NotAnInteger c =>
          py_int' c = IntValueError ∧
          ∃ col, col ∈ ["arrival"; "burst"; "priority"] ∧
                 c = row_value df r col
      end) as Hchecks.
  { intros z. repeat case_bool_decide; intros [= <-].
    - exists NegativeArrival. split; [done|]. by exists a.
    - exists NonPositiveBurst. split; [done|]. by exists b. }
  destruct (bool_decide ("priority" ∈ columns df)).
  - destruct (py_int' (row_value df r "priority")) as [z| |] eqn:Ez.
    + intros H. right. by apply (Hchecks z).
    + intros [= <-]. right. eexists. split; [done|]. split; [done|].
      exists "priority". split; [set_solver|done].
    + intros [= <-]. left. split; [done|]. exists "priority".
      split; [set_solver|done].
  - intros H. right. by apply (Hchecks 0).
Qed.

(** A row that breaks a rule is rejected. *)
Lemma parse_row_rejects df i r :
  (∃ a, py_int' (row_value df r "arrival") = IntOk a ∧ a < 0) ∨
  (∃ b, py_int' (row_value df r "burst") = IntOk b ∧ b ≤ 0) ∨
  py_int' (row_value df r "arrival") = IntValueError ∨
  py_int' (row_value df r "burst") = IntValueError →
  ∃ e, parse_row' df i r = inl e.
Proof.
  intros Hbad.
  destruct (parse_row' df i r) as [e|p] eqn:E; [by exists e|].
  apply parse_row_inr in E as (_ & Ea & Eb & _ & Ha & Hb).
  destruct Hbad as [(a & Ha' & ?)|[(b & Hb' & ?)|[Hn|Hn]]];
    rewrite ?Ea, ?Eb in *; simplify_eq; lia.
Qed.

(** The row loop: it returns the processes of all rows, or the error of
    the first rejected row. *)
Lemma parse_rows_inr df i rs acc procs :
  parse_rows' df i rs acc = inr procs →
  ∃ ps, procs = acc ++ ps ∧
    Forall2 (λ ir p, parse_row' df ir.1 ir.2 = inr p)
            (zip (seq i (length rs)) rs) ps.
Proof.
  revert i acc. induction rs as [|r rs IH]; intros i acc; simpl.
  { intros [= <-]. exists []. by rewrite app_nil_r. }
  destruct (parse_row' df i r) as [e|p] eqn:E; [done|].
  intros (ps & -> & Hps)%IH. exists (p :: ps).
  rewrite <- app_assoc. split; [done|]. by constructor.
Qed.

Lemma parse_rows_accepts df i rs acc ps :
  Forall2 (λ ir p, parse_row' df ir.1 ir.2 = inr p)
          (zip (seq i (length rs)) rs) ps →
  parse_rows' df i rs acc = inr (acc ++ ps).
Proof.
  revert i acc ps. induction rs as [|r rs IH]; intros i acc ps; simpl.
  { intros ->%Forall2_nil_inv_l. by rewrite app_nil_r. }
  intros (p & ps' & Hp & Hps & ->)%Forall2_cons_inv_l. simpl in Hp.
  rewrite Hp, (IH _ _ ps' Hps). by rewrite <- app_assoc.
Qed.

Lemma parse_rows_inl df i rs acc e :
  parse_rows' df i rs acc = inl e →
  ∃ (j : nat) r, rs !! j = Some r ∧
    parse_row' df (i + j) r = inl e ∧
    ∀ (j' : nat) r', (j' < j)%nat → rs !! j' = Some r' →
      ∃ p, parse_row' df (i + j') r' = inr p.
Proof.
  revert i acc. induction rs as [|r rs IH]; intros i acc; simpl; [done|].
  destruct (parse_row' df i r) as [e'|p] eqn:E.
  - intros [= <-]. exists 0%nat, r. rewrite Nat.add_0_r.
    split; [done|]. split; [done|]. intros; lia.
  - intros (j & r' & Hj & Hr' & Hbefore)%IH. exists (S j), r'.
    replace (i + S j)%nat with (S i + j)%nat by lia.
    split; [done|]. split; [done|].
    intros [|j'] r'' Hlt Hj'.
    + injection Hj' as <-. rewrite Nat.add_0_r. by exists p.
    + replace (i + S j')%nat with (S i + j')%nat by lia.
      apply Hbefore; [lia|done].
Qed.

Lemma parse_df_rows df :
  df_empty df = false →
  "arrival" ∈ columns df → "burst" ∈ columns df →
  parse' df = parse_rows' df 0 (rows df) [].
Proof.
  intros He Ha Hb. unfold parse_df_to_processes. rewrite He.
  unfold required_cols.
  rewrite !filter_cons, filter_nil.
  rewrite !decide_False by (intros H; by apply H). done.
Qed.

Lemma parse_df_missing df :
  df_empty df = false →
  (∃ c, c ∈ required_cols ∧ c ∉ columns df) →
  ∃ cols, parse' df = inl (MissingColumns cols) ∧
          ∀ c, c ∈ cols ↔ c ∈ required_cols ∧ c ∉ columns df.
Proof.
  intros He (c & Hc & Hn). unfold parse_df_to_processes. rewrite He.
  assert (c ∈ filter (λ col, col ∉ columns df) required_cols) as Hin
    by by apply list_elem_of_filter.
  destruct (filter (λ col, col ∉ columns df) required_cols) as [|m ms] eqn:E.
  { by apply elem_of_nil in Hin. }
  exists (m :: ms). split; [done|]. intros c'. rewrite <- E.
  rewrite list_elem_of_filter. tauto.
Qed.
End parse_facts.

Lemma trunc_toward_zero (q : Q) :
  (Qle 0 q → Qle (inject_Z (trunc q)) q ∧ Qlt q (inject_Z (trunc q + 1))) ∧
  (Qle q 0 → Qle q (inject_Z (trunc q)) ∧ Qlt (inject_Z (trunc q - 1)) q).
Proof.
  destruct q as [n d]. unfold trunc, Qle, Qlt, inject_Z. simpl.
  pose proof (Z.quot_rem' n (Z.pos d)) as Hqr.
  split; intros Hn.
  - assert (0 ≤ n) as Hn' by lia.
    pose proof (Z.rem_bound_pos n (Z.pos d) Hn' ltac:(lia)). nia.
  - assert (0 ≤ - n) as Hn' by lia.
    pose proof (Z.rem_bound_pos (- n) (Z.pos d) Hn' ltac:(lia)) as Hb.
    rewrite Z.rem_opp_l' in Hb. nia.
Qed.

Lemma df_not_empty df c (i : nat) r :
  c ∈ columns df → rows df !! i = Some r → df_empty df = false.
Proof.
  destruct df as [cols rs]. unfold df_empty. simpl. intros Hc Hi.
  destruct cols; [by apply elem_of_nil in Hc|]. by destruct rs.
Qed.

Lemma zip_seq_lookup {A} (rs : list A) (i j : nat) r :
  rs !! j = Some r → zip (seq i (length rs)) rs !! j = Some ((i + j)%nat, r).
Proof.
  intros Hj. rewrite lookup_zip_with, Hj.
  rewrite lookup_seq_lt by by eapply lookup_lt_Some. done.
Qed.

(** C10: every missing cell is 0 (or 0.0) when the row loop reads it and
    every other cell is kept (an integer possibly as the float64 nearest
    to it, which is the integer itself up to [2^53]); so a row without
    arrival is accepted, with arrival 0, when its burst reads as a
    positive integer, and a table of such rows is accepted; a row without
    burst is rejected, by the positive-burst rule when its other fields
    pass, and so is its table; and a fractional cell is cut toward zero,
    not rejected: a row with a fractional burst of integer part at least
    1 is accepted with that integer part, as a row with an integer burst
    from 1 to [2^53] is with that integer. *)
Theorem missing_cells_read_as_zero (int_of_text : string → option Z)
    (str_of_float : Q → string) (df : DataFrame) :
  let parse := parse_df_to_processes int_of_text str_of_float in
  let parse_row := parse_row int_of_text str_of_float df in
  let who := row_pid str_of_float df in
  let int_at r col := py_int int_of_text (row_value df r col) in
  let priority_ok r z :=
    if bool_decide ("priority" ∈ columns df)
    then int_at r "priority" = IntOk z else z = 0 in
  (∀ r col, missing r col →
     (row_value df r col = CInt 0 ∨ row_value df r col = CFloat 0) ∧
     int_at r col = IntOk 0) ∧
  (∀ r col c, r !! col = Some c → c ≠ CNaN →
     row_value df r col = c ∨ row_value df r col = as_float c) ∧
  (∀ r col q, r !! col = Some (CFloat q) →
     int_at r col = IntOk (trunc q) ∧
     (Qle 0 q → Qle (inject_Z (trunc q)) q ∧ Qlt q (inject_Z (trunc q + 1))) ∧
     (Qle q 0 → Qle q (inject_Z (trunc q)) ∧ Qlt (inject_Z (trunc q - 1)) q)) ∧
  (∀ i r b z,
     missing r "arrival" → int_at r "burst" = IntOk b → 0 < b →
     priority_ok r z →
     parse_row i r = inr (mkProcess (who i r) 0 b z)) ∧
  (∀ i r q,
     missing r "arrival" → r !! "burst" = Some (CFloat q) → 0 < trunc q →
     "priority" ∉ columns df →
     parse_row i r = inr (mkProcess (who i r) 0 (trunc q) 0)) ∧
  (∀ i r b,
     missing r "arrival" → r !! "burst" = Some (CInt b) →
     0 < b ≤ 2 ^ 53 → "priority" ∉ columns df →
     parse_row i r = inr (mkProcess (who i r) 0 b 0)) ∧
  ("arrival" ∈ columns df → "burst" ∈ columns df → rows df ≠ [] →
   (∀ r, r ∈ rows df →
      (missing r "arrival" ∨
       ∃ a, int_at r "arrival" = IntOk a ∧ 0 ≤ a) ∧
      (∃ b, int_at r "burst" = IntOk b ∧ 0 < b) ∧
      ∃ z, priority_ok r z) →
   ∃ procs, parse df = inr procs ∧
     length procs = length (rows df) ∧
     ∀ (i : nat) r, rows df !! i = Some r → missing r "arrival" →
                    ∃ p, procs !! i = Some p ∧ arrival p = 0) ∧
  (∀ i r a z,
     missing r "burst" → int_at r "arrival" = IntOk a → 0 ≤ a →
     priority_ok r z →
     parse_row i r = inl (InvalidData (who i r) NonPositiveBurst)) ∧
  (∀ (i : nat) r,
     "arrival" ∈ columns df → "burst" ∈ columns df →
     rows df !! i = Some r → missing r "burst" →
     ∃ e, parse df = inl e).
Proof.
  intros parse parse_row' who int_at priority_ok.
  split; [|split; [|split; [|split; [|split; [|split; [|split; [|split]]]]]]].
  - intros r col. apply row_value_missing.
  - intros r col c. apply row_value_present.
  - intros r col q Hr. unfold int_at. rewrite (row_value_float df r col q Hr).
    split; [done|]. apply trunc_toward_zero.
  - intros i r b z Hm Eb Hb Hz. apply parse_row_accepts; try done.
    by apply row_value_missing.
  - intros i r q Hm Hr Hq Hprio. apply parse_row_accepts; try done.
    + by apply row_value_missing.
    + by rewrite (row_value_float df r "burst" q Hr).
    + by rewrite bool_decide_eq_false_2.
  - intros i r b Hm Hr Hb Hprio. apply parse_row_accepts.
    + by apply row_value_missing.
    + destruct (row_value_present df r "burst" _ Hr) as [-> | ->]; [done..|].
      apply py_int_as_float. lia.
    + by rewrite bool_decide_eq_false_2.
    + done.
    + lia.
  - intros Ha Hb Hne Hrows.
    assert (df_empty df = false) as He.
    { destruct (rows df) as [|r0 rs] eqn:Er; [done|].
      apply (df_not_empty df "arrival" 0 r0 Ha). by rewrite Er. }
    assert (∀ (rs : list (gmap string Cell)) i,
      (∀ r, r ∈ rs → r ∈ rows df) →
      ∃ ps, Forall2 (λ ir p, parse_row' ir.1 ir.2 = inr p)
                    (zip (seq i (length rs)) rs) ps) as Hall.
    { induction rs as [|r rs IH]; intros i Hin.
      { exists []. constructor. }
      destruct (IH (S i)) as [ps Hps].
      { intros r' Hr'. apply Hin. by right. }
      destruct (Hrows r) as (Harr & (b & Eb & Hb0) & z & Ez).
      { apply Hin. left. }
      assert (∃ a, int_at r "arrival" = IntOk a ∧ 0 ≤ a) as (a & Ea & Ha0).
      { destruct Harr as [Hm|?]; [|done]. exists 0. split; [|done].
        by apply row_value_missing. }
      eexists (_ :: ps). simpl. constructor; [|exact Hps]. simpl.
      by apply (parse_row_accepts _ _ df i r a b z). }
    destruct (Hall (rows df) 0%nat) as [ps Hps]; [done|].
    exists ps. unfold parse. rewrite parse_df_rows by done.
    rewrite (parse_rows_accepts _ _ df 0 (rows df) [] ps Hps).
    split; [done|]. split.
    { apply Forall2_length in Hps.
      rewrite length_zip_with, length_seq in Hps. lia. }
    intros i r Hi Hm.
    pose proof (zip_seq_lookup (rows df) 0 i r Hi) as Hz.
    destruct (Forall2_lookup_l _ _ _ _ _ Hps Hz) as (p & Hp & Hpr).
    exists p. split; [done|]. simpl in Hpr.
    apply parse_row_inr in Hpr as (_ & Ea & _).
    destruct (row_value_missing int_of_text df r "arrival" Hm) as [_ E0].
    rewrite E0 in Ea. congruence.
  - intros i r a z Hm Ea Ha Hz.
    destruct (row_value_missing int_of_text df r "burst" Hm) as [_ E0].
    unfold parse_row', parse_row, int_field. fold (int_at r "arrival").
    rewrite Ea. rewrite E0. unfold priority_ok in Hz.
    destruct (bool_decide ("priority" ∈ columns df)).
    + fold (int_at r "priority"). rewrite Hz.
      by rewrite bool_decide_eq_false_2, bool_decide_eq_true_2 by lia.
    + by rewrite bool_decide_eq_false_2, bool_decide_eq_true_2 by lia.
  - intros i r Ha Hb Hi Hm.
    destruct (parse df) as [e|procs] eqn:Hparse; [by exists e|].
    unfold parse in Hparse.
    rewrite parse_df_rows in Hparse; [|by eapply df_not_empty|done..].
    apply parse_rows_inr in Hparse as (ps & -> & Hps).
    pose proof (zip_seq_lookup (rows df) 0 i r Hi) as Hz.
    destruct (Forall2_lookup_l _ _ _ _ _ Hps Hz) as (p & Hp & Hpr).
    simpl in Hpr.
    apply parse_row_inr in Hpr as (_ & _ & Eb & _ & _ & Hpos).
    destruct (row_value_missing int_of_text df r "burst" Hm) as [_ E0].
    rewrite E0 in Eb. injection Eb as Eb. lia.
Qed.

(** The cases of the theorem occur: a table whose first row has no
    arrival and a fractional burst is accepted, and a row without burst
    is rejected under its pid. *)
Example missing_arrival_accepted :
  parse_df_to_processes (λ _, None) (λ _, "F")
    (mkDataFrame ["pid"; "arrival"; "burst"]
       [row_of [("pid", CStr "A"); ("burst", CFloat (7 # 2))];
        row_of [("pid", CStr "B"); ("arrival", CNaN); ("burst", CInt 2)]])
  = inr [mkProcess "A" 0 3 0; mkProcess "B" 0 2 0].
Proof. by vm_compute. Qed.

Example missing_burst_rejected :
  parse_df_to_processes (λ _, None) (λ _, "F")
    (mkDataFrame ["pid"; "arrival"; "burst"]
       [row_of [("pid", CStr "A"); ("arrival", CInt 1)]])
  = inl (InvalidData "A" NonPositiveBurst).
Proof. by vm_compute. Qed.

(** What [parse_df_to_processes] does on every table. *)
Lemma parse_df_outcomes (int_of_text : string → option Z)
    (str_of_float : Q → string) (df : DataFrame) :
  let parse := parse_df_to_processes int_of_text str_of_float in
  (df_empty df = true → parse df = inr []) ∧
  (df_empty df = false → (∃ c, c ∈ required_cols ∧ c ∉ columns df) →
   ∃ cols, parse df = inl (MissingColumns cols) ∧
           ∀ c, c ∈ cols ↔ c ∈ required_cols ∧ c ∉ columns df) ∧
  (df_empty df = false → "arrival" ∈ columns df → "burst" ∈ columns df →
   match parse df with
   | inr procs =>
       Forall2 (λ ir p,
                  parse_row int_of_text str_of_float df ir.1 ir.2 = inr p)
               (zip (seq 0 (length (rows df))) (rows df)) procs
   | inl e =>
       ∃ (j : nat) r, rows df !! j = Some r ∧
         parse_row int_of_text str_of_float df j r = inl e
   end).
Proof.
  intros parse. split; [|split].
  - intros He. unfold parse, parse_df_to_processes. by rewrite He.
  - apply parse_df_missing.
  - intros He Ha Hb. unfold parse. rewrite parse_df_rows by done.
    destruct (parse_rows _ _ _ _ _ _) as [e|procs] eqn:E.
    + apply parse_rows_inl in E as (j & r & Hj & Hr & _). by exists j, r.
    + by apply parse_rows_inr in E as (ps & -> & Hps).
Qed.

(** C7, where the code departs from it: a row with burst 0 and an infinite
    arrival is not rejected by the error that names its process and rule;
    the [OverflowError] of [int(inf)] passes the
    [except (ValueError, TypeError)] clause. Without infinite cells the
    row is rejected with [InvalidData "P1" NonPositiveBurst]. *)
Theorem parse_overflow_escapes (int_of_text : string → option Z)
    (str_of_float : Q → string) :
  let parse := parse_df_to_processes int_of_text str_of_float in
  let table arrival_cell :=
    mkDataFrame ["pid"; "arrival"; "burst"]
      [row_of [("pid", CStr "P1"); ("arrival", arrival_cell);
               ("burst", CInt 0)]] in
  parse (table (CInf false)) = inl Overflow ∧
  parse (table (CInt 0)) = inl (InvalidData "P1" NonPositiveBurst).
Proof. split; by vm_compute. Qed.

(** * Further properties *)

(** ** Charts *)

Lemma gantt_bar_Some i g :
  ∃ b, gantt_bar i g = Some b ∧
       bar_name b = g_pid g ∧ bar_y b = g_pid g ∧ bar_base b = g_start g ∧
       bar_base b + bar_x b = g_finish g ∧
       colors !! (i mod 10)%nat = Some (bar_marker_color b).
Proof.
  unfold gantt_bar. change (length colors) with 10%nat.
  destruct (lookup_lt_is_Some_2 colors (i mod 10)%nat) as [c Hc].
  { change (length colors) with 10%nat. apply Nat.mod_upper_bound. lia. }
  rewrite Hc. simpl. eexists. split; [done|]. simpl.
  repeat split; try done. lia.
Qed.

Lemma add_traces_spec i gantt acc :
  ∃ bars, add_traces i gantt acc = Some (acc ++ bars) ∧
    length bars = length gantt ∧
    ∀ (j : nat) g, gantt !! j = Some g →
      ∃ b, bars !! j = Some b ∧ gantt_bar (i + j) g = Some b.
Proof.
  revert i acc. induction gantt as [|g gantt IH]; intros i acc; simpl.
  { exists []. rewrite app_nil_r. split; [done|]. split; [done|].
    intros j g. by rewrite lookup_nil. }
  destruct (gantt_bar_Some i g) as (b & Hb & _). rewrite Hb. simpl.
  destruct (IH (S i) (acc ++ [b])) as (bars & -> & Hlen & Hbars).
  exists (b :: bars). rewrite <- app_assoc. split; [done|].
  split; [simpl; lia|]. intros [|j] g' Hj; simpl in *.
  - injection Hj as <-. exists b. by rewrite Nat.add_0_r.
  - replace (i + S j)%nat with (S i + j)%nat by lia. by apply Hbars.
Qed.

(** [make_gantt_figure] never falls into its [except] branch: the figure
    keeps its title and has one bar per Gantt item, in order, named after
    the item's pid and spanning exactly from its start to its finish. The
    colour is the palette entry at the item's position modulo 10, so two
    bars have the same colour exactly when their positions agree modulo
    10, whatever their pids. *)
Theorem gantt_figure_bars (gantt_list : list Segment) (title : string) :
  let fig := make_gantt_figure gantt_list title in
  fig_title fig = title ∧
  length (fig_traces fig) = length gantt_list ∧
  (∀ (i : nat) g, gantt_list !! i = Some g →
     ∃ b, fig_traces fig !! i = Some b ∧
          bar_name b = g_pid g ∧ bar_y b = g_pid g ∧
          bar_base b = g_start g ∧ bar_base b + bar_x b = g_finish g ∧
          colors !! (i mod 10)%nat = Some (bar_marker_color b)) ∧
  (∀ (i j : nat) bi bj,
     fig_traces fig !! i = Some bi → fig_traces fig !! j = Some bj →
     (bar_marker_color bi = bar_marker_color bj ↔ (i mod 10 = j mod 10)%nat)).
Proof.
  intros fig.
  assert (fig = mkFigure title (fig_traces fig) ∧
          length (fig_traces fig) = length gantt_list ∧
          ∀ (i : nat) g, gantt_list !! i = Some g →
            ∃ b, fig_traces fig !! i = Some b ∧ gantt_bar i g = Some b)
    as (Hfig & Hlen & Hbars).
  { unfold fig, make_gantt_figure. destruct gantt_list as [|g0 gs].
    { split; [done|]. split; [done|]. intros i g. by rewrite lookup_nil. }
    destruct (add_traces_spec 0 (g0 :: gs) []) as (bars & -> & Hlen & Hbars).
    simpl. done. }
  assert (∀ (i : nat) b, fig_traces fig !! i = Some b →
            colors !! (i mod 10)%nat = Some (bar_marker_color b)) as Hcol.
  { intros i b Hi.
    destruct (lookup_lt_is_Some_2 gantt_list i) as [g Hg].
    { rewrite <- Hlen. by eapply lookup_lt_Some. }
    destruct (Hbars i g Hg) as (b' & Hb' & Hgb). simplify_eq.
    destruct (gantt_bar_Some i g) as (b'' & Hb'' & _ & _ & _ & _ & Hc).
    by simplify_eq. }
  split; [by rewrite Hfig|]. split; [done|]. split.
  - intros i g Hg. destruct (Hbars i g Hg) as (b & Hb & Hgb).
    exists b. split; [done|].
    destruct (gantt_bar_Some i g) as (b' & Hb' & ?). by simplify_eq.
  - intros i j bi bj Hi Hj.
    pose proof (Hcol i bi Hi) as Hci. pose proof (Hcol j bj Hj) as Hcj.
    split.
    + intros E. rewrite E in Hci.
      assert (NoDup colors) as Hnd by (apply (bool_decide_unpack _); by vm_compute).
      by eapply NoDup_lookup.
    + intros E. rewrite E in Hci. congruence.
Qed.

Lemma key_sorted_sorted_id {A K} `{KeyOrder K} (key : A → K) (l : list A) :
  key_sorted key l → sorted key l = l.
Proof.
  induction 1 as [|x l Hs IH Hx]; [done|]. simpl. rewrite IH.
  by apply insert_key_head.
Qed.

Lemma timeline_upto_time_sorted T tl :
  timeline_upto T tl → key_sorted time tl.
Proof.
  intros [_ Hc]. assert (contiguous_from 0 tl) as Hc0.
  { intros i u Hi. rewrite (Hc i u Hi). lia. }
  clear Hc. revert Hc0. generalize 0. induction tl as [|u tl IH]; intros t0 Hc.
  { constructor. }
  change (u :: tl) with ([u] ++ tl) in Hc.
  apply contiguous_from_app in Hc as [Hu Htl].
  constructor; [by eapply IH|].
  apply Forall_forall. intros v Hv.
  apply list_elem_of_lookup in Hv as [i Hi].
  unfold key_le. simpl. apply Z.leb_le.
  rewrite (Hu 0%nat u eq_refl), (Htl i v Hi). simpl. lia.
Qed.

(** On a timeline that holds the units [0 .. T-1] in order, as every
    scheduler returns, sorting by time changes nothing: the animation has
    one frame row per unit, in timeline order, the [i]-th for time [i],
    with value 0.8 when a process runs and 0.2 when the CPU idles; the
    rows of value 0.8 number the busy units. *)
Theorem animation_rows_follow_timeline (T : Z) (tl : list TimelineUnit) :
  timeline_upto T tl →
  animation_frame_rows tl = anim_row <$> tl ∧
  Z.of_nat (length (animation_frame_rows tl)) = T ∧
  (∀ (i : nat) r, animation_frame_rows tl !! i = Some r →
     a_time r = Z.of_nat i ∧ a_proc_label r = a_running r ∧
     tl !! i = Some (mkUnit (a_time r) (a_running r)) ∧
     (a_running r ≠ IDLE → a_value r = 0.8%Q) ∧
     (a_running r = IDLE → a_value r = 0.2%Q)) ∧
  Z.of_nat (length (filter (λ r, a_value r = 0.8%Q) (animation_frame_rows tl)))
    = busy_units tl.
Proof.
  intros Htl. pose proof Htl as [Hlen Hc].
  assert (animation_frame_rows tl = anim_row <$> tl) as E.
  { unfold animation_frame_rows.
    by rewrite (key_sorted_sorted_id time tl (timeline_upto_time_sorted T tl Htl)). }
  rewrite E. split; [done|]. split; [by rewrite length_fmap|]. split.
  - intros i r Hi. rewrite list_lookup_fmap in Hi.
    destruct (tl !! i) as [u|] eqn:Hu; [|done]. injection Hi as <-.
    unfold anim_row. simpl. split; [by eapply Hc|]. split; [done|].
    split; [by destruct u|]. split; intros Hr.
    + by rewrite bool_decide_eq_true_2.
    + by rewrite bool_decide_eq_false_2 by (intros H; by apply H).
  - unfold busy_units. f_equal. clear. induction tl as [|u tl IH]; [done|].
    rewrite fmap_cons, !filter_cons.
    destruct (decide (running u ≠ IDLE)) as [Hr|Hr].
    + rewrite decide_True; [simpl; by rewrite IH|].
      unfold anim_row. simpl. by rewrite bool_decide_eq_true_2.
    + rewrite decide_False; [done|].
      unfold anim_row. simpl. by rewrite bool_decide_eq_false_2.
Qed.

Lemma animation_rows_follow_timeline_witness :
  timeline_upto 2 [mkUnit 0 "IDLE"; mkUnit 1 "A"] ∧
  animation_frame_rows [mkUnit 0 "IDLE"; mkUnit 1 "A"]
  = anim_row <$> [mkUnit 0 "IDLE"; mkUnit 1 "A"].
Proof.
  assert (timeline_upto 2 [mkUnit 0 "IDLE"; mkUnit 1 "A"]) as H.
  { split; [done|]. intros [|[|i]] u; simpl; intros [= <-]; simpl; lia. }
  split; [exact H|].
  apply (animation_rows_follow_timeline 2 _ H).
Defined.

(** ** Result tables *)

Lemma sum_perm (l1 l2 : list Z) :
  l1 ≡ₚ l2 → foldr Z.add 0 l1 = foldr Z.add 0 l2.
Proof. induction 1; simpl; lia. Qed.


Lemma total_burst_sum l : total_burst l = foldr Z.add 0 (burst <$> l).
Proof. induction l as [|p l IH]; simpl; [done|]. by rewrite IH. Qed.

Lemma sjf_spec_loop_rows fuel sp sp' :
  sjf_spec_loop fuel sp = Some sp' →
  row_ident <$> sp_results sp'
    ≡ₚ (row_ident <$> sp_results sp) ++ (proc_ident <$> sp_pending sp).
Proof.
  revert sp. induction fuel as [|fuel IH]; intros sp; simpl.
  - destruct (sp_pending sp) eqn:EP; [|done]. intros [= <-].
    simpl. by rewrite app_nil_r.
  - destruct (sp_pending sp) as [|q P] eqn:EP.
    { intros [= <-]. simpl. by rewrite app_nil_r. }
    intros Hloop. apply IH in Hloop. rewrite Hloop. clear Hloop IH.
    unfold sjf_spec_step. rewrite EP.
    destruct (select sjf_key (arrived (sp_time sp)) (q :: P))
      as [[p rest]|] eqn:Es; cbn [sp_results sp_pending]; [|done].
    apply select_Some_split in Es as (l1 & l2 & E1 & -> & _). rewrite E1.
    rewrite !fmap_app, !fmap_cons, fmap_nil.
    rewrite <- !app_assoc. apply Permutation_app_head.
    change (row_ident (result_row p (sp_time sp + burst p))) with (proc_ident p).
    cbn [app]. by rewrite Permutation_middle.
Qed.

Lemma fcfs_rows_ident l :
  row_ident <$> sched_rows (fcfs_scheduler l) = proc_ident <$> sorted arrival l.
Proof.
  rewrite fcfs_scheduler_eq. unfold sched_rows. cbn [fst snd].
  rewrite fcfs_fold_results. simpl.
  rewrite <- (run_in_order_fst 0 (sorted arrival l)) at 2.
  rewrite <- !list_fmap_compose. done.
Qed.

Lemma sjf_spec_loop_gantt_pids fuel sp sp' :
  g_pid <$> sp_gantt sp = r_pid <$> sp_results sp →
  sjf_spec_loop fuel sp = Some sp' →
  g_pid <$> sp_gantt sp' = r_pid <$> sp_results sp'.
Proof.
  revert sp. induction fuel as [|fuel IH]; intros sp H0; simpl.
  - destruct (sp_pending sp); [|done]. by intros [= <-].
  - destruct (sp_pending sp) eqn:EP; [by intros [= <-]|].
    apply IH. unfold sjf_spec_step.
    destruct (select _ _ _) as [[q rest]|]; simpl; [|done].
    by rewrite !fmap_app, H0.
Qed.

Lemma sjf_rows_ident l fuel res :
  valid_procs l → sjf_nonpreemptive_scheduler fuel l = Some res →
  row_ident <$> sched_rows res ≡ₚ proc_ident <$> l ∧
  g_pid <$> sched_gantt res = r_pid <$> sched_rows res.
Proof.
  intros Hv. rewrite sjf_refines_spec by done.
  destruct l as [|p l]; [by intros [= <-]|].
  unfold sjf_spec. destruct (sjf_spec_loop _ _) as [sp'|] eqn:Eloop; [|done].
  intros [= <-]. unfold sched_rows, sched_gantt. cbn [fst snd]. split.
  - by rewrite (sjf_spec_loop_rows _ _ _ Eloop).
  - by apply (λ H0, sjf_spec_loop_gantt_pids _ _ _ H0 Eloop).
Qed.

Lemma srtf_rows_ident l fuel res :
  srtf_scheduler fuel l = Some res →
  row_ident <$> sched_rows res = proc_ident <$> sorted arrival l.
Proof.
  destruct l as [|p l]; [by intros [= <-]|].
  unfold srtf_scheduler.
  destruct (srtf_loop _ _ _ _ _) as [st|]; [|done]. intros [= <-].
  unfold sched_rows. cbn [fst snd]. by rewrite <- list_fmap_compose.
Qed.

Lemma srtf_rows_ok l fuel res :
  valid_procs l → srtf_scheduler fuel l = Some res →
  Forall row_ok (sched_rows res).
Proof.
  intros Hv Hres. destruct (decide (NoDup (pid <$> l))) as [Hnd|Hdup].
  - destruct l as [|p l]; [injection Hres as <-; constructor|].
    by destruct (srtf_scheduler_final (p :: l) fuel res Hv Hnd) as (? & _).
  - by rewrite srtf_scheduler_dup_diverges in Hres.
Qed.

(** Every result table lists the input processes: each row carries the
    pid, arrival and burst of one process and each process has its row.
    FCFS and SRTF list them in arrival order (ties in input order), SJF
    in the order they ran, which is the order of its Gantt segments. *)
Theorem result_rows_list_the_processes (l : list Process) :
  valid_procs l →
  row_ident <$> sched_rows (fcfs_scheduler l)
    = proc_ident <$> sorted arrival l ∧
  (∀ fuel res, sjf_nonpreemptive_scheduler fuel l = Some res →
     row_ident <$> sched_rows res ≡ₚ proc_ident <$> l ∧
     g_pid <$> sched_gantt res = r_pid <$> sched_rows res) ∧
  (∀ fuel res, srtf_scheduler fuel l = Some res →
     row_ident <$> sched_rows res = proc_ident <$> sorted arrival l).
Proof.
  intros Hv. split; [apply fcfs_rows_ident|]. split.
  - intros fuel res. by apply sjf_rows_ident.
  - intros fuel res. apply srtf_rows_ident.
Qed.

Lemma result_rows_list_the_processes_witness :
  valid_procs example_procs ∧
  row_ident <$> sched_rows (fcfs_scheduler example_procs)
    = proc_ident <$> sorted arrival example_procs.
Proof.
  split.
  - unfold valid_procs, example_procs. repeat constructor; simpl; lia.
  - apply (result_rows_list_the_processes example_procs).
    unfold valid_procs, example_procs. repeat constructor; simpl; lia.
Defined.

Lemma rows_burst_sum (rows : list Row) (l : list Process) :
  row_ident <$> rows ≡ₚ proc_ident <$> l →
  foldr Z.add 0 (BT <$> rows) = total_burst l ∧ length rows = length l.
Proof.
  intros Hp. split.
  - rewrite total_burst_sum. apply sum_perm.
    transitivity (snd <$> (row_ident <$> rows)).
    { by rewrite <- list_fmap_compose. }
    rewrite Hp. by rewrite <- list_fmap_compose.
  - apply Permutation_length in Hp. by rewrite !length_fmap in Hp.
Qed.

Lemma rows_gap_sum (rows : list Row) :
  Forall (λ r, WT r = TAT r - BT r) rows →
  foldr Z.add 0 (TAT <$> rows)
  = foldr Z.add 0 (WT <$> rows) + foldr Z.add 0 (BT <$> rows).
Proof.
  induction 1 as [|x xs Hx Hxs IH]; [done|].
  rewrite !fmap_cons. cbn [foldr]. cbn beta in Hx. lia.
Qed.

Lemma exact_mean_gap (tat wt : list Z) (b : Z) :
  length tat = length wt → tat ≠ [] →
  foldr Z.add 0 tat = foldr Z.add 0 wt + b →
  Qeq (exact_mean tat - exact_mean wt)
      (inject_Z b / inject_Z (Z.of_nat (length tat))).
Proof.
  intros Hl Hne Hs. unfold exact_mean. rewrite <- Hl, Hs.
  rewrite inject_Z_plus. field.
  destruct tat; [done|]. unfold Qeq. simpl. lia.
Qed.

(** The turnaround times of a schedule add up to its waiting times plus
    the total burst, whichever of the three algorithms produced it: the
    arithmetic means of the two columns differ by the average burst,
    [total burst / n].  The averages the function returns are float64
    numbers, nearest to those means while the row count and the sums stay
    within [2^53]; their difference is the average burst only up to that
    rounding. *)
Theorem turnaround_is_waiting_plus_burst (l : list Process) :
  valid_procs l → l ≠ [] →
  let gap_ok rows :=
    length rows = length l ∧
    foldr Z.add 0 (TAT <$> rows)
      = foldr Z.add 0 (WT <$> rows) + total_burst l ∧
    Qeq (exact_mean (TAT <$> rows) - exact_mean (WT <$> rows))
        (inject_Z (total_burst l) / inject_Z (Z.of_nat (length l))) ∧
    ∃ table a w,
      results_table_with_metrics rows = (table, Some a, Some w) ∧
      (Z.of_nat (length l) ≤ 2 ^ 53 →
       (foldr Z.add 0 (Z.abs <$> (TAT <$> rows)) ≤ 2 ^ 53 →
        nearest64 a (exact_mean (TAT <$> rows))) ∧
       (foldr Z.add 0 (Z.abs <$> (WT <$> rows)) ≤ 2 ^ 53 →
        nearest64 w (exact_mean (WT <$> rows)))) in
  gap_ok (sched_rows (fcfs_scheduler l)) ∧
  (∀ fuel res, sjf_nonpreemptive_scheduler fuel l = Some res →
               gap_ok (sched_rows res)) ∧
  (∀ fuel res, srtf_scheduler fuel l = Some res → gap_ok (sched_rows res)).
Proof.
  intros Hv Hne gap_ok.
  assert (∀ rows, row_ident <$> rows ≡ₚ proc_ident <$> l →
                  Forall row_ok rows → gap_ok rows) as Hgap.
  { intros rows Hp Hok.
    destruct (rows_burst_sum rows l Hp) as [Hsum Hlen].
    assert (rows ≠ []) as Hrows.
    { intros ->. destruct l; [done|]. simpl in Hlen. lia. }
    assert (foldr Z.add 0 (TAT <$> rows)
            = foldr Z.add 0 (WT <$> rows) + total_burst l) as Hs.
    { rewrite <- Hsum. apply rows_gap_sum.
      eapply Forall_impl; [exact Hok|]. by intros r (_ & _ & _ & ?). }
    split; [done|]. split; [done|]. split.
    { rewrite <- Hlen, <- (length_fmap TAT rows).
      apply exact_mean_gap; [by rewrite !length_fmap|by destruct rows|done]. }
    destruct (series_mean_nearest (TAT <$> rows))
      as (a & Ea & _ & Ha); [by destruct rows|].
    destruct (series_mean_nearest (WT <$> rows))
      as (w & Ew & _ & Hw); [by destruct rows|].
    rewrite length_fmap, Hlen in Ha, Hw.
    exists (sorted r_pid rows), a, w. split.
    - destruct rows as [|r rs]; [done|].
      unfold results_table_with_metrics. by rewrite Ea, Ew.
    - intros Hn. split; intros Hb; [by apply Ha|by apply Hw]. }
  split; [|split].
  - apply Hgap; [by rewrite fcfs_rows_ident, sorted_perm|].
    by destruct (fcfs_final l Hv) as (? & _).
  - intros fuel res Hres. apply Hgap.
    + by destruct (sjf_rows_ident l fuel res Hv Hres).
    + by destruct (sjf_final l fuel res Hv Hres) as (? & _).
  - intros fuel res Hres. apply Hgap.
    + by rewrite (srtf_rows_ident l fuel res Hres), sorted_perm.
    + by eapply srtf_rows_ok.
Qed.

Lemma turnaround_is_waiting_plus_burst_witness :
  valid_procs example_procs ∧ example_procs ≠ [] ∧
  foldr Z.add 0 (TAT <$> sched_rows (fcfs_scheduler example_procs))
  = foldr Z.add 0 (WT <$> sched_rows (fcfs_scheduler example_procs))
    + total_burst example_procs.
Proof.
  split; [|split].
  - unfold valid_procs, example_procs. repeat constructor; simpl; lia.
  - done.
  - apply (turnaround_is_waiting_plus_burst example_procs).
    + unfold valid_procs, example_procs. repeat constructor; simpl; lia.
    + done.
Defined.

(** The rounding shows on A(0,1), B(0,1), C(0,2) under FCFS: the means
    are 7/3 and 1, the average burst is 4/3, and the returned averages
    differ by 3002399751580331 / 2^51, which is not 4/3. *)
Example rounded_gap_example :
  ∃ table a w,
    results_table_with_metrics
      (sched_rows (fcfs_scheduler [mkProcess "A" 0 1 0; mkProcess "B" 0 1 0;
                                   mkProcess "C" 0 2 0]))
      = (table, Some a, Some w) ∧
    Qeq w 1 ∧
    Qeq (a - w) (3002399751580331 # 2251799813685248) ∧
    ¬ Qeq (a - w) (4 # 3).
Proof.
  eexists _, _, _. split; [by vm_compute|]. split; [done|].
  split; by vm_compute.
Qed.



(** ** Accepted input *)

Lemma parse_inr_rows (int_of_text : string → option Z)
    (str_of_float : Q → string) (df : DataFrame) (procs : list Process) :
  parse_df_to_processes int_of_text str_of_float df = inr procs →
  (df_empty df = true ∧ procs = []) ∨
  (df_empty df = false ∧ "arrival" ∈ columns df ∧ "burst" ∈ columns df ∧
   Forall2 (λ ir p,
              parse_row int_of_text str_of_float df ir.1 ir.2 = inr p)
           (zip (seq 0 (length (rows df))) (rows df)) procs).
Proof.
  intros Hp.
  destruct (parse_df_outcomes int_of_text str_of_float df) as (H1 & H2 & H3).
  destruct (df_empty df) eqn:He.
  { left. split; [done|]. rewrite H1 in Hp by done. by injection Hp. }
  right. split; [done|].
  destruct (decide ("arrival" ∈ columns df)) as [Ha|Ha]; cycle 1.
  { destruct H2 as (cols & Hc & _); [done| |congruence].
    exists "arrival". split; [|done]. unfold required_cols. set_solver. }
  destruct (decide ("burst" ∈ columns df)) as [Hb|Hb]; cycle 1.
  { destruct H2 as (cols & Hc & _); [done| |congruence].
    exists "burst". split; [|done]. unfold required_cols. set_solver. }
  split; [done|]. split; [done|].
  specialize (H3 eq_refl Ha Hb). by rewrite Hp in H3.
Qed.

Lemma Forall2_zip_seq_lookup {A B} (P : nat * A → B → Prop)
    (rs : list A) (ps : list B) (i0 : nat) :
  Forall2 P (zip (seq i0 (length rs)) rs) ps →
  length ps = length rs ∧
  ∀ (i : nat) r p, rs !! i = Some r → ps !! i = Some p → P ((i0 + i)%nat, r) p.
Proof.
  intros HF. split.
  - apply Forall2_length in HF. rewrite length_zip, length_seq in HF. lia.
  - intros i r p Hr Hp.
    eapply Forall2_lookup_lr; [exact HF| |exact Hp].
    by apply zip_seq_lookup.
Qed.

Lemma parse_inr_valid (int_of_text : string → option Z)
    (str_of_float : Q → string) (df : DataFrame) (procs : list Process) :
  parse_df_to_processes int_of_text str_of_float df = inr procs →
  valid_procs procs.
Proof.
  intros Hp.
  destruct (parse_inr_rows _ _ _ _ Hp) as [[He ->]|(He & Ha & Hb & HF)];
    [constructor|].
  apply Forall2_zip_seq_lookup in HF as [Hlen HF].
  apply Forall_lookup. intros i p Hi.
  destruct (lookup_lt_is_Some_2 (rows df) i) as [r Hr].
  { rewrite <- Hlen. by eapply lookup_lt_Some. }
  specialize (HF i r p Hr Hi). simpl in HF.
  by apply parse_row_inr in HF as (_ & _ & _ & _ & ? & ?).
Qed.



(** A numeric pid column next to a float64 column: the rows are float64
    and the pids are the texts of the floats 1.0 and, for the blank,
    0.0; with a text pid the numbers keep their own types. *)
Example numeric_pid_is_read_as_float (str_of_float : Q → string) :
  parse_df_to_processes (λ _, None) str_of_float
    (mkDataFrame ["pid"; "arrival"; "burst"]
       [row_of [("pid", CInt 1); ("arrival", CFloat (1 # 2)); ("burst", CInt 2)];
        row_of [("arrival", CInt 3); ("burst", CInt 4)]])
  = inr [mkProcess (str_of_float 1%Q) 0 2 0; mkProcess (str_of_float 0%Q) 3 4 0] ∧
  parse_df_to_processes (λ _, None) str_of_float
    (mkDataFrame ["pid"; "arrival"; "burst"]
       [row_of [("pid", CInt 1); ("arrival", CInt 0); ("burst", CInt 2)];
        row_of [("pid", CStr "B"); ("arrival", CInt 3); ("burst", CInt 4)];
        row_of [("arrival", CInt 5); ("burst", CInt 6)]])
  = inr [mkProcess "1" 0 2 0; mkProcess "B" 3 4 0; mkProcess "0" 5 6 0].
Proof. split; by vm_compute. Qed.

Lemma auto_label_inj (i j : nat) :
  "P" +:+ pretty (S i) = "P" +:+ pretty (S j) → i = j.
Proof.
  intros E. apply (inj (String.append "P")) in E.
  apply (inj pretty) in E. lia.
Qed.

Lemma auto_labels_NoDup (n : nat) :
  NoDup ((λ i : nat, "P" +:+ pretty (S i)) <$> seq 0 n).
Proof.
  apply NoDup_fmap_2_strong; [|apply NoDup_seq].
  intros i j _ _. apply auto_label_inj.
Qed.

(** Without a pid column the processes are labelled P1, P2, .. by row
    position. These labels are pairwise distinct and none is the idle
    sentinel, so on such input SRTF always returns, within
    [max arrival + total burst] iterations. *)
Theorem auto_labels_are_distinct (int_of_text : string → option Z)
    (str_of_float : Q → string) (df : DataFrame) (procs : list Process) :
  "pid" ∉ columns df →
  parse_df_to_processes int_of_text str_of_float df = inr procs →
  pid <$> procs = (λ i : nat, "P" +:+ pretty (S i)) <$> seq 0 (length procs) ∧
  NoDup (pid <$> procs) ∧
  Forall (λ p, pid p ≠ IDLE) procs ∧
  is_Some (srtf_scheduler (Z.to_nat (max_arrival procs + total_burst procs)) procs).
Proof.
  intros Hpid Hp.
  assert (pid <$> procs
          = (λ i : nat, "P" +:+ pretty (S i)) <$> seq 0 (length procs)) as E.
  { destruct (parse_inr_rows _ _ _ _ Hp) as [[He ->]|(He & Ha & Hb & HF)]; [done|].
    apply Forall2_zip_seq_lookup in HF as [Hlen HF].
    apply list_eq. intros i. rewrite !list_lookup_fmap.
    destruct (procs !! i) as [p|] eqn:Hi; simpl.
    - destruct (lookup_lt_is_Some_2 (rows df) i) as [r Hr].
      { rewrite <- Hlen. by eapply lookup_lt_Some. }
      specialize (HF i r p Hr Hi). simpl in HF.
      apply parse_row_inr in HF as (Hn & _). unfold row_pid in Hn.
      rewrite bool_decide_eq_false_2 in Hn by done.
      rewrite lookup_seq_lt by (by eapply lookup_lt_Some). simpl. by f_equal.
    - apply lookup_ge_None in Hi. by rewrite lookup_seq_ge. }
  assert (NoDup (pid <$> procs)) as Hnd.
  { rewrite E. apply auto_labels_NoDup. }
  split; [done|]. split; [done|]. split.
  - apply Forall_forall. intros p Hin Hidle.
    assert (pid p ∈ pid <$> procs) as Hin' by (by apply list_elem_of_fmap_2).
    rewrite E in Hin'. apply list_elem_of_fmap in Hin' as (i & Hi & _).
    rewrite Hidle in Hi. done.
  - apply srtf_scheduler_terminates; [|done|done]. by eapply parse_inr_valid.
Qed.

Lemma auto_labels_are_distinct_witness :
  "pid" ∉ ["arrival"; "burst"] ∧
  parse_df_to_processes (λ _, None) (λ _, "x")
    (mkDataFrame ["arrival"; "burst"]
       [row_of [("arrival", CInt 0); ("burst", CInt 3)];
        row_of [("arrival", CInt 1); ("burst", CInt 2)]])
    = inr [mkProcess "P1" 0 3 0; mkProcess "P2" 1 2 0] ∧
  NoDup (pid <$> [mkProcess "P1" 0 3 0; mkProcess "P2" 1 2 0]).
Proof.
  assert ("pid" ∉ ["arrival"; "burst"]) as Hpid
    by (apply (bool_decide_unpack _); by vm_compute).
  assert (parse_df_to_processes (λ _, None) (λ _, "x")
            (mkDataFrame ["arrival"; "burst"]
               [row_of [("arrival", CInt 0); ("burst", CInt 3)];
                row_of [("arrival", CInt 1); ("burst", CInt 2)]])
          = inr [mkProcess "P1" 0 3 0; mkProcess "P2" 1 2 0]) as H
    by (by vm_compute).
  split; [exact Hpid|]. split; [exact H|].
  apply (auto_labels_are_distinct (λ _, None) (λ _, "x")
           (mkDataFrame ["arrival"; "burst"] _) _ Hpid H).
Defined.

(** ** The page *)

Lemma parse_inr_nonempty (int_of_text : string → option Z)
    (str_of_float : Q → string) (df : DataFrame) (procs : list Process) :
  parse_df_to_processes int_of_text str_of_float df = inr procs →
  df_empty df = false → length procs = length (rows df) ∧ procs ≠ [].
Proof.
  intros Hp He.
  destruct (parse_inr_rows _ _ _ _ Hp) as [[He' _]|(_ & _ & _ & HF)];
    [congruence|].
  apply Forall2_zip_seq_lookup in HF as [Hlen _]. split; [done|].
  intros ->. unfold df_empty in He. simpl in Hlen.
  destruct (columns df), (rows df); done.
Qed.

Lemma parse_inr_pid (int_of_text : string → option Z)
    (str_of_float : Q → string) (df : DataFrame) (procs : list Process)
    (i : nat) r :
  parse_df_to_processes int_of_text str_of_float df = inr procs →
  "pid" ∈ columns df → rows df !! i = Some r →
  ∃ p, procs !! i = Some p ∧
       pid p = py_str str_of_float (row_value df r "pid").
Proof.
  intros Hp Hpid Hr.
  destruct (parse_inr_rows _ _ _ _ Hp) as [[He _]|(_ & _ & _ & HF)].
  { by rewrite (df_not_empty df "pid" i r) in He. }
  apply Forall2_zip_seq_lookup in HF as [Hlen HF].
  destruct (lookup_lt_is_Some_2 procs i) as [p Hi].
  { rewrite Hlen. by eapply lookup_lt_Some. }
  exists p. split; [done|]. specialize (HF i r p Hr Hi). simpl in HF.
  apply parse_row_inr in HF as (Hn & _). unfold row_pid in Hn.
  by rewrite bool_decide_eq_true_2 in Hn.
Qed.

Lemma run_page_procs (int_of_text : string → option Z)
    (str_of_float : Q → string) (fuel : nat) (df : DataFrame) procs :
  parse_df_to_processes int_of_text str_of_float df = inr procs →
  procs ≠ [] →
  run_page int_of_text str_of_float fuel df =
    sjf ← sjf_nonpreemptive_scheduler fuel procs;
    srtf ← srtf_scheduler fuel procs;
    Some (Page (algorithm_section "FCFS - Gantt Chart" (fcfs_scheduler procs))
               (algorithm_section "SJF (Non-preemptive) - Gantt Chart" sjf)
               (algorithm_section "SRTF (Preemptive) - Gantt Chart" srtf)).
Proof.
  intros Hp Hne. unfold run_page. rewrite Hp. by destruct procs.
Qed.

(** The page as a whole. A rejected table ends in the parse error and an
    empty table in "No processes provided"; otherwise the parsed list is
    valid and non-empty, and when its pids are distinct the page shows the
    three sections built from the three schedules, which [2n] iterations
    of the SJF loop and [max arrival + total burst] of the SRTF loop are
    enough to compute. More iterations never change an outcome. *)
Theorem page_outcomes (int_of_text : string → option Z)
    (str_of_float : Q → string) (df : DataFrame) :
  let page := run_page int_of_text str_of_float in
  (∀ fuel k o, page fuel df = Some o → page (fuel + k)%nat df = Some o) ∧
  match parse_df_to_processes int_of_text str_of_float df with
  | inl e => ∀ fuel, page fuel df = Some (ParseFailed e)
  | inr procs =>
      valid_procs procs ∧
      (df_empty df = true → ∀ fuel, page fuel df = Some NoProcesses) ∧
      (df_empty df = false → NoDup (pid <$> procs) →
       ∃ sjf srtf,
         sjf_nonpreemptive_scheduler (2 * length procs) procs = Some sjf ∧
         srtf_scheduler (Z.to_nat (max_arrival procs + total_burst procs)) procs
           = Some srtf ∧
         ∀ fuel,
           (2 * length procs ≤ fuel)%nat →
           (Z.to_nat (max_arrival procs + total_burst procs) ≤ fuel)%nat →
           page fuel df =
             Some (Page
               (algorithm_section "FCFS - Gantt Chart" (fcfs_scheduler procs))
               (algorithm_section "SJF (Non-preemptive) - Gantt Chart" sjf)
               (algorithm_section "SRTF (Preemptive) - Gantt Chart" srtf)))
  end.
Proof.
  intros page. split.
  - intros fuel k o. unfold page, run_page.
    destruct (parse_df_to_processes _ _ df) as [e|[|p procs]]; [done..|].
    destruct (sjf_nonpreemptive_scheduler fuel _) as [sjf|] eqn:Ej; [|done].
    destruct (srtf_scheduler fuel _) as [srtf|] eqn:Er; [|done].
    rewrite (sjf_scheduler_mono _ k _ _ Ej), (srtf_scheduler_mono _ k _ _ Er).
    done.
  - destruct (parse_df_to_processes _ _ df) as [e|procs] eqn:Hp.
    { intros fuel. unfold page, run_page. by rewrite Hp. }
    pose proof (parse_inr_valid _ _ _ _ Hp) as Hv.
    split; [done|]. split.
    + intros He fuel.
      destruct (parse_inr_rows _ _ _ _ Hp) as [[_ ->]|(He' & _)]; [|congruence].
      unfold page, run_page. by rewrite Hp.
    + intros He Hnd.
      destruct (parse_inr_nonempty _ _ _ _ Hp He) as [_ Hne].
      destruct (sjf_spec_terminates procs (2 * length procs)) as [sjf Hj]; [done|].
      rewrite <- sjf_refines_spec in Hj by done.
      destruct (srtf_scheduler_terminates procs
                  (Z.to_nat (max_arrival procs + total_burst procs)))
        as [srtf Hr]; [done..|].
      exists sjf, srtf. split; [done|]. split; [done|].
      intros fuel H1 H2. unfold page.
      rewrite (run_page_procs _ _ _ _ _ Hp Hne).
      replace fuel with (2 * length procs + (fuel - 2 * length procs))%nat
        at 1 by lia.
      rewrite (sjf_scheduler_mono _ _ _ _ Hj). simpl.
      replace fuel with (Z.to_nat (max_arrival procs + total_burst procs)
        + (fuel - Z.to_nat (max_arrival procs + total_burst procs)))%nat
        at 1 by lia.
      by rewrite (srtf_scheduler_mono _ _ _ _ Hr).
Qed.

(** Two rows with the same pid cell, or both without one while the table
    has a pid column, get the same pid, which the parser does not reject.
    The SRTF loop then never ends, since it counts completed pids against
    the number of processes, and the page never shows a result. *)
Theorem page_never_finishes_on_repeated_pid (int_of_text : string → option Z)
    (str_of_float : Q → string) (df : DataFrame) (i j : nat)
    (ri rj : gmap string Cell) :
  "pid" ∈ columns df → i ≠ j →
  rows df !! i = Some ri → rows df !! j = Some rj →
  cell ri "pid" = cell rj "pid" →
  ∀ fuel,
    run_page int_of_text str_of_float fuel df = None ∨
    ∃ e, run_page int_of_text str_of_float fuel df = Some (ParseFailed e).
Proof.
  intros Hpid Hij Hi Hj Hcell fuel.
  destruct (parse_df_to_processes int_of_text str_of_float df)
    as [e|procs] eqn:Hp.
  { right. exists e. unfold run_page. by rewrite Hp. }
  left.
  destruct (parse_inr_pid _ _ _ _ i ri Hp Hpid Hi) as (p & Hpi & Ep).
  destruct (parse_inr_pid _ _ _ _ j rj Hp Hpid Hj) as (q & Hqj & Eq).
  assert (procs ≠ []) as Hne by (intros ->; by rewrite lookup_nil in Hpi).
  rewrite (run_page_procs _ _ _ _ _ Hp Hne).
  rewrite (srtf_scheduler_dup_diverges procs fuel).
  { by destruct (sjf_nonpreemptive_scheduler fuel procs). }
  intros Hnd. apply Hij.
  eapply (NoDup_lookup (pid <$> procs)); [done| |].
  - rewrite list_lookup_fmap, Hpi. done.
  - rewrite list_lookup_fmap, Hqj. simpl.
    by rewrite Ep, Eq, !row_value_spec, Hcell.
Qed.

Lemma page_never_finishes_on_repeated_pid_witness :
  run_page (λ _, None) (λ _, "x") 100
    (mkDataFrame ["pid"; "arrival"; "burst"]
       [row_of [("arrival", CInt 0); ("burst", CInt 3)];
        row_of [("arrival", CInt 1); ("burst", CInt 2)]]) = None ∨
  ∃ e, run_page (λ _, None) (λ _, "x") 100
    (mkDataFrame ["pid"; "arrival"; "burst"]
       [row_of [("arrival", CInt 0); ("burst", CInt 3)];
        row_of [("arrival", CInt 1); ("burst", CInt 2)]]) = Some (ParseFailed e).
Proof.
  apply (page_never_finishes_on_repeated_pid (λ _, None) (λ _, "x")
           (mkDataFrame ["pid"; "arrival"; "burst"]
              [row_of [("arrival", CInt 0); ("burst", CInt 3)];
               row_of [("arrival", CInt 1); ("burst", CInt 2)]])
           0%nat 1%nat
           (row_of [("arrival", CInt 0); ("burst", CInt 3)])
           (row_of [("arrival", CInt 1); ("burst", CInt 2)])).
  - apply (bool_decide_unpack _). by vm_compute.
  - done.
  - reflexivity.
  - reflexivity.
  - by vm_compute.
Defined.

(** ** Gantt chart against timeline *)

Lemma units_lookup who a b (i : nat) :
  (i < Z.to_nat (b - a))%nat →
  units who a b !! i = Some (mkUnit (a + Z.of_nat i) who).
Proof.
  intros Hi. destruct (lookup_lt_is_Some_2 (units who a b) i) as [u Hu].
  { by rewrite length_units. }
  rewrite Hu. f_equal. by apply lookup_units in Hu.
Qed.

Lemma chart_agrees_nil : chart_agrees [] [].
Proof.
  split; [constructor|]. split; [constructor|].
  intros i u. by rewrite lookup_nil.
Qed.

Lemma segment_in_timeline_app tl tl' g :
  segment_in_timeline tl g → segment_in_timeline (tl ++ tl') g.
Proof. intros H t Ht. apply lookup_app_l_Some. by apply H. Qed.

Lemma chart_agrees_idle gantt tl T T' :
  Z.of_nat (length tl) = T →
  chart_agrees gantt tl → chart_agrees gantt (tl ++ units IDLE T T').
Proof.
  intros HT (Hd & Hg & Hu). split; [done|]. split.
  - eapply Forall_impl; [exact Hg|]. intros g (? & ? & ?).
    split; [done|]. split; [rewrite length_app; lia|].
    by apply segment_in_timeline_app.
  - intros i u Hi Hr. apply lookup_app_Some in Hi as [Hi|[_ Hi]].
    + by apply Hu.
    + apply lookup_units in Hi as ->. done.
Qed.

Lemma chart_agrees_run gantt tl T who b :
  Z.of_nat (length tl) = T → 0 < b →
  chart_agrees gantt tl →
  chart_agrees (gantt ++ [mkSegment who T (T + b)]) (tl ++ units who T (T + b)).
Proof.
  intros HT Hb (Hd & Hg & Hu). split; [|split].
  - apply StronglySorted_app_2; [|done|repeat constructor].
    intros g1 g2 H1 ->%list_elem_of_singleton. simpl.
    eapply Forall_forall in Hg; [|exact H1]. lia.
  - apply Forall_app. split.
    + eapply Forall_impl; [exact Hg|]. intros g (? & ? & ?).
      split; [done|]. split; [rewrite length_app; lia|].
      by apply segment_in_timeline_app.
    + constructor; [|constructor]. simpl.
      split; [lia|]. split; [rewrite length_app, length_units; lia|].
      intros t Ht. simpl in *.
      rewrite lookup_app_r by lia.
      rewrite units_lookup by lia. do 2 f_equal. lia.
  - intros i u Hi Hr. apply lookup_app_Some in Hi as [Hi|[Hlen Hi]].
    + destruct (Hu i u Hi Hr) as (g & Hin & ?). exists g.
      split; [|done]. apply elem_of_app. by left.
    + pose proof (lookup_lt_Some _ _ _ Hi) as Hlt.
      rewrite length_units in Hlt.
      apply lookup_units in Hi as ->. eexists. split.
      { apply elem_of_app. right. by apply list_elem_of_singleton. }
      simpl. split; [done|]. lia.
Qed.

Lemma fcfs_chart_agrees procs g0 tl0 :
  Forall (λ p, 0 < burst p) procs → chart_agrees g0 tl0 →
  chart_agrees
    (g0 ++ (segment_at <$> run_in_order (Z.of_nat (length tl0)) procs))
    (tl0 ++ units_in_order (Z.of_nat (length tl0)) procs).
Proof.
  intros Hv. revert g0 tl0.
  induction Hv as [|p procs Hb Hv IH]; intros g0 tl0 H0.
  { simpl. by rewrite !app_nil_r. }
  cbn [run_in_order units_in_order fmap list_fmap].
  set (T := Z.of_nat (length tl0)). set (start := Z.max T (arrival p)).
  apply (chart_agrees_idle _ _ T start eq_refl) in H0.
  assert (Z.of_nat (length (tl0 ++ units IDLE T start)) = start) as Hlen.
  { rewrite length_app, length_units. lia. }
  apply (chart_agrees_run _ _ start (pid p) (burst p) Hlen Hb) in H0.
  apply IH in H0.
  rewrite <- !app_assoc in H0. cbn [app] in H0.
  replace (Z.of_nat (length (tl0 ++ units IDLE T start
             ++ units (pid p) start (start + burst p))))
    with (start + burst p) in H0; [done|].
  rewrite !length_app, !length_units. lia.
Qed.

Lemma sjf_spec_loop_chart fuel sp sp' :
  Z.of_nat (length (sp_timeline sp)) = sp_time sp →
  chart_agrees (sp_gantt sp) (sp_timeline sp) →
  Forall (λ p, 0 < burst p) (sp_pending sp) →
  sjf_spec_loop fuel sp = Some sp' →
  chart_agrees (sp_gantt sp') (sp_timeline sp').
Proof.
  revert sp. induction fuel as [|fuel IH]; intros sp HT Hc Hv; simpl.
  { destruct (sp_pending sp); [|done]. by intros [= <-]. }
  destruct (sp_pending sp) as [|q P] eqn:EP; [by intros [= <-]|].
  apply IH; unfold sjf_spec_step; rewrite EP;
    destruct (select sjf_key (arrived (sp_time sp)) (q :: P))
      as [[p rest]|] eqn:Es; cbn [sp_time sp_timeline sp_gantt sp_pending].
  - apply select_Some_split in Es as (l1 & l2 & E1 & -> & _).
    rewrite E1 in Hv. apply Forall_app in Hv as [_ Hv].
    apply Forall_cons in Hv as [Hb _].
    rewrite length_app, length_units. lia.
  - apply select_None in Es.
    destruct (next_arrival_elem (q :: P)) as (m & Hm & Em); [done|].
    eapply Forall_forall in Es; [|exact Hm].
    apply not_true_iff_false in Es. apply arrived_not_true in Es.
    rewrite length_app, length_units. lia.
  - apply select_Some_split in Es as (l1 & l2 & E1 & -> & _).
    rewrite E1 in Hv. apply Forall_app in Hv as [_ Hv].
    apply Forall_cons in Hv as [Hb _].
    by apply chart_agrees_run.
  - by apply chart_agrees_idle.
  - apply select_Some_split in Es as (l1 & l2 & E1 & -> & _).
    rewrite E1 in Hv. apply Forall_app in Hv as [Hv1 Hv].
    apply Forall_cons in Hv as [_ Hv2]. by apply Forall_app.
  - done.
Qed.

Lemma constant_run_units c T g :
  contiguous_from T g → Forall (λ v, running v = c) g →
  g = units c T (T + Z.of_nat (length g)).
Proof.
  intros Hc Hall. apply list_eq. intros i.
  destruct (g !! i) as [v|] eqn:Hi.
  - rewrite units_lookup by (apply lookup_lt_Some in Hi; lia).
    f_equal. pose proof (Hc i v Hi) as Ht.
    eapply Forall_lookup in Hall; [|exact Hi]. destruct v. simpl in *.
    by subst.
  - symmetry. apply lookup_ge_None. apply lookup_ge_None in Hi.
    rewrite length_units. lia.
Qed.

Lemma contiguous_last T u g :
  contiguous_from T (u :: g) →
  time (default u (last (u :: g))) = T + Z.of_nat (length g).
Proof.
  intros Hc. destruct (last (u :: g)) as [w|] eqn:Ew;
    [|by rewrite last_cons in Ew; destruct (last g)].
  rewrite last_lookup in Ew. simpl in *. by rewrite (Hc _ _ Ew).
Qed.

Lemma groups_chart_agrees gs g0 tl0 :
  Forall (λ g, ∃ u g', g = u :: g' ∧ Forall (λ v, running v = running u) g') gs →
  contiguous_from (Z.of_nat (length tl0)) (concat gs) →
  chart_agrees g0 tl0 →
  chart_agrees (g0 ++ omap segment_of_run gs) (tl0 ++ concat gs).
Proof.
  intros Hgs. revert g0 tl0.
  induction Hgs as [|g gs (u & g' & -> & Hg) Hgs IH]; intros g0 tl0 Hc H0.
  { simpl. by rewrite !app_nil_r. }
  cbn [concat] in *. apply contiguous_from_app in Hc as [Hc1 Hc2].
  set (T := Z.of_nat (length tl0)) in *.
  assert (Forall (λ v, running v = running u) (u :: g')) as Hall
    by (by constructor).
  pose proof (constant_run_units _ _ _ Hc1 Hall) as Eg.
  rewrite app_assoc. cbn [omap list_omap]. unfold segment_of_run at 1.
  rewrite (contiguous_last _ _ _ Hc1), (Hc1 0%nat u eq_refl).
  assert (Z.of_nat (length (tl0 ++ u :: g'))
          = T + Z.of_nat (length (u :: g'))) as Hlen.
  { rewrite length_app. lia. }
  destruct (decide (running u = IDLE)) as [Ei|Ei].
  - apply IH; [by rewrite Hlen|]. rewrite Eg, Ei.
    by apply chart_agrees_idle.
  - change (g0 ++ ?s :: ?rest) with (g0 ++ [s] ++ rest).
    rewrite app_assoc. apply IH; [by rewrite Hlen|].
    rewrite Eg.
    replace (T + Z.of_nat 0) with T by lia.
    replace (T + Z.of_nat (length g') + 1)
      with (T + Z.of_nat (length (u :: g'))) by (simpl; lia).
    apply chart_agrees_run; [done|simpl; lia|done].
Qed.

(** For a valid process list the Gantt chart and the timeline of each
    scheduler show the same schedule: the segments follow one another
    without overlap, each has positive length and ends within the
    timeline, every unit under a segment is held by the segment's pid,
    and every unit that is not idle lies under a segment of its
    occupant. *)
Theorem gantt_agrees_with_timeline (l : list Process) :
  valid_procs l →
  chart_agrees (sched_gantt (fcfs_scheduler l))
               (sched_timeline (fcfs_scheduler l)) ∧
  (∀ fuel res, sjf_nonpreemptive_scheduler fuel l = Some res →
     chart_agrees (sched_gantt res) (sched_timeline res)) ∧
  (∀ fuel res, srtf_scheduler fuel l = Some res →
     chart_agrees (sched_gantt res) (sched_timeline res)).
Proof.
  intros Hv.
  assert (∀ l', l' ≡ₚ l → Forall (λ p, 0 < burst p) l') as Hb.
  { intros l' ->. eapply Forall_impl; [exact Hv|]. by intros p [_ ?]. }
  split; [|split].
  - rewrite fcfs_scheduler_eq. unfold sched_gantt, sched_timeline. cbn [fst snd].
    rewrite fcfs_fold_gantt, fcfs_fold_timeline_eq. simpl.
    apply (fcfs_chart_agrees _ [] []); [apply Hb, sorted_perm|].
    apply chart_agrees_nil.
  - intros fuel res. rewrite sjf_refines_spec by done.
    destruct l as [|p l]; [intros [= <-]; apply chart_agrees_nil|].
    unfold sjf_spec.
    destruct (sjf_spec_loop _ _) as [sp'|] eqn:Eloop; [|done].
    intros [= <-]. unfold sched_gantt, sched_timeline. cbn [fst snd].
    eapply sjf_spec_loop_chart; [| | |exact Eloop]; simpl;
      [done|apply chart_agrees_nil|by apply Hb].
  - intros fuel res Hres.
    pose proof (srtf_timeline_contiguous l fuel res Hv Hres) as Hc.
    rewrite (srtf_gantt_of_timeline l fuel res Hres).
    rewrite (gantt_segments_of_spec 0 _ Hc). unfold segments_spec.
    rewrite <- (group_runs_concat (sched_timeline res)) at 2.
    apply (groups_chart_agrees _ [] []);
      [apply group_runs_constant|by rewrite group_runs_concat|].
    apply chart_agrees_nil.
Qed.

Lemma gantt_agrees_with_timeline_witness :
  valid_procs example_procs ∧
  chart_agrees (sched_gantt (fcfs_scheduler example_procs))
               (sched_timeline (fcfs_scheduler example_procs)).
Proof.
  assert (valid_procs example_procs) as H.
  { unfold valid_procs, example_procs. repeat constructor; simpl; lia. }
  split; [exact H|]. apply (gantt_agrees_with_timeline example_procs H).
Defined.

(** ** Work conservation *)

Lemma busy_units_app tl1 tl2 :
  busy_units (tl1 ++ tl2) = busy_units tl1 + busy_units tl2.
Proof. unfold busy_units. rewrite filter_app, length_app. lia. Qed.

Lemma busy_units_const who tl :
  Forall (λ u, running u = who) tl →
  busy_units tl = if decide (who = IDLE) then 0 else Z.of_nat (length tl).
Proof.
  intros Hall. unfold busy_units. destruct (decide (who = IDLE)) as [E|E].
  - rewrite filter_none; [done|].
    eapply Forall_impl; [exact Hall|]. simpl. intros u -> H. by apply H.
  - rewrite filter_all; [done|].
    eapply Forall_impl; [exact Hall|]. simpl. by intros u ->.
Qed.

Lemma units_running who a b : Forall (λ u, running u = who) (units who a b).
Proof. apply Forall_lookup. intros i u Hi. by apply lookup_units in Hi as ->. Qed.

Lemma busy_units_take_units who a b (k : nat) :
  (k ≤ Z.to_nat (b - a))%nat →
  busy_units (take k (units who a b))
  = if decide (who = IDLE) then 0 else Z.of_nat k.
Proof.
  intros Hk. rewrite (busy_units_const who).
  - rewrite length_take, length_units. destruct (decide _); lia.
  - apply Forall_take, units_running.
Qed.

Lemma busy_units_units who a b :
  busy_units (units who a b)
  = if decide (who = IDLE) then 0 else Z.of_nat (Z.to_nat (b - a)).
Proof.
  rewrite (busy_units_const who) by apply units_running.
  by rewrite length_units.
Qed.

Lemma busy_units_pos tl u :
  u ∈ tl → running u ≠ IDLE → 0 < busy_units tl.
Proof.
  intros Hin Hr. unfold busy_units.
  assert (u ∈ filter (λ u, running u ≠ IDLE) tl) as Hf
    by (by apply list_elem_of_filter).
  destruct (filter _ tl); [by apply elem_of_nil in Hf|simpl; lia].
Qed.

Lemma busy_units_nonneg tl : 0 ≤ busy_units tl.
Proof. unfold busy_units. lia. Qed.

Lemma total_burst_app l1 l2 :
  total_burst (l1 ++ l2) = total_burst l1 + total_burst l2.
Proof. induction l1 as [|p l1 IH]; simpl; lia. Qed.

Lemma total_burst_perm l1 l2 : l1 ≡ₚ l2 → total_burst l1 = total_burst l2.
Proof. induction 1; simpl; lia. Qed.

Lemma total_burst_nonneg l :
  Forall (λ p, 0 ≤ burst p) l → 0 ≤ total_burst l.
Proof. induction 1; simpl; lia. Qed.

Lemma arrived_work_perm l1 l2 t :
  l1 ≡ₚ l2 → arrived_work l1 t = arrived_work l2 t.
Proof. intros Hp. unfold arrived_work. apply total_burst_perm. by rewrite Hp. Qed.

Lemma arrived_work_app l1 l2 t :
  arrived_work (l1 ++ l2) t = arrived_work l1 t + arrived_work l2 t.
Proof. unfold arrived_work. by rewrite filter_app, total_burst_app. Qed.

Lemma arrived_work_all l t :
  Forall (λ p, arrival p ≤ t) l → arrived_work l t = total_burst l.
Proof. intros H. unfold arrived_work. by rewrite filter_all. Qed.

Lemma arrived_work_none l t :
  Forall (λ p, t < arrival p) l → arrived_work l t = 0.
Proof.
  intros H. unfold arrived_work. rewrite filter_none; [done|].
  eapply Forall_impl; [exact H|]. simpl. lia.
Qed.

Lemma arrived_work_nonneg l t :
  Forall (λ p, 0 ≤ burst p) l → 0 ≤ arrived_work l t.
Proof.
  intros H. apply total_burst_nonneg. apply Forall_forall.
  intros p [_ Hp]%list_elem_of_filter. by eapply Forall_forall in H.
Qed.

Lemma arrived_work_ge l t p :
  Forall (λ q, 0 ≤ burst q) l → p ∈ l → arrival p ≤ t →
  burst p ≤ arrived_work l t.
Proof.
  intros Hb [l1 [l2 ->]]%list_elem_of_split Hp.
  apply Forall_app in Hb as [H1 H2]. apply Forall_cons in H2 as [_ H2].
  rewrite arrived_work_app.
  change (p :: l2) with ([p] ++ l2). rewrite arrived_work_app.
  pose proof (arrived_work_nonneg l1 t H1).
  pose proof (arrived_work_nonneg l2 t H2).
  rewrite (arrived_work_all [p]) by (by repeat constructor). simpl. lia.
Qed.

Lemma work_conserving_nil l : work_conserving l [].
Proof. intros i u. by rewrite lookup_nil. Qed.

Lemma batch_inv_init l : batch_inv l [] l [].
Proof.
  split; [done|]. split; [constructor|]. split; [done|].
  split; [apply work_conserving_nil|]. by intros _ u.
Qed.

(** The processes done have all arrived by the end of the timeline, so
    at a later unit the arrived work is theirs plus that of the pending
    ones arrived by then. *)
Lemma batch_inv_work l done pending tl (i : nat) :
  batch_inv l done pending tl → (length tl ≤ i)%nat →
  arrived_work l (Z.of_nat i) = busy_units tl + arrived_work pending (Z.of_nat i).
Proof.
  intros (Hp & Hd & Hb & _) Hi.
  rewrite (arrived_work_perm _ _ _ Hp), arrived_work_app, Hb.
  rewrite arrived_work_all; [done|].
  eapply Forall_impl; [exact Hd|]. simpl. lia.
Qed.

Lemma work_conserving_app l tl us :
  work_conserving l tl →
  (∀ (k : nat) u, us !! k = Some u →
     busy_units tl + busy_units (take k us)
       ≤ arrived_work l (Z.of_nat (length tl + k)) ∧
     (running u = IDLE ↔
      busy_units tl + busy_units (take k us)
        = arrived_work l (Z.of_nat (length tl + k)))) →
  work_conserving l (tl ++ us).
Proof.
  intros Hw Hus i u Hi. apply lookup_app_Some in Hi as [Hi|[Hlen Hi]].
  - rewrite take_app_le by (apply lookup_lt_Some in Hi; lia). by apply Hw.
  - rewrite take_app_ge, busy_units_app by done.
    replace (Z.of_nat i) with (Z.of_nat (length tl + (i - length tl))) by lia.
    by apply Hus.
Qed.

Lemma batch_inv_idle l done pending tl T T' :
  Z.of_nat (length tl) = T → pending ≠ [] →
  Forall (λ q, T' ≤ arrival q) pending →
  batch_inv l done pending tl →
  batch_inv l done pending (tl ++ units IDLE T T').
Proof.
  intros HT Hne Hlate Hinv. pose proof Hinv as (Hp & Hd & Hb & Hw & Hl).
  split; [done|]. split; [|split; [|split; [|done]]].
  - eapply Forall_impl; [exact Hd|]. simpl. intros p. rewrite length_app. lia.
  - rewrite busy_units_app, busy_units_units, decide_True by done. lia.
  - apply work_conserving_app; [done|]. intros k u Hk.
    pose proof (lookup_lt_Some _ _ _ Hk) as Hlt. rewrite length_units in Hlt.
    apply lookup_units in Hk as ->. simpl.
    rewrite busy_units_take_units by lia. rewrite decide_True by done.
    rewrite (batch_inv_work _ _ _ _ _ Hinv) by lia.
    rewrite arrived_work_none; [split; [lia|split; [lia|done]]|].
    eapply Forall_impl; [exact Hlate|]. simpl. lia.
Qed.

Lemma batch_inv_run l done l1 p l2 tl T :
  Forall (λ q, 0 ≤ burst q) l →
  Z.of_nat (length tl) = T →
  arrival p ≤ T → pid p ≠ IDLE → 0 < burst p →
  batch_inv l done (l1 ++ p :: l2) tl →
  batch_inv l (done ++ [p]) (l1 ++ l2) (tl ++ units (pid p) T (T + burst p)).
Proof.
  intros Hnn HT Ha Hpid Hburst Hinv.
  pose proof Hinv as (Hp & Hd & Hb & Hw & Hl).
  split; [|split; [|split; [|split]]].
  - rewrite Hp, <- !app_assoc. apply Permutation_app_head.
    cbn [app]. by rewrite Permutation_middle.
  - rewrite length_app. apply Forall_app. split.
    + eapply Forall_impl; [exact Hd|]. simpl. lia.
    + constructor; [lia|constructor].
  - rewrite busy_units_app, busy_units_units, total_burst_app.
    rewrite decide_False by done. simpl. lia.
  - apply work_conserving_app; [done|]. intros k u Hk.
    pose proof (lookup_lt_Some _ _ _ Hk) as Hlt. rewrite length_units in Hlt.
    apply lookup_units in Hk as ->. simpl.
    rewrite busy_units_take_units by lia. rewrite decide_False by done.
    rewrite (batch_inv_work _ _ _ _ _ Hinv) by lia.
    assert (burst p ≤ arrived_work (l1 ++ p :: l2)
                        (Z.of_nat (length tl + k))).
    { apply arrived_work_ge; [|set_solver|lia].
      rewrite Hp in Hnn. by apply Forall_app in Hnn as [_ ?]. }
    split; [lia|]. split; [done|lia].
  - intros _ u. rewrite last_app.
    destruct (last (units (pid p) T (T + burst p))) as [v|] eqn:Ev.
    + intros [= <-]. rewrite last_lookup in Ev.
      by apply lookup_units in Ev as ->.
    + apply last_None in Ev.
      apply (f_equal length) in Ev. rewrite length_units in Ev.
      simpl in Ev. lia.
Qed.

Lemma batch_inv_final l done tl :
  batch_inv l done [] tl →
  work_conserving l tl ∧ busy_units tl = total_burst l ∧ last_busy tl.
Proof.
  intros (Hp & _ & Hb & Hw & Hl). split; [done|]. split; [|by apply Hl].
  rewrite app_nil_r in Hp. by rewrite Hb, (total_burst_perm _ _ Hp).
Qed.

Lemma fcfs_batch l procs done tl :
  Forall (λ q, 0 ≤ burst q) l →
  key_sorted arrival procs →
  Forall (λ p, pid p ≠ IDLE ∧ 0 < burst p) procs →
  batch_inv l done procs tl →
  batch_inv l (done ++ procs) []
            (tl ++ units_in_order (Z.of_nat (length tl)) procs).
Proof.
  intros Hnn Hs. revert done tl.
  induction Hs as [|p ps Hs IH Hp]; intros done tl Hv Hinv.
  { simpl. by rewrite !app_nil_r. }
  apply Forall_cons in Hv as [[Hpid Hb] Hv].
  cbn [units_in_order].
  set (T := Z.of_nat (length tl)). set (start := Z.max T (arrival p)).
  assert (batch_inv l done (p :: ps) (tl ++ units IDLE T start)) as H1.
  { destruct (decide (T < arrival p)) as [Hlt|Hge].
    - apply batch_inv_idle; [done|done| |done].
      constructor; [lia|]. eapply Forall_impl; [exact Hp|].
      intros q Hq. unfold key_le in Hq. simpl in Hq.
      apply Z.leb_le in Hq. lia.
    - rewrite units_empty by lia. by rewrite app_nil_r. }
  assert (Z.of_nat (length (tl ++ units IDLE T start)) = start) as Hlen.
  { rewrite length_app, length_units. lia. }
  apply (batch_inv_run l done [] p ps _ start Hnn Hlen) in H1;
    [|lia|done|done].
  apply IH in H1; [|done].
  rewrite <- !app_assoc in H1. cbn [app] in H1.
  replace (Z.of_nat (length (tl ++ units IDLE T start
             ++ units (pid p) start (start + burst p))))
    with (start + burst p) in H1; [done|].
  rewrite !length_app, !length_units. lia.
Qed.

Lemma next_arrival_le l p : p ∈ l → next_arrival l ≤ arrival p.
Proof.
  destruct l as [|x l]; [by intros ?%elem_of_nil|]. unfold next_arrival.
  assert (∀ m, foldr (λ q m, Z.min (arrival q) m) m l ≤ m ∧
               ∀ q, q ∈ l → foldr (λ q m, Z.min (arrival q) m) m l ≤ arrival q)
    as Hmin.
  { intros m. induction l as [|y l [IH1 IH2]]; simpl.
    - split; [lia|]. by intros q ?%elem_of_nil.
    - split; [lia|]. intros q [->|Hq]%elem_of_cons; [lia|].
      specialize (IH2 q Hq). lia. }
  destruct (Hmin (arrival x)) as [H1 H2].
  intros [->|Hp]%elem_of_cons; [done|by apply H2].
Qed.

Lemma sjf_spec_loop_batch l fuel sp sp' done :
  Forall (λ q, 0 ≤ burst q) l →
  Forall (λ p, pid p ≠ IDLE ∧ 0 < burst p) (sp_pending sp) →
  Z.of_nat (length (sp_timeline sp)) = sp_time sp →
  batch_inv l done (sp_pending sp) (sp_timeline sp) →
  sjf_spec_loop fuel sp = Some sp' →
  ∃ done', batch_inv l done' [] (sp_timeline sp').
Proof.
  intros Hnn. revert sp done.
  induction fuel as [|fuel IH]; intros sp done Hv HT Hinv; simpl.
  { destruct (sp_pending sp) eqn:EP; [|done]. intros [= <-]. eauto. }
  destruct (sp_pending sp) as [|q P] eqn:EP; [intros [= <-]; eauto|].
  unfold sjf_spec_step. rewrite EP.
  destruct (select sjf_key (arrived (sp_time sp)) (q :: P))
    as [[p rest]|] eqn:Es.
  - apply select_Some_split in Es as (l1 & l2 & E1 & -> & Hp & _).
    apply arrived_true in Hp. rewrite E1 in Hv, Hinv.
    pose proof Hv as Hv'. apply Forall_app in Hv' as [Hv1 Hv2].
    apply Forall_cons in Hv2 as [[Hpid Hb] Hv2].
    apply (IH _ (done ++ [p])); cbn [sp_pending sp_timeline sp_time].
    + by apply Forall_app.
    + rewrite length_app, length_units. lia.
    + by apply batch_inv_run.
  - apply select_None in Es.
    apply (IH _ done); cbn [sp_pending sp_timeline sp_time].
    + done.
    + destruct (next_arrival_elem (q :: P)) as (m & Hm & Em); [done|].
      eapply Forall_forall in Es; [|exact Hm].
      apply not_true_iff_false in Es. apply arrived_not_true in Es.
      rewrite length_app, length_units. lia.
    + apply batch_inv_idle; [done|done| |done].
      apply Forall_forall. intros m Hm. by apply next_arrival_le.
Qed.

Lemma valid_procs_batch l :
  valid_procs l → (∀ p, p ∈ l → pid p ≠ IDLE) →
  Forall (λ q, 0 ≤ burst q) l ∧
  ∀ l', l' ≡ₚ l → Forall (λ p, pid p ≠ IDLE ∧ 0 < burst p) l'.
Proof.
  intros Hv Hidle. split.
  - eapply Forall_impl; [exact Hv|]. simpl. lia.
  - intros l' Hp. rewrite Hp. apply Forall_forall. intros p Hin.
    split; [by apply Hidle|]. eapply Forall_forall in Hv; [|done]. lia.
Qed.

Lemma fcfs_work l :
  valid_procs l → (∀ p, p ∈ l → pid p ≠ IDLE) →
  work_conserving l (sched_timeline (fcfs_scheduler l)) ∧
  busy_units (sched_timeline (fcfs_scheduler l)) = total_burst l ∧
  last_busy (sched_timeline (fcfs_scheduler l)).
Proof.
  intros Hv Hidle. destruct (valid_procs_batch l Hv Hidle) as [Hnn Hall].
  rewrite fcfs_scheduler_eq. unfold sched_timeline. cbn [snd].
  rewrite fcfs_fold_timeline_eq. simpl.
  apply (batch_inv_final l ([] ++ sorted arrival l)).
  apply (fcfs_batch l (sorted arrival l) [] []);
    [done|apply sorted_sorted|apply Hall, sorted_perm|].
  split; [by rewrite sorted_perm|]. split; [constructor|].
  split; [done|]. split; [apply work_conserving_nil|]. by intros _ u.
Qed.

Lemma sjf_work l fuel res :
  valid_procs l → (∀ p, p ∈ l → pid p ≠ IDLE) →
  sjf_nonpreemptive_scheduler fuel l = Some res →
  work_conserving l (sched_timeline res) ∧
  busy_units (sched_timeline res) = total_burst l ∧
  last_busy (sched_timeline res).
Proof.
  intros Hv Hidle. destruct (valid_procs_batch l Hv Hidle) as [Hnn Hall].
  rewrite sjf_refines_spec by done.
  destruct l as [|p l].
  { intros [= <-]. apply (batch_inv_final [] []), batch_inv_init. }
  unfold sjf_spec. destruct (sjf_spec_loop _ _) as [sp'|] eqn:Eloop; [|done].
  intros [= <-]. unfold sched_timeline. cbn [snd].
  eapply (sjf_spec_loop_batch (p :: l) _ _ _ []) in Eloop as [done' Hinv];
    [by eapply batch_inv_final|done|by apply Hall|done|apply batch_inv_init].
Qed.

Lemma srtf_arrived_split (rb : gmap string Z) l t :
  (∀ p, p ∈ l → t < arrival p → rb !!! pid p = burst p) →
  arrived_work l t - (total_burst l - total_remaining rb l)
  = total_remaining rb (filter (λ p, arrival p ≤ t) l).
Proof.
  unfold arrived_work. induction l as [|x l IH]; intros Hl; [done|].
  assert (∀ p, p ∈ l → t < arrival p → rb !!! pid p = burst p) as Hl'.
  { intros p Hp. apply Hl. by right. }
  specialize (IH Hl'). rewrite filter_cons.
  destruct (decide (arrival x ≤ t)) as [Hx|Hx]; simpl in *.
  - lia.
  - rewrite (Hl x) by (by left + lia). lia.
Qed.

Lemma srtf_reachable_work l st :
  valid_procs l → NoDup (pid <$> l) → (∀ p, p ∈ l → pid p ≠ IDLE) →
  srtf_reachable l st → work_conserving l (s_timeline st).
Proof.
  intros Hv Hnd Hidle. induction 1 as [|st Hreach IH Hguard].
  { apply work_conserving_nil. }
  pose proof (srtf_reachable_inv l Hv Hnd st Hreach) as Hinv.
  rewrite (srtf_inv_body l Hnd st Hinv).
  destruct (inv_time _ _ Hinv) as [Hlen _].
  destruct (inv_busy _ _ Hinv Hidle) as (Hbusy & _).
  assert (∀ p, p ∈ l →
            0 ≤ s_remaining_burst st !!! pid p ≤ burst p ∧
            (s_time st < arrival p →
             s_remaining_burst st !!! pid p = burst p)) as Hrb.
  { intros p Hp. destruct (inv_rb _ _ Hinv p Hp) as (r & Hr & Hb & _ & Hrun).
    rewrite (lookup_total_correct _ _ _ Hr). split; [done|]. lia. }
  pose proof (srtf_arrived_split (s_remaining_burst st) l (s_time st)
                (λ p Hp, proj2 (Hrb p Hp))) as Hsplit.
  assert (∀ p, p ∈ filter (λ p, arrival p ≤ s_time st) l →
               0 ≤ s_remaining_burst st !!! pid p) as Hnn.
  { intros p [_ Hp]%list_elem_of_filter. by apply Hrb. }
  unfold srtf_spec_step.
  destruct (srtf_pick l st) as [cur|] eqn:Epick; cbn [s_timeline];
    apply work_conserving_app; try done; intros [|k] u; try done;
    intros [= <-]; cbn [take running];
    replace (Z.of_nat (length (s_timeline st) + 0)) with (s_time st) by lia;
    replace (busy_units []) with 0 by done.
  - apply (srtf_pick_Some l) in Epick as (Hin & Ha & Hr).
    assert (0 < total_remaining (s_remaining_burst st)
                  (filter (λ p, arrival p ≤ s_time st) l)).
    { eapply total_remaining_pos; [done| |done].
      by apply list_elem_of_filter. }
    split; [lia|]. split; [by intros ?%Hidle|lia].
  - assert (total_remaining (s_remaining_burst st)
              (filter (λ p, arrival p ≤ s_time st) l) = 0).
    { apply total_remaining_zero. intros p [Ha Hp]%list_elem_of_filter.
      pose proof (srtf_pick_None l st p Epick Hp).
      destruct (Hrb p Hp). lia. }
    split; [lia|]. split; [lia|done].
Qed.

Lemma srtf_work l fuel res :
  valid_procs l → (∀ p, p ∈ l → pid p ≠ IDLE) →
  srtf_scheduler fuel l = Some res →
  work_conserving l (sched_timeline res) ∧
  busy_units (sched_timeline res) = total_burst l ∧
  last_busy (sched_timeline res).
Proof.
  intros Hv Hidle Hres.
  destruct (decide (NoDup (pid <$> l))) as [Hnd|Hdup]; cycle 1.
  { by rewrite srtf_scheduler_dup_diverges in Hres. }
  destruct l as [|p0 l0] eqn:El.
  { injection Hres as <-. split; [apply work_conserving_nil|].
    split; [done|]. by intros u. }
  rewrite <- El in *. assert (l ≠ []) as Hne by (by rewrite El).
  destruct (srtf_scheduler_final l fuel res Hv Hnd Hne Hres) as (_ & _ & Hb).
  destruct (srtf_scheduler_Some l fuel res Hne Hres) as (st & Hreach & Hsz & ->).
  unfold sched_timeline in *. cbn [snd] in *.
  split; [by apply srtf_reachable_work|]. split; [by apply Hb|].
  pose proof (srtf_reachable_inv l Hv Hnd st Hreach) as Hinv.
  destruct (inv_last _ _ Hinv Hsz Hne) as (p & Hp & Hct).
  destruct (inv_ct _ _ Hinv p _ Hp Hct) as (Hpos & _ & Hu).
  destruct (inv_time _ _ Hinv) as [Hlen _].
  intros u. rewrite last_lookup.
  replace (pred (length (s_timeline st))) with (Z.to_nat (s_time st - 1)) by lia.
  rewrite Hu. intros [= <-]. by apply Hidle.
Qed.

(** Two work-conserving timelines of one process list have the same busy
    count before every unit they both have. *)
Lemma work_conserving_busy l tl1 tl2 (i : nat) :
  work_conserving l tl1 → work_conserving l tl2 →
  (i ≤ length tl1)%nat → (i ≤ length tl2)%nat →
  busy_units (take i tl1) = busy_units (take i tl2).
Proof.
  intros H1 H2. induction i as [|i IH]; intros L1 L2; [done|].
  destruct (lookup_lt_is_Some_2 tl1 i) as [u1 Hu1]; [lia|].
  destruct (lookup_lt_is_Some_2 tl2 i) as [u2 Hu2]; [lia|].
  rewrite (take_S_r _ _ _ Hu1), (take_S_r _ _ _ Hu2), !busy_units_snoc.
  specialize (IH ltac:(lia) ltac:(lia)).
  destruct (H1 i u1 Hu1) as [_ E1]. destruct (H2 i u2 Hu2) as [_ E2].
  rewrite IH in *.
  destruct (decide (running u1 = IDLE)) as [D1|D1],
           (decide (running u2 = IDLE)) as [D2|D2]; try lia.
  - exfalso. apply D2, E2. by apply E1.
  - exfalso. apply D1, E1. by apply E2.
Qed.

Lemma work_conserving_length_le l tl1 tl2 :
  work_conserving l tl1 → work_conserving l tl2 →
  busy_units tl1 = busy_units tl2 → last_busy tl2 →
  (length tl2 ≤ length tl1)%nat.
Proof.
  intros H1 H2 Hb Hlast.
  destruct (decide (length tl2 ≤ length tl1)%nat) as [|Hlt]; [done|].
  exfalso.
  pose proof (work_conserving_busy l tl1 tl2 (length tl1) H1 H2) as E.
  rewrite firstn_all in E. specialize (E ltac:(lia) ltac:(lia)).
  rewrite <- (take_drop (length tl1) tl2), busy_units_app in Hb.
  destruct (last tl2) as [u|] eqn:Eu.
  - assert (u ∈ drop (length tl1) tl2) as Hin.
    { rewrite last_lookup in Eu. apply list_elem_of_lookup.
      exists (pred (length tl2) - length tl1)%nat.
      rewrite lookup_drop. rewrite <- Eu. f_equal. lia. }
    pose proof (busy_units_pos _ _ Hin (Hlast u Eu)). lia.
  - apply last_None in Eu. subst tl2. simpl in Hlt. lia.
Qed.

Lemma work_conserving_same l tl1 tl2 :
  work_conserving l tl1 → work_conserving l tl2 →
  busy_units tl1 = busy_units tl2 → last_busy tl1 → last_busy tl2 →
  length tl1 = length tl2 ∧
  ∀ (i : nat) u1 u2, tl1 !! i = Some u1 → tl2 !! i = Some u2 →
    (running u1 = IDLE ↔ running u2 = IDLE).
Proof.
  intros H1 H2 Hb L1 L2. split.
  - pose proof (work_conserving_length_le l tl1 tl2 H1 H2 Hb L2).
    pose proof (work_conserving_length_le l tl2 tl1 H2 H1 (eq_sym Hb) L1).
    lia.
  - intros i u1 u2 Hu1 Hu2.
    destruct (H1 i u1 Hu1) as [_ E1]. destruct (H2 i u2 Hu2) as [_ E2].
    rewrite E1, E2.
    rewrite (work_conserving_busy l tl1 tl2 i H1 H2);
      [done|apply lookup_lt_Some in Hu1; lia|apply lookup_lt_Some in Hu2; lia].
Qed.

Lemma srtf_timeline_upto l fuel res :
  valid_procs l → srtf_scheduler fuel l = Some res →
  timeline_upto (last_completion (sched_rows res)) (sched_timeline res).
Proof.
  intros Hv Hres. destruct (decide (NoDup (pid <$> l))) as [Hnd|Hdup].
  - destruct l as [|p l].
    + injection Hres as <-. apply timeline_upto_nil.
    + by destruct (srtf_scheduler_final (p :: l) fuel res Hv Hnd) as (_ & ? & _).
  - by rewrite srtf_scheduler_dup_diverges in Hres.
Qed.

(** No scheduler lets the CPU idle while a process that has arrived is
    unfinished, and none runs work that has not arrived: with no process
    named like the idle sentinel, a unit of the timeline is idle exactly
    when the busy units before it number the bursts of the processes
    arrived by then. The busy units of the whole timeline number the
    total burst, also for FCFS and SJF, and the last unit is busy. *)
Theorem schedulers_are_work_conserving (l : list Process) :
  valid_procs l → Forall (λ p, pid p ≠ IDLE) l →
  let ok tl :=
    work_conserving l tl ∧ busy_units tl = total_burst l ∧ last_busy tl in
  ok (sched_timeline (fcfs_scheduler l)) ∧
  (∀ fuel res, sjf_nonpreemptive_scheduler fuel l = Some res →
               ok (sched_timeline res)) ∧
  (∀ fuel res, srtf_scheduler fuel l = Some res → ok (sched_timeline res)).
Proof.
  intros Hv Hidle ok. rewrite Forall_forall in Hidle.
  split; [by apply fcfs_work|]. split; intros fuel res Hres.
  - by eapply sjf_work.
  - by eapply srtf_work.
Qed.

Lemma schedulers_are_work_conserving_witness :
  valid_procs example_procs ∧ Forall (λ p, pid p ≠ IDLE) example_procs ∧
  busy_units (sched_timeline (fcfs_scheduler example_procs))
  = total_burst example_procs.
Proof.
  assert (valid_procs example_procs) as Hv.
  { unfold valid_procs, example_procs. repeat constructor; simpl; lia. }
  assert (Forall (λ p, pid p ≠ IDLE) example_procs) as Hidle.
  { unfold example_procs. by repeat constructor. }
  split; [exact Hv|]. split; [exact Hidle|].
  apply (schedulers_are_work_conserving example_procs Hv Hidle).
Defined.

(** The three algorithms differ only in which process they run: on one
    valid process list, none named like the idle sentinel, their
    timelines have the same length, the last completion time is the same,
    and the CPU is idle in the same time units. *)
Theorem schedulers_idle_in_the_same_units (l : list Process)
    (fuel1 fuel2 : nat) (sjf srtf : Schedule) :
  valid_procs l → Forall (λ p, pid p ≠ IDLE) l →
  sjf_nonpreemptive_scheduler fuel1 l = Some sjf →
  srtf_scheduler fuel2 l = Some srtf →
  let fcfs := fcfs_scheduler l in
  last_completion (sched_rows fcfs) = last_completion (sched_rows sjf) ∧
  last_completion (sched_rows sjf) = last_completion (sched_rows srtf) ∧
  length (sched_timeline fcfs) = length (sched_timeline sjf) ∧
  length (sched_timeline sjf) = length (sched_timeline srtf) ∧
  ∀ (i : nat) u1 u2 u3,
    sched_timeline fcfs !! i = Some u1 → sched_timeline sjf !! i = Some u2 →
    sched_timeline srtf !! i = Some u3 →
    (running u1 = IDLE ↔ running u2 = IDLE) ∧
    (running u2 = IDLE ↔ running u3 = IDLE).
Proof.
  intros Hv Hidle Hsjf Hsrtf fcfs. rewrite Forall_forall in Hidle.
  destruct (fcfs_work l Hv Hidle) as (W1 & B1 & L1).
  destruct (sjf_work l fuel1 sjf Hv Hidle Hsjf) as (W2 & B2 & L2).
  destruct (srtf_work l fuel2 srtf Hv Hidle Hsrtf) as (W3 & B3 & L3).
  destruct (work_conserving_same l _ _ W1 W2) as [E12 I12];
    [congruence|done|done|].
  destruct (work_conserving_same l _ _ W2 W3) as [E23 I23];
    [congruence|done|done|].
  destruct (fcfs_final l Hv) as (_ & _ & [T1 _]).
  destruct (sjf_final l fuel1 sjf Hv Hsjf) as (_ & _ & [T2 _]).
  destruct (srtf_timeline_upto l fuel2 srtf Hv Hsrtf) as [T3 _].
  fold fcfs in T1, E12, I12.
  split; [lia|]. split; [lia|]. split; [done|]. split; [done|].
  intros i u1 u2 u3 H1 H2 H3. split; [by eapply I12|by eapply I23].
Qed.

Lemma schedulers_idle_in_the_same_units_witness :
  valid_procs example_procs ∧ Forall (λ p, pid p ≠ IDLE) example_procs ∧
  ∃ sjf srtf,
    sjf_nonpreemptive_scheduler 8 example_procs = Some sjf ∧
    srtf_scheduler 22 example_procs = Some srtf ∧
    last_completion (sched_rows (fcfs_scheduler example_procs))
    = last_completion (sched_rows sjf) ∧
    last_completion (sched_rows sjf) = last_completion (sched_rows srtf).
Proof.
  assert (valid_procs example_procs) as Hv.
  { unfold valid_procs, example_procs. repeat constructor; simpl; lia. }
  assert (Forall (λ p, pid p ≠ IDLE) example_procs) as Hidle.
  { unfold example_procs. by repeat constructor. }
  assert (is_Some (sjf_nonpreemptive_scheduler 8 example_procs)) as [sjf E1].
  { vm_compute. by eexists. }
  assert (is_Some (srtf_scheduler 22 example_procs)) as [srtf E2].
  { vm_compute. by eexists. }
  split; [exact Hv|]. split; [exact Hidle|]. exists sjf, srtf.
  split; [exact E1|]. split; [exact E2|].
  destruct (schedulers_idle_in_the_same_units example_procs 8 22 sjf srtf
              Hv Hidle E1 E2) as (H1 & H2 & _).
  by split.
Defined.

(** ** The unused field *)

Section relabel.
Context (g : Process → Process).
Hypothesis Hpid : ∀ p, pid (g p) = pid p.
Hypothesis Harrival : ∀ p, arrival (g p) = arrival p.
Hypothesis Hburst : ∀ p, burst (g p) = burst p.

Lemma result_row_relabel p ct : result_row (g p) ct = result_row p ct.
Proof. unfold result_row. by rewrite Hpid, Harrival, Hburst. Qed.

Lemma filter_fmap_relabel (P Q : Process → Prop)
    `{∀ x, Decision (P x), ∀ x, Decision (Q x)} (l : list Process) :
  (∀ x, P (g x) ↔ Q x) → filter P (g <$> l) = g <$> filter Q l.
Proof.
  intros HPQ. induction l as [|x l IH]; [done|].
  rewrite fmap_cons, !filter_cons, IH.
  destruct (decide (P (g x))) as [HP|HP], (decide (Q x)) as [HQ|HQ];
    try done; exfalso; [apply HQ|apply HP]; by apply HPQ.
Qed.

Lemma fcfs_scheduler_relabel l :
  fcfs_scheduler (g <$> l) = fcfs_scheduler l.
Proof.
  rewrite !fcfs_scheduler_eq.
  rewrite <- (sorted_fmap g arrival arrival) by done.
  rewrite foldl_fmap.
  assert (∀ st p, fcfs_step st (g p) = fcfs_step st p) as Hstep.
  { intros st p. unfold fcfs_step.
    by rewrite Hpid, Harrival, Hburst, result_row_relabel. }
  generalize (mkFcfs 0 [] [] []). generalize (sorted arrival l).
  intros procs. induction procs as [|p procs IH]; intros st; [done|].
  simpl. by rewrite Hstep, IH.
Qed.

Lemma move_arrived_relabel tm ready remaining :
  move_arrived tm (g <$> ready) (g <$> remaining)
  = ((g <$> (move_arrived tm ready remaining).1),
     (g <$> (move_arrived tm ready remaining).2)).
Proof.
  revert ready. induction remaining as [|p remaining IH]; intros ready; [done|].
  cbn [move_arrived fmap list_fmap]. rewrite Harrival.
  case_bool_decide; [|done].
  specialize (IH (ready ++ [p])). rewrite fmap_app in IH. apply IH.
Qed.

Lemma sjf_body_relabel st :
  sjf_body (sjf_relabel g st) = sjf_relabel g (sjf_body st).
Proof.
  unfold sjf_body, sjf_relabel. cbn [j_time j_gantt j_results j_timeline
    j_ready j_remaining]. rewrite move_arrived_relabel.
  destruct (move_arrived (j_time st) (j_ready st) (j_remaining st))
    as [ready remaining]. cbn [fst snd].
  destruct ready as [|r ready].
  { destruct remaining as [|r0 remaining]; [done|].
    cbn [fmap list_fmap]. by rewrite Harrival. }
  rewrite <- (sorted_fmap g burst burst) by done.
  cbn [fmap list_fmap].
  destruct (sorted burst (r :: ready)) as [|p ready']; [done|].
  cbn [fmap list_fmap]. by rewrite Hpid, Hburst, result_row_relabel.
Qed.

Lemma sjf_loop_relabel fuel st :
  sjf_loop fuel (sjf_relabel g st) = sjf_relabel g <$> sjf_loop fuel st.
Proof.
  revert st. induction fuel as [|fuel IH]; intros st; cbn [sjf_loop].
  - unfold sjf_relabel at 1 2. cbn [j_ready j_remaining].
    by destruct (j_remaining st), (j_ready st).
  - unfold sjf_relabel at 1 2. cbn [j_ready j_remaining].
    destruct (j_remaining st) eqn:E1, (j_ready st) eqn:E2; try done;
      by rewrite sjf_body_relabel, IH.
Qed.

Lemma sjf_scheduler_relabel fuel l :
  sjf_nonpreemptive_scheduler fuel (g <$> l)
  = sjf_nonpreemptive_scheduler fuel l.
Proof.
  destruct l as [|p l]; [done|].
  unfold sjf_nonpreemptive_scheduler. cbn [fmap list_fmap].
  change (g p :: (g <$> l)) with (g <$> (p :: l)).
  assert (sjf_init (g <$> p :: l) = sjf_relabel g (sjf_init (p :: l))) as ->.
  { unfold sjf_init, sjf_relabel. cbn [j_time j_gantt j_results j_timeline
      j_ready j_remaining]. f_equal.
    symmetry. apply sorted_fmap. intros x. by rewrite Harrival, Hburst. }
  rewrite sjf_loop_relabel. by destruct (sjf_loop fuel _).
Qed.

Lemma dict_of_relabel (f : Process → Z) procs :
  (∀ p, f (g p) = f p) → dict_of f (g <$> procs) = dict_of f procs.
Proof.
  intros Hf. unfold dict_of. rewrite foldl_fmap.
  generalize (∅ : gmap string Z).
  induction procs as [|p procs IH]; intros m; [done|].
  simpl. by rewrite Hpid, Hf, IH.
Qed.

Lemma srtf_body_relabel procs amap st :
  srtf_body (g <$> procs) amap st = srtf_body procs amap st.
Proof.
  unfold srtf_body, srtf_available.
  rewrite (filter_fmap_relabel _
    (λ p, amap !!! pid p ≤ s_time st ∧ s_completed st !! pid p = None))
    by (intros x; by rewrite Hpid).
  destruct (filter _ procs) as [|a available]; [done|].
  rewrite fmap_cons. cbv beta iota. rewrite <- fmap_cons.
  rewrite <- (sorted_fmap g (λ p, s_remaining_burst st !!! pid p)
                (λ p, s_remaining_burst st !!! pid p))
    by (intros x; by rewrite Hpid).
  destruct (sorted _ (a :: available)) as [|cur rest]; [done|].
  rewrite fmap_cons. cbv beta iota. by rewrite Hpid.
Qed.

Lemma srtf_loop_relabel fuel procs n amap st :
  srtf_loop fuel (g <$> procs) n amap st = srtf_loop fuel procs n amap st.
Proof.
  revert st. induction fuel as [|fuel IH]; intros st; [done|].
  cbn [srtf_loop]. by rewrite srtf_body_relabel, IH.
Qed.

Lemma srtf_scheduler_relabel fuel l :
  srtf_scheduler fuel (g <$> l) = srtf_scheduler fuel l.
Proof.
  destruct l as [|p l]; [done|].
  unfold srtf_scheduler. cbn [fmap list_fmap].
  change (g p :: (g <$> l)) with (g <$> (p :: l)).
  rewrite <- (sorted_fmap g arrival arrival) by done.
  rewrite length_fmap, srtf_loop_relabel. unfold srtf_init.
  rewrite !dict_of_relabel by done.
  destruct (srtf_loop _ _ _ _ _) as [st|]; [|done]. simpl.
  do 3 f_equal. rewrite <- list_fmap_compose. apply list_fmap_ext.
  intros i x _. simpl. by rewrite result_row_relabel, Hpid.
Qed.
End relabel.

(** The priority of a process is never looked at: replacing the processes
    by others of the same pid, arrival and burst, whatever else differs,
    changes no Gantt chart, no result table and no timeline, nor whether
    a scheduler returns. *)
Theorem priority_is_never_used (g : Process → Process) (l : list Process) :
  (∀ p, pid (g p) = pid p ∧ arrival (g p) = arrival p ∧ burst (g p) = burst p) →
  fcfs_scheduler (g <$> l) = fcfs_scheduler l ∧
  (∀ fuel, sjf_nonpreemptive_scheduler fuel (g <$> l)
           = sjf_nonpreemptive_scheduler fuel l) ∧
  (∀ fuel, srtf_scheduler fuel (g <$> l) = srtf_scheduler fuel l).
Proof.
  intros Hg.
  assert (∀ p, pid (g p) = pid p) as H1 by (intros p; apply Hg).
  assert (∀ p, arrival (g p) = arrival p) as H2 by (intros p; apply Hg).
  assert (∀ p, burst (g p) = burst p) as H3 by (intros p; apply Hg).
  split; [by apply fcfs_scheduler_relabel|]. split; intros fuel.
  - by apply sjf_scheduler_relabel.
  - by apply srtf_scheduler_relabel.
Qed.

Lemma priority_is_never_used_witness :
  (∀ p, pid (mkProcess (pid p) (arrival p) (burst p) 7) = pid p ∧
        arrival (mkProcess (pid p) (arrival p) (burst p) 7) = arrival p ∧
        burst (mkProcess (pid p) (arrival p) (burst p) 7) = burst p) ∧
  fcfs_scheduler
    ((λ p, mkProcess (pid p) (arrival p) (burst p) 7) <$> example_procs)
  = fcfs_scheduler example_procs.
Proof.
  assert (∀ p, pid (mkProcess (pid p) (arrival p) (burst p) 7) = pid p ∧
               arrival (mkProcess (pid p) (arrival p) (burst p) 7) = arrival p ∧
               burst (mkProcess (pid p) (arrival p) (burst p) 7) = burst p) as H
    by done.
  split; [exact H|].
  apply (priority_is_never_used
           (λ p, mkProcess (pid p) (arrival p) (burst p) 7) example_procs H).
Defined.

(** ** Rejected input *)

Section parse_errors.
Variable int_of_text : string → option Z.
Variable str_of_float : Q → string.

Lemma parse_rows_app df i rs1 rs2 acc :
  parse_rows int_of_text str_of_float df i (rs1 ++ rs2) acc
  = match parse_rows int_of_text str_of_float df i rs1 acc with
    | inl e => inl e
    | inr procs =>
        parse_rows int_of_text str_of_float df (i + length rs1) rs2 procs
    end.
Proof.
  revert i acc. induction rs1 as [|r rs1 IH]; intros i acc; simpl.
  { by rewrite Nat.add_0_r. }
  destruct (parse_row _ _ _ _ _) as [e|p]; [done|].
  rewrite IH. by replace (S i + length rs1)%nat with (i + S (length rs1))%nat by lia.
Qed.




End parse_errors.



(** The dtypes matter: the row [pid 1, arrival -1, burst 1] alone is
    rejected under the pid ["1"], and under the text of the float 1.0
    when a later row makes the arrival column float64. *)
Example later_rows_change_the_pid_text (str_of_float : Q → string) :
  parse_df_to_processes (λ _, None) str_of_float
    (mkDataFrame ["pid"; "arrival"; "burst"]
       [row_of [("pid", CInt 1); ("arrival", CInt (-1)); ("burst", CInt 1)]])
  = inl (InvalidData "1" NegativeArrival) ∧
  parse_df_to_processes (λ _, None) str_of_float
    (mkDataFrame ["pid"; "arrival"; "burst"]
       [row_of [("pid", CInt 1); ("arrival", CInt (-1)); ("burst", CInt 1)];
        row_of [("pid", CInt 2); ("arrival", CFloat (1 # 2));
                ("burst", CInt 1)]])
  = inl (InvalidData (str_of_float 1%Q) NegativeArrival).
Proof. split; by vm_compute. Qed.

(** ** Order of service *)

Lemma run_in_order_bounds tm procs :
  Forall (λ p, 0 ≤ burst p) procs →
  Forall (λ ps, tm ≤ ps.2 ∧ ps.1 ∈ procs) (run_in_order tm procs).
Proof.
  intros Hv. revert tm. induction Hv as [|p ps Hb Hv IH]; intros tm; simpl.
  { constructor. }
  constructor; [split; [simpl; lia|left]|].
  eapply Forall_impl; [apply IH|]. intros [q s] [Hs Hq]. simpl in *.
  split; [lia|by right].
Qed.

Lemma run_in_order_served tm procs :
  key_sorted arrival procs → Forall (λ p, 0 < burst p) procs →
  StronglySorted
    (λ r1 r2, AT r1 ≤ AT r2 ∧ CT r1 ≤ CT r2 - BT r2 ∧ CT r1 < CT r2)
    (row_at <$> run_in_order tm procs).
Proof.
  intros Hs. revert tm. induction Hs as [|p ps Hs IH Hp]; intros tm Hv; simpl.
  { constructor. }
  apply Forall_cons in Hv as [Hb Hv].
  constructor; [by apply IH|].
  apply Forall_fmap.
  eapply Forall_impl; [apply run_in_order_bounds|].
  { eapply Forall_impl; [exact Hv|]. simpl. lia. }
  intros [q s] [Hge Hq]. simpl in *.
  eapply Forall_forall in Hp; [|exact Hq].
  eapply Forall_forall in Hv; [|exact Hq].
  unfold key_le in Hp. simpl in Hp. apply Z.leb_le in Hp. lia.
Qed.

(** FCFS serves in order of arrival: in its result table no row arrives
    before the row above it, each process starts when or after the one
    above it completes, and completion times strictly increase, so no
    process overtakes one that arrived before it. *)
Theorem fcfs_serves_in_arrival_order (l : list Process) :
  valid_procs l →
  StronglySorted
    (λ r1 r2, AT r1 ≤ AT r2 ∧ CT r1 ≤ CT r2 - BT r2 ∧ CT r1 < CT r2)
    (sched_rows (fcfs_scheduler l)).
Proof.
  intros Hv. rewrite fcfs_scheduler_eq. unfold sched_rows. cbn [fst snd].
  rewrite fcfs_fold_results. simpl.
  apply run_in_order_served; [apply sorted_sorted|].
  rewrite sorted_perm. eapply Forall_impl; [exact Hv|]. simpl. lia.
Qed.

Lemma fcfs_serves_in_arrival_order_witness :
  valid_procs example_procs ∧
  StronglySorted
    (λ r1 r2, AT r1 ≤ AT r2 ∧ CT r1 ≤ CT r2 - BT r2 ∧ CT r1 < CT r2)
    (sched_rows (fcfs_scheduler example_procs)).
Proof.
  assert (valid_procs example_procs) as Hv.
  { unfold valid_procs, example_procs. repeat constructor; simpl; lia. }
  split; [exact Hv|]. apply (fcfs_serves_in_arrival_order example_procs Hv).
Defined.

(** ** Termination *)

(** FCFS is a single pass and SJF ends within [2n] iterations on every
    valid list, but SRTF ends exactly when the pids are pairwise
    distinct: it waits for as many completed pids as there are
    processes. *)
Theorem srtf_returns_iff_pids_distinct (l : list Process) :
  valid_procs l →
  is_Some (sjf_nonpreemptive_scheduler (2 * length l) l) ∧
  ((∃ fuel, is_Some (srtf_scheduler fuel l)) ↔ NoDup (pid <$> l)) ∧
  (¬ NoDup (pid <$> l) → ∀ fuel, srtf_scheduler fuel l = None).
Proof.
  intros Hv. split; [|split].
  - rewrite sjf_refines_spec by done. by apply sjf_spec_terminates.
  - split.
    + intros [fuel Hs]. destruct (decide (NoDup (pid <$> l))) as [|Hd]; [done|].
      rewrite srtf_scheduler_dup_diverges in Hs by done. by destruct Hs.
    + intros Hnd. eexists. by apply srtf_scheduler_terminates.
  - intros Hd fuel. by apply srtf_scheduler_dup_diverges.
Qed.

Lemma srtf_returns_iff_pids_distinct_witness :
  valid_procs [mkProcess "A" 0 1 0; mkProcess "A" 0 1 0] ∧
  ¬ NoDup (pid <$> [mkProcess "A" 0 1 0; mkProcess "A" 0 1 0]) ∧
  ∀ fuel, srtf_scheduler fuel [mkProcess "A" 0 1 0; mkProcess "A" 0 1 0] = None.
Proof.
  assert (valid_procs [mkProcess "A" 0 1 0; mkProcess "A" 0 1 0]) as Hv.
  { repeat constructor; simpl; lia. }
  assert (¬ NoDup (pid <$> [mkProcess "A" 0 1 0; mkProcess "A" 0 1 0])) as Hd.
  { simpl. intros H. apply NoDup_cons in H as [H _]. apply H. left. }
  split; [exact Hv|]. split; [exact Hd|].
  by apply (srtf_returns_iff_pids_distinct _ Hv).
Defined.

(** ** The sections of the page *)







(** ** Service received *)

Lemma executed_app who tl1 tl2 :
  executed who (tl1 ++ tl2) = executed who tl1 + executed who tl2.
Proof. unfold executed. rewrite filter_app, length_app. lia. Qed.

Lemma executed_units who who' a b :
  executed who (units who' a b)
  = if decide (who' = who) then Z.of_nat (Z.to_nat (b - a)) else 0.
Proof.
  unfold executed. destruct (decide (who' = who)) as [E|E].
  - rewrite filter_all; [by rewrite length_units|].
    eapply Forall_impl; [apply (units_running who')|]. simpl. congruence.
  - rewrite filter_none; [done|].
    eapply Forall_impl; [apply (units_running who')|]. simpl. congruence.
Qed.

Lemma serves_exactly_perm l1 l2 tl :
  l1 ≡ₚ l2 → serves_exactly l1 tl → serves_exactly l2 tl.
Proof.
  intros Hp [H1 H2]. split.
  - intros p Hin. apply H1. by rewrite Hp.
  - intros i u Hi. destruct (H2 i u Hi) as [?|(p & Hin & ?)]; [by left|].
    right. exists p. by rewrite <- Hp.
Qed.

Lemma serves_exactly_fresh done tl who :
  serves_exactly done tl → who ≠ IDLE → who ∉ pid <$> done →
  executed who tl = 0.
Proof.
  intros [_ H2] Hidle Hnew. unfold executed. rewrite filter_none; [done|].
  apply Forall_lookup. intros i u Hi Hr.
  destruct (H2 i u Hi) as [E|(p & Hin & E & _)]; [congruence|].
  apply Hnew. rewrite <- Hr, E. by apply list_elem_of_fmap_2.
Qed.

Lemma serves_exactly_idle done tl T T' :
  Forall (λ p, pid p ≠ IDLE) done →
  serves_exactly done tl → serves_exactly done (tl ++ units IDLE T T').
Proof.
  intros Hidle [H1 H2]. split.
  - intros p Hin. rewrite executed_app, executed_units, H1 by done.
    eapply Forall_forall in Hidle; [|done].
    rewrite decide_False by done. lia.
  - intros i u Hi. apply lookup_app_Some in Hi as [Hi|[_ Hi]]; [by apply H2|].
    left. by apply lookup_units in Hi as ->.
Qed.

Lemma serves_exactly_run done tl p T :
  Z.of_nat (length tl) = T → arrival p ≤ T → 0 ≤ burst p →
  pid p ≠ IDLE → pid p ∉ pid <$> done →
  serves_exactly done tl →
  serves_exactly (done ++ [p]) (tl ++ units (pid p) T (T + burst p)).
Proof.
  intros HT Ha Hb Hidle Hnew Hs. pose proof Hs as [H1 H2]. split.
  - intros q [Hq| ->%list_elem_of_singleton]%elem_of_app;
      rewrite executed_app, executed_units.
    + rewrite H1 by done. rewrite decide_False; [lia|].
      intros E. apply Hnew. rewrite E. by apply list_elem_of_fmap_2.
    + rewrite (serves_exactly_fresh done tl) by done.
      rewrite decide_True by done. lia.
  - intros i u Hi. apply lookup_app_Some in Hi as [Hi|[Hlen Hi]].
    + destruct (H2 i u Hi) as [?|(q & Hq & ? & ?)]; [by left|].
      right. exists q. split; [|done]. apply elem_of_app. by left.
    + apply lookup_units in Hi as ->. right. exists p.
      split; [apply elem_of_app; right; by apply list_elem_of_singleton|].
      simpl. split; [done|lia].
Qed.

Lemma fcfs_serves procs done tl :
  NoDup (pid <$> done ++ procs) →
  Forall (λ p, pid p ≠ IDLE ∧ 0 ≤ burst p) (done ++ procs) →
  serves_exactly done tl →
  serves_exactly (done ++ procs)
                 (tl ++ units_in_order (Z.of_nat (length tl)) procs).
Proof.
  revert done tl. induction procs as [|p procs IH]; intros done tl Hnd Hv Hs.
  { simpl. by rewrite !app_nil_r. }
  cbn [units_in_order].
  set (T := Z.of_nat (length tl)). set (start := Z.max T (arrival p)).
  pose proof Hv as Hv'. apply Forall_app in Hv' as [Hvd Hvp].
  apply Forall_cons in Hvp as [[Hidle Hb] _].
  apply (serves_exactly_idle done tl T start) in Hs;
    [|eapply Forall_impl; [exact Hvd|]; by intros q [? _]].
  assert (Z.of_nat (length (tl ++ units IDLE T start)) = start) as Hlen.
  { rewrite length_app, length_units. lia. }
  apply (serves_exactly_run done _ p start Hlen) in Hs; [|lia|done|done|].
  - change (p :: procs) with ([p] ++ procs) in Hnd, Hv.
    rewrite app_assoc in Hnd, Hv.
    apply IH in Hs; [|done..].
    rewrite <- !app_assoc in Hs. cbn [app] in Hs.
    replace (Z.of_nat (length (tl ++ units IDLE T start
               ++ units (pid p) start (start + burst p))))
      with (start + burst p) in Hs; [done|].
    rewrite !length_app, !length_units. lia.
  - rewrite fmap_app, fmap_cons in Hnd.
    apply NoDup_app in Hnd as (_ & Hnd & _). intros Hin.
    apply (Hnd _ Hin). left.
Qed.

Lemma sjf_spec_loop_serves fuel sp sp' done :
  NoDup (pid <$> done ++ sp_pending sp) →
  Forall (λ p, pid p ≠ IDLE ∧ 0 ≤ burst p) (done ++ sp_pending sp) →
  Z.of_nat (length (sp_timeline sp)) = sp_time sp →
  serves_exactly done (sp_timeline sp) →
  sjf_spec_loop fuel sp = Some sp' →
  ∃ done', done' ≡ₚ done ++ sp_pending sp ∧
           serves_exactly done' (sp_timeline sp').
Proof.
  revert sp done.
  induction fuel as [|fuel IH]; intros sp done Hnd Hv HT Hs; simpl.
  { destruct (sp_pending sp) eqn:EP; [|done]. intros [= <-].
    exists done. by rewrite app_nil_r. }
  destruct (sp_pending sp) as [|q P] eqn:EP.
  { intros [= <-]. exists done. by rewrite app_nil_r. }
  pose proof Hv as Hv'. apply Forall_app in Hv' as [Hvd Hvp].
  unfold sjf_spec_step. rewrite EP.
  destruct (select sjf_key (arrived (sp_time sp)) (q :: P))
    as [[p rest]|] eqn:Es.
  - apply select_Some_split in Es as (l1 & l2 & E1 & -> & Hp & _).
    apply arrived_true in Hp. rewrite E1 in Hnd, Hv, Hvp.
    assert (done ++ l1 ++ p :: l2 ≡ₚ (done ++ [p]) ++ l1 ++ l2) as Hperm.
    { rewrite <- !app_assoc. apply Permutation_app_head. cbn [app].
      by rewrite Permutation_middle. }
    apply Forall_app in Hvp as [_ Hvp]. apply Forall_cons in Hvp as [[Hi Hb] _].
    intros Hloop. apply (IH _ (done ++ [p])) in Hloop;
      cbn [sp_pending sp_timeline sp_time] in *.
    + destruct Hloop as (done' & Hd & Hs'). exists done'. split; [|done].
      by rewrite Hd, E1, Hperm.
    + by rewrite <- Hperm.
    + by rewrite <- Hperm.
    + rewrite length_app, length_units. lia.
    + apply serves_exactly_run; [done|done|done|done| |done].
      rewrite fmap_app, fmap_app, fmap_cons in Hnd.
      apply NoDup_app in Hnd as (_ & Hnd & _). intros Hin.
      apply (Hnd _ Hin). apply elem_of_app. right. left.
  - apply select_None in Es.
    intros Hloop. apply (IH _ done) in Hloop;
      cbn [sp_pending sp_timeline sp_time] in *.
    + destruct Hloop as (done' & Hd & Hs'). by exists done'.
    + done.
    + done.
    + destruct (next_arrival_elem (q :: P)) as (m & Hm & Em); [done|].
      eapply Forall_forall in Es; [|exact Hm].
      apply not_true_iff_false in Es. apply arrived_not_true in Es.
      rewrite length_app, length_units. lia.
    + apply serves_exactly_idle; [|done].
      eapply Forall_impl; [exact Hvd|]. by intros x [? _].
Qed.

Lemma serves_exactly_nil : serves_exactly [] [].
Proof. split; [by intros p ?%elem_of_nil|]. intros i u. by rewrite lookup_nil. Qed.

Lemma srtf_serves l fuel res :
  valid_procs l → (∀ p, p ∈ l → pid p ≠ IDLE) →
  srtf_scheduler fuel l = Some res →
  serves_exactly l (sched_timeline res).
Proof.
  intros Hv Hidle Hres.
  destruct (decide (NoDup (pid <$> l))) as [Hnd|Hdup]; cycle 1.
  { by rewrite srtf_scheduler_dup_diverges in Hres. }
  destruct l as [|p0 l0] eqn:El.
  { injection Hres as <-. apply serves_exactly_nil. }
  rewrite <- El in *. assert (l ≠ []) as Hne by (by rewrite El).
  destruct (srtf_scheduler_Some l fuel res Hne Hres) as (st & Hreach & Hsz & ->).
  unfold sched_timeline. cbn [snd].
  pose proof (srtf_reachable_inv l Hv Hnd st Hreach) as Hinv.
  destruct (inv_busy _ _ Hinv Hidle) as (_ & Hrem & Hocc & _).
  pose proof (completed_all l _ Hnd (inv_dom _ _ Hinv) Hsz) as Hall.
  split.
  - intros p Hp. specialize (Hrem p Hp).
    destruct (inv_rb _ _ Hinv p Hp) as (r & Hr & Hb & Hc & _).
    rewrite (lookup_total_correct _ _ _ Hr) in Hrem.
    destruct (Hall p Hp) as [ct Hct].
    assert (r = 0) as ->.
    { destruct (decide (0 < r)) as [Hpos|]; [|lia].
      apply Hc in Hpos. congruence. }
    unfold remaining_after in Hrem. lia.
  - intros i u Hi. rewrite (Hocc i u Hi). unfold srtf_occupant, srtf_choice.
    destruct (select _ _ l) as [[p r]|] eqn:Es; simpl; [|by left].
    right. exists p. apply select_elem_of in Es as [Hin He].
    split; [done|]. split; [done|].
    apply bool_decide_eq_true in He as [Ha _].
    rewrite length_take in Ha. apply lookup_lt_Some in Hi. lia.
Qed.

(** With a valid list of distinct pids, none being the idle sentinel,
    each scheduler gives every process exactly the service it asked for:
    the units a process occupies in the timeline number its burst, none of
    them lies before its arrival, and every unit is either idle or
    occupied by a process of the list. *)
Theorem every_process_runs_exactly_its_burst (l : list Process) :
  valid_procs l → NoDup (pid <$> l) → Forall (λ p, pid p ≠ IDLE) l →
  serves_exactly l (sched_timeline (fcfs_scheduler l)) ∧
  (∀ fuel res, sjf_nonpreemptive_scheduler fuel l = Some res →
     serves_exactly l (sched_timeline res)) ∧
  (∀ fuel res, srtf_scheduler fuel l = Some res →
     serves_exactly l (sched_timeline res)).
Proof.
  intros Hv Hnd Hidle.
  assert (∀ l', l' ≡ₚ l →
            Forall (λ p, pid p ≠ IDLE ∧ 0 ≤ burst p) ([] ++ l')) as Hall.
  { intros l' ->. simpl. apply Forall_forall. intros p Hp.
    eapply Forall_forall in Hv, Hidle; [|done..]. split; [done|lia]. }
  split; [|split].
  - rewrite fcfs_scheduler_eq. unfold sched_timeline. cbn [snd].
    rewrite fcfs_fold_timeline_eq. simpl.
    apply (serves_exactly_perm (sorted arrival l)); [apply sorted_perm|].
    apply (fcfs_serves (sorted arrival l) [] []);
      [simpl; by rewrite sorted_perm|apply Hall, sorted_perm|].
    apply serves_exactly_nil.
  - intros fuel res. rewrite sjf_refines_spec by done.
    destruct l as [|p l]; [intros [= <-]; apply serves_exactly_nil|].
    unfold sjf_spec.
    destruct (sjf_spec_loop _ _) as [sp'|] eqn:Eloop; [|done].
    intros [= <-]. unfold sched_timeline. cbn [snd].
    eapply (sjf_spec_loop_serves _ _ _ []) in Eloop as (done' & Hd & Hs);
      [|done|by apply Hall|done|apply serves_exactly_nil].
    by apply (serves_exactly_perm done').
  - intros fuel res Hres. rewrite Forall_forall in Hidle.
    by eapply srtf_serves.
Qed.

Lemma every_process_runs_exactly_its_burst_witness :
  valid_procs example_procs ∧ NoDup (pid <$> example_procs) ∧
  Forall (λ p, pid p ≠ IDLE) example_procs ∧
  serves_exactly example_procs (sched_timeline (fcfs_scheduler example_procs)).
Proof.
  assert (valid_procs example_procs) as Hv.
  { unfold valid_procs, example_procs. repeat constructor; simpl; lia. }
  assert (NoDup (pid <$> example_procs)) as Hnd.
  { apply (bool_decide_unpack _). by vm_compute. }
  assert (Forall (λ p, pid p ≠ IDLE) example_procs) as Hidle.
  { unfold example_procs. by repeat constructor. }
  split; [exact Hv|]. split; [exact Hnd|]. split; [exact Hidle|].
  apply (every_process_runs_exactly_its_burst example_procs Hv Hnd Hidle).
Defined.

(** ** SJF segments *)

Lemma sjf_spec_loop_pieces (R : Segment → Row → Prop) fuel sp sp' :
  (∀ p t, R (mkSegment (pid p) t (t + burst p)) (result_row p (t + burst p))) →
  Forall2 R (sp_gantt sp) (sp_results sp) →
  sjf_spec_loop fuel sp = Some sp' →
  Forall2 R (sp_gantt sp') (sp_results sp').
Proof.
  intros HR. revert sp. induction fuel as [|fuel IH]; intros sp H0; simpl.
  { destruct (sp_pending sp); [|done]. by intros [= <-]. }
  destruct (sp_pending sp) as [|q0 P] eqn:EP; [by intros [= <-]|].
  apply IH. unfold sjf_spec_step.
  destruct (select _ _ _) as [[p rest]|]; cbn [sp_gantt sp_results]; [|done].
  apply Forall2_app; [done|]. by repeat constructor.
Qed.

(** SJF never preempts: for a valid list its Gantt chart has one segment
    per process, segment [k] and result row [k] belong to the same
    process, the segment spans exactly the process's burst and ends at its
    completion time, and the waiting time is the segment's start minus
    the arrival. *)
Theorem sjf_runs_each_process_in_one_piece (l : list Process) (fuel : nat)
    (res : Schedule) :
  valid_procs l →
  sjf_nonpreemptive_scheduler fuel l = Some res →
  length (sched_gantt res) = length l ∧
  Forall2 (λ g r, r_pid r = g_pid g ∧ CT r = g_finish g ∧
                  g_finish g - g_start g = BT r ∧ WT r = g_start g - AT r)
          (sched_gantt res) (sched_rows res).
Proof.
  intros Hv Hres.
  assert (Forall2 (λ g r, r_pid r = g_pid g ∧ CT r = g_finish g ∧
                          g_finish g - g_start g = BT r ∧
                          WT r = g_start g - AT r)
                  (sched_gantt res) (sched_rows res)) as HF.
  { revert Hres. rewrite sjf_refines_spec by done.
    destruct l as [|p l]; [intros [= <-]; constructor|].
    unfold sjf_spec.
    destruct (sjf_spec_loop _ _) as [sp'|] eqn:Eloop; [|done].
    intros [= <-]. unfold sched_gantt, sched_rows. cbn [fst snd].
    eapply sjf_spec_loop_pieces; [| |exact Eloop]; [|constructor].
    intros q t. unfold result_row. simpl. repeat split; lia. }
  split; [|done].
  rewrite (Forall2_length _ _ _ HF).
  by destruct (sjf_final l fuel res Hv Hres) as (_ & ? & _).
Qed.

Lemma sjf_runs_each_process_in_one_piece_witness :
  valid_procs example_procs ∧
  ∃ res, sjf_nonpreemptive_scheduler 8 example_procs = Some res ∧
         length (sched_gantt res) = length example_procs.
Proof.
  assert (valid_procs example_procs) as Hv.
  { unfold valid_procs, example_procs. repeat constructor; simpl; lia. }
  assert (is_Some (sjf_nonpreemptive_scheduler 8 example_procs)) as [res E].
  { vm_compute. by eexists. }
  split; [exact Hv|]. exists res. split; [exact E|].
  apply (sjf_runs_each_process_in_one_piece example_procs 8 res Hv E).
Defined.
